(** * NetBox connector: rules engine, proposal engine and LAG reconciliation

    A shallow embedding of the normalization-and-reconciliation core of the
    connector ([config_loader.py], [netbox_devices_full.py],
    [netmiko_ssh_handler.py], [models.py]) together with the properties the
    specification states about it.

    Conventions.
    - A Python [str] is a [string]; every character is read as the Unicode
      code point of the same number, so the development covers the strings
      whose code points lie below 256 (ASCII and the Latin-1 block).
    - A Python [dict] used as a field map is a [gmap string pyval]; a [set]
      of names is a [gset string].
    - A raised exception is the [Raise] branch of [result]. *)

From Stdlib Require Import ZArith Ascii String List.
From stdpp Require Import base decidable option list sorting strings gmap fin_maps.

Local Open Scope string_scope.
Local Open Scope list_scope.
Local Open Scope nat_scope.

(** ** Python values *)

(** The values that occur in desired/current/diff field maps and in
    serialized remote records. A nested dictionary is kept as the sequence
    of its items (keys pairwise distinct, in insertion order). *)
#[local] Unset Elimination Schemes.
Inductive pyval : Type :=
  | VNone
  | VBool (b : bool)
  | VInt (n : Z)
  | VStr (s : string)
  | VList (l : list pyval)
  | VDict (d : list (string * pyval)).
#[local] Set Elimination Schemes.

(** Position-wise comparison of two sequences. *)
Fixpoint all2 {A B : Type} (eq : A → B → bool) (x : list A) (y : list B) : bool :=
  match x, y with
  | [], [] => true
  | u :: x', v :: y' => eq u v && all2 eq x' y'
  | _, _ => false
  end.

(** Python [==]. [bool] is a subclass of [int], so [True == 1]; lists are
    compared position by position; dictionaries have the same size and
    every item of the left one has an equal item in the right one. *)
Fixpoint py_eq (a b : pyval) {struct a} : bool :=
  match a, b with
  | VNone, VNone => true
  | VBool x, VBool y => Bool.eqb x y
  | VBool x, VInt y => Z.eqb (Z.b2z x) y
  | VInt x, VBool y => Z.eqb x (Z.b2z y)
  | VInt x, VInt y => Z.eqb x y
  | VStr x, VStr y => String.eqb x y
  | VList x, VList y => all2 py_eq x y
  | VDict x, VDict y =>
      Nat.eqb (length x) (length y) &&
      forallb (λ ku, existsb (λ kv, String.eqb ku.1 kv.1 && py_eq ku.2 kv.2) y) x
  | _, _ => false
  end.

(** Python [!=]. *)
Definition py_ne (a b : pyval) : bool := negb (py_eq a b).

(** [v is None] *)
Definition is_none (v : pyval) : bool :=
  match v with VNone => true | _ => false end.

(** Truth value of an object in a condition ([if v:], [v or w]). *)
Definition truthy (v : pyval) : bool :=
  match v with
  | VNone => false
  | VBool b => b
  | VInt n => negb (Z.eqb n 0)
  | VStr s => negb (String.eqb s "")
  | VList l => match l with [] => false | _ => true end
  | VDict d => match d with [] => false | _ => true end
  end.

(** Truth value of a string: non-empty. *)
Definition str_truthy (s : string) : bool := negb (String.eqb s "").

(** Truth value of an optional string ([None] and [""] are false). *)
Definition ostr_truthy (o : option string) : bool :=
  match o with Some s => str_truthy s | None => false end.

(** Truth value of a field map: non-empty. *)
Definition dict_truthy (m : gmap string pyval) : bool :=
  negb (bool_decide (m = ∅)).

(** [d.get(key)] on a field map: [None] when the key is absent. *)
Definition dict_get (m : gmap string pyval) (key : string) : pyval :=
  default VNone (m !! key).

(** [v.get(key)] on a serialized record held as a value: the first item
    with that key; [None] when absent. *)
Fixpoint items_get (d : list (string * pyval)) (key : string) : pyval :=
  match d with
  | [] => VNone
  | (k, v) :: d' => if String.eqb k key then v else items_get d' key
  end.

(** [(v or {}).get(key)]: a false [v] is replaced by the empty dictionary.
    In the records the client serializes, a reference is [None] or a
    dictionary; for any other value, on which Python would raise, the
    model answers [None]. *)
Definition or_empty_get (v : pyval) (key : string) : pyval :=
  match v with
  | VDict d => items_get d key
  | _ => VNone
  end.

(** An optional string as a value. *)
Definition of_ostr (o : option string) : pyval :=
  match o with Some s => VStr s | None => VNone end.

Definition of_strs (l : list string) : pyval := VList (VStr <$> l).

(** ** Results of computations that may raise *)

Inductive result (A : Type) : Type :=
  | Ok (a : A)
  | Raise (msg : string).
Arguments Ok {A} a.
Arguments Raise {A} msg.

Global Instance result_bind : MBind result := λ A B k r,
  match r with
  | Ok a => k a
  | Raise msg => Raise msg
  end.

Global Instance result_ret : MRet result := λ A a, Ok a.

(** ** Proposals ([models.py]) *)

Inductive action : Type := create | update | noop.

Global Instance action_eq_dec : EqDecision action.
Proof. solve_decision. Defined.

Record Proposal : Type := mkProposal {
  p_action : action;
  p_model : string;
  p_identifier : string;
  p_desired : gmap string pyval;
  p_current : option (gmap string pyval);
  p_diff : option (gmap string pyval);
}.

Record ProposalBatch : Type := mkBatch {
  b_device : Proposal;
  b_module_bays : list Proposal;
  b_modules : list Proposal;
  b_interfaces : list Proposal;
  b_lags : list Proposal;
}.

(** [ProposalBatch.actions] *)
Definition actions (b : ProposalBatch) : list Proposal :=
  (b_device b :: b_module_bays b ++ b_modules b ++ b_interfaces b ++ b_lags b)%list.

(** ** The diff of the proposal engine ([netbox_devices_full.py]) *)

(** [current.get(key) if current else None] *)
Definition current_value_of (current : gmap string pyval) (key : string) : pyval :=
  if dict_truthy current then dict_get current key else VNone.

(** The desired map restricted to its non-null fields:
    [{k: v for k, v in desired.items() if v is not None}]. *)
Definition non_null_fields (desired : gmap string pyval) : gmap string pyval :=
  filter (λ kv, is_none kv.2 = false) desired.

(** [ProposalEngine._diff]. With no current map the diff is the
    comprehension over the non-null desired fields; otherwise the loop
    inserts every desired field whose current value is different. *)
Definition _diff (desired : gmap string pyval)
    (current : option (gmap string pyval)) : gmap string pyval :=
  match current with
  | None => non_null_fields desired
  | Some cur =>
      map_fold (λ key value diff,
        let current_value := current_value_of cur key in
        if decide (py_ne current_value value = true)
        then <[key := value]> diff else diff) ∅ desired
  end.

(** [ProposalEngine._action_and_diff] *)
Definition _action_and_diff (desired : gmap string pyval)
    (current : option (gmap string pyval)) (exists_ : bool)
    : action * option (gmap string pyval) :=
  if negb exists_ then
    let diff := _diff desired None in
    (create, Some (if dict_truthy diff then diff else desired))
  else
    let diff := _diff desired current in
    if dict_truthy diff then (update, Some diff) else (noop, None).

(** ** String primitives of the Python runtime *)

Definition code (c : ascii) : N := N_of_ascii c.

Definition in_range (lo hi : N) (c : ascii) : bool :=
  (lo <=? code c)%N && (code c <=? hi)%N.

(** [str.isspace] on one character: the ASCII controls and separators
    9-13 and 28-32, NEXT LINE (133) and NO-BREAK SPACE (160). *)
Definition isspace (c : ascii) : bool :=
  in_range 9 13 c || in_range 28 32 c || (code c =? 133)%N || (code c =? 160)%N.

(** [str.isalnum] on one character: ASCII digits and letters, and in the
    Latin-1 block the letters (170, 181, 186, 192-214, 216-246, 248-255),
    the superscript digits (178, 179, 185) and the fractions (188-190). *)
Definition isalnum (c : ascii) : bool :=
  in_range 48 57 c || in_range 65 90 c || in_range 97 122 c ||
  (code c =? 170)%N || in_range 178 179 c || (code c =? 181)%N ||
  in_range 185 186 c || in_range 188 190 c ||
  in_range 192 214 c || in_range 216 246 c || in_range 248 255 c.

(** The character class [[a-z0-9]]. *)
Definition is_slug_char (c : ascii) : bool :=
  in_range 97 122 c || in_range 48 57 c.

(** [str.lower] on one character: the capitals A-Z and the Latin-1
    capitals 192-214 and 216-222 move up by 32. *)
Definition lower_char (c : ascii) : ascii :=
  if in_range 65 90 c || in_range 192 214 c || in_range 216 222 c
  then ascii_of_N (code c + 32) else c.

Fixpoint str_map (f : ascii → ascii) (s : string) : string :=
  match s with
  | EmptyString => EmptyString
  | String c s' => String (f c) (str_map f s')
  end.

(** [s.lower()] *)
Definition lower (s : string) : string := str_map lower_char s.

(** Removal of the leading characters that satisfy [p]. *)
Fixpoint lstrip_by (p : ascii → bool) (s : string) : string :=
  match s with
  | EmptyString => EmptyString
  | String c s' => if p c then lstrip_by p s' else s
  end.

(** Removal of the trailing characters that satisfy [p]. *)
Fixpoint rstrip_by (p : ascii → bool) (s : string) : string :=
  match s with
  | EmptyString => EmptyString
  | String c s' =>
      match rstrip_by p s' with
      | EmptyString => if p c then EmptyString else String c EmptyString
      | r => String c r
      end
  end.

Definition strip_by (p : ascii → bool) (s : string) : string :=
  rstrip_by p (lstrip_by p s).

(** [s.strip()] *)
Definition strip (s : string) : string := strip_by isspace s.

Definition is_hyphen (c : ascii) : bool := Ascii.eqb c "-"%char.

(** [s.strip("-")] *)
Definition strip_hyphens (s : string) : string := strip_by is_hyphen s.

(** [re.sub(r"[^a-z0-9]+", "-", s)]: scanning from the left, every maximal
    run of characters outside the class is replaced by one hyphen.
    [in_run] tells that the previous character belonged to a run whose
    hyphen has been emitted already. *)
Fixpoint sub_runs_from (in_run : bool) (s : string) : string :=
  match s with
  | EmptyString => EmptyString
  | String c s' =>
      if is_slug_char c then String c (sub_runs_from false s')
      else if in_run then sub_runs_from true s'
      else String "-"%char (sub_runs_from true s')
  end.

Definition sub_runs (s : string) : string := sub_runs_from false s.

(** [RulesEngine._slugify] ([config_loader.py]) *)
Definition _slugify (value : string) : string :=
  let value := lower (strip value) in
  let value := sub_runs value in
  strip_hyphens value.

(** ["--" in s] *)
Fixpoint has_double_hyphen (s : string) : bool :=
  match s with
  | EmptyString => false
  | String c s' =>
      match s' with
      | EmptyString => false
      | String c' _ => (is_hyphen c && is_hyphen c') || has_double_hyphen s'
      end
  end.

(** [s.replace("--", "-")]: the occurrences are replaced from the left and
    do not overlap. *)
Fixpoint replace_double_hyphen (s : string) : string :=
  match s with
  | EmptyString => EmptyString
  | String c s' =>
      match s' with
      | EmptyString => s
      | String c' s'' =>
          if is_hyphen c && is_hyphen c'
          then String "-"%char (replace_double_hyphen s'')
          else String c (replace_double_hyphen s')
      end
  end.

(** The loop [while "--" in result: result = result.replace("--", "-")],
    run for at most [fuel] iterations. *)
Fixpoint collapse_loop (fuel : nat) (result : string) : string :=
  match fuel with
  | O => result
  | S fuel' =>
      if has_double_hyphen result
      then collapse_loop fuel' (replace_double_hyphen result)
      else result
  end.

(** The loop with as many iterations as it can need: every iteration that
    runs shortens the string (see [collapse_loop_exits]). *)
Definition collapse_hyphens (result : string) : string :=
  collapse_loop (String.length result) result.

(** Module-level [slugify] ([netbox_devices_full.py]) *)
Definition slugify (value : string) : string :=
  let cleaned := lower (strip value) in
  let result := str_map (λ ch, if isalnum ch then ch else "-"%char) cleaned in
  let result := collapse_hyphens result in
  strip_hyphens result.

(** The slugification as the specification words it: lowercase, every
    maximal run of characters outside [[a-z0-9]] collapsed to one hyphen,
    leading and trailing hyphens stripped. *)
Definition spec_slugify (raw : string) : string :=
  strip_hyphens (sub_runs (lower raw)).

(** ** The rules engine ([config_loader.py]) *)

(** What [re.Match] offers to a rule: [groupdict()] (the named groups, a
    group that took no part in the match is [None]) and [groups()] (all
    groups by position). *)
Record re_match : Type := mkMatch {
  groupdict : list (string * option string);
  groups : list (option string);
}.

(** [RegexRule]. The compiled pattern is kept by its [search] method. *)
Record RegexRule : Type := mkRule {
  pattern : string → option re_match;
  value : option string;
  template : option string;
  transform : option string;
}.

(** [RulesEngine], with the rule lists and defaults the classifier reads. *)
Record RulesEngine : Type := mkRules {
  role_rules : list RegexRule;
  site_rules : list RegexRule;
  manufacturer_rules : list RegexRule;
  device_type_rules : list RegexRule;
  defaults : gmap string (option string);
}.

Section Classifier.

(** The runtime's [str.format], called with the named groups as keyword
    arguments or with all groups as positional ones (it raises on a field
    the arguments do not provide), and [str.upper]. *)
Variable format_named : string → list (string * option string) → result string.
Variable format_positional : string → list (option string) → result string.
Variable upper : string → string.

(** [RegexRule.apply] *)
Definition RegexRule_apply (self : RegexRule) (candidate : string)
    : result (option string) :=
  match pattern self candidate with
  | None => Ok None
  | Some m =>
      res ← match value self with
            | Some v => Ok (Some v)
            | None =>
                match template self with
                | Some t =>
                    match groupdict m with
                    | _ :: _ => r ← format_named t (groupdict m); Ok (Some r)
                    | [] => r ← format_positional t (groups m); Ok (Some r)
                    end
                | None => Ok None
                end
            end;
      match res with
      | None => Ok None
      | Some r =>
          if decide (transform self = Some "lower") then Ok (Some (lower r))
          else if decide (transform self = Some "upper") then Ok (Some (upper r))
          else Ok (Some r)
      end
  end.

(** The loop shared by [_apply_rules] and [device_type_slug]: the first
    rule whose result is true in a condition ends it. [None] means the
    loop ran to its end. *)
Fixpoint first_rule_value (rules : list RegexRule) (candidate : string)
    : result (option string) :=
  match rules with
  | [] => Ok None
  | rule :: rest =>
      v ← RegexRule_apply rule candidate;
      if ostr_truthy v then Ok v else first_rule_value rest candidate
  end.

(** [self.defaults.get(key)] *)
Definition defaults_get (self : RulesEngine) (key : string) : option string :=
  default None (defaults self !! key).

(** [RulesEngine._apply_rules] *)
Definition _apply_rules (self : RulesEngine) (host_name : string)
    (rules : list RegexRule) (default_key : string) : result string :=
  found ← first_rule_value rules host_name;
  match found with
  | Some v => Ok v
  | None =>
      let default_value := defaults_get self default_key in
      match default_value with
      | Some d =>
          if str_truthy d then Ok d
          else Raise ("No rule matched for " +:+ default_key +:+
                      " and no default configured")
      | None => Raise ("No rule matched for " +:+ default_key +:+
                       " and no default configured")
      end
  end.

Definition role_slug (self : RulesEngine) (host_name : string) : result string :=
  _apply_rules self host_name (role_rules self) "role_slug".

Definition site_slug (self : RulesEngine) (host_name : string) : result string :=
  _apply_rules self host_name (site_rules self) "site_slug".

Definition manufacturer_slug (self : RulesEngine) (hostname : string)
    : result string :=
  _apply_rules self hostname (manufacturer_rules self) "manufacturer_slug".

(** [RulesEngine.device_type_slug] *)
Definition device_type_slug (self : RulesEngine) (device_type : string)
    : result string :=
  found ← first_rule_value (device_type_rules self) device_type;
  match found with
  | Some v => Ok v
  | None =>
      let default_value := defaults_get self "device_type_slug" in
      if ostr_truthy default_value then Ok (default "" default_value)
      else Ok (_slugify device_type)
  end.

End Classifier.

(** ** Normalized inventory ([models.py]) *)

Record NormalizedDevice : Type := mkDevice {
  d_name : string;
  d_site_slug : string;
  d_role_slug : string;
  d_manufacturer_slug : string;
  d_device_type_slug : string;
  d_status : string;
  d_serial : option string;
  d_asset_tag : option string;
  d_custom_fields : list (string * pyval);
  d_tags : list string;
}.

Record NormalizedModuleBay : Type := mkBay {
  mb_name : string;
  mb_label : option string;
  mb_position : option string;
}.

Record NormalizedModule : Type := mkModule {
  m_bay_name : string;
  m_module_type_model : string;
  m_status : string;
  m_serial : option string;
  m_custom_fields : list (string * pyval);
}.

Record NormalizedInterface : Type := mkInterface {
  i_name : string;
  i_type_slug : string;
  i_enabled : bool;
  i_description : option string;
  i_lag : option string;
  i_mtu : option Z;
  i_mac_address : option string;
  i_tagged_vlans : list string;
  i_untagged_vlan : option string;
  i_custom_fields : list (string * pyval);
}.

Record NormalizedLag : Type := mkLag {
  l_name : string;
  l_description : option string;
  l_members : list string;
  l_enabled : bool;
  l_custom_fields : list (string * pyval);
}.

Record NormalizedInventory : Type := mkInventory {
  device : NormalizedDevice;
  module_bays : list NormalizedModuleBay;
  modules : list NormalizedModule;
  interfaces : list NormalizedInterface;
  lags : list NormalizedLag;
}.

(** ** Module collection of the harvester ([netmiko_ssh_handler.py]) *)

(** [NormalizedModule(bay_name=..., module_type_model=...)]: the other
    fields take the defaults of the dataclass. *)
Definition new_module (bay_name model : string) : NormalizedModule :=
  mkModule bay_name model "active" None [].

(** The insertion-ordered dictionary [module_entries], keyed by the pair
    (bay name, model). *)
Definition module_entries_t : Type := list ((string * string) * NormalizedModule).

Definition key_in (key : string * string) (entries : module_entries_t) : bool :=
  bool_decide (key ∈ entries.*1).

(** The closure [add_module] of [_harvest_nokia_sros], with the dictionary
    it updates passed in and out. *)
Definition add_module (module_entries : module_entries_t)
    (bay_name : string) (model : option string) : module_entries_t :=
  if negb (str_truthy bay_name) || negb (ostr_truthy model) then module_entries
  else
    let key := (bay_name, default "" model) in
    if negb (key_in key module_entries)
    then (module_entries ++ [(key, new_module bay_name (default "" model))])%list
    else module_entries.

Definition add_all (source : list (string * option string))
    (module_entries : module_entries_t) : module_entries_t :=
  foldl (λ acc '(bay_name, model), add_module acc bay_name model)
        module_entries source.

(** The three loops over the sources and [list(module_entries.values())].
    The sources are the pairs that the regular expressions have extracted
    from the command output: provisioned types ([module_pairs]), card
    types ([card_modules]) and MDA slots ([mda_modules]). *)
Definition harvest_modules
    (module_pairs card_modules mda_modules : list (string * option string))
    : list NormalizedModule :=
  (add_all mda_modules (add_all card_modules (add_all module_pairs []))).*2.

(** ** Python's [sorted] *)

(** Insertion behind nothing that compares equal keeps [sorted] stable:
    an element goes in front of the first element it is not greater than. *)
Fixpoint insert_sorted {A : Type} (le : A → A → bool) (x : A) (l : list A)
    : list A :=
  match l with
  | [] => [x]
  | y :: l' => if le x y then x :: l else y :: insert_sorted le x l'
  end.

(** [sorted(l, key=...)] for the order [le] that the keys induce. *)
Definition py_sorted {A : Type} (le : A → A → bool) (l : list A) : list A :=
  foldr (insert_sorted le) [] l.

(** [sorted(s)] for a set of names. *)
Definition sorted_names (s : gset string) : list string :=
  py_sorted String.leb (elements s).

(** ** The inventory API collaborator *)

(** An in-memory model of the remote inventory system behind the client:
    per entity kind the stored records, each with its identifier. A
    serialized record is the sequence of its items; a reference to another
    object is [None] or a nested dictionary. *)
Record NbDevice : Type := mkNbDevice {
  dev_id : Z;
  dev_name : string;
  dev_data : list (string * pyval);
}.

Record NbModuleBay : Type := mkNbBay {
  bay_id : Z;
  bay_device : Z;
  bay_name : string;
  bay_data : list (string * pyval);
}.

Record NbModule : Type := mkNbModule {
  mod_id : Z;
  mod_device : Z;
  mod_data : list (string * pyval);
}.

(** An interface stores the identifier of its LAG interface, if any. *)
Record NbInterface : Type := mkNbInterface {
  if_id : Z;
  if_device : Z;
  if_name : string;
  if_lag : option Z;
  if_data : list (string * pyval);
}.

Record NetBox : Type := mkNetBox {
  nb_devices : list NbDevice;
  nb_module_bays : list NbModuleBay;
  nb_modules : list NbModule;
  nb_interfaces : list NbInterface;
}.

(** [Endpoint.get]: no result is [None], one result is that record, more
    than one raises. *)
Definition get_one {A : Type} (found : list A) : result (option A) :=
  match found with
  | [] => Ok None
  | [r] => Ok (Some r)
  | _ => Raise "get() returned more than one result"
  end.

(** [nb.dcim.devices.get(name=...)] *)
Definition devices_get (nb : NetBox) (name : string) : result (option NbDevice) :=
  get_one (filter (λ d, dev_name d = name) (nb_devices nb)).

(** [nb.dcim.interfaces.get(device_id=..., name=...)] *)
Definition interfaces_get (nb : NetBox) (device_id : Z) (name : string)
    : result (option NbInterface) :=
  get_one (filter (λ i, if_device i = device_id ∧ if_name i = name)
                  (nb_interfaces nb)).

(** [nb.dcim.interfaces.filter(device_id=..., lag_id=..., limit=0)] *)
Definition interfaces_filter_lag (nb : NetBox) (device_id lag_id : Z)
    : list NbInterface :=
  filter (λ i, if_device i = device_id ∧ if_lag i = Some lag_id)
         (nb_interfaces nb).

Definition serialize_device (r : NbDevice) : list (string * pyval) :=
  ("name", VStr (dev_name r)) :: dev_data r.

Definition serialize_bay (r : NbModuleBay) : list (string * pyval) :=
  ("name", VStr (bay_name r)) :: bay_data r.

Definition serialize_module (r : NbModule) : list (string * pyval) := mod_data r.

(** The nested reference to the LAG interface of [r]. *)
Definition lag_reference (nb : NetBox) (r : NbInterface) : pyval :=
  match if_lag r with
  | None => VNone
  | Some lag_id =>
      match List.find (λ i, Z.eqb (if_id i) lag_id) (nb_interfaces nb) with
      | Some l => VDict [("id", VInt lag_id); ("name", VStr (if_name l))]
      | None => VNone
      end
  end.

Definition serialize_interface (nb : NetBox) (r : NbInterface)
    : list (string * pyval) :=
  ("name", VStr (if_name r)) :: ("lag", lag_reference nb r) :: if_data r.

(** [record.update({"lag": lag})] on the interface with identifier [id]. *)
Definition interface_set_lag (nb : NetBox) (id : Z) (lag : option Z) : NetBox :=
  mkNetBox (nb_devices nb) (nb_module_bays nb) (nb_modules nb)
    ((λ i, if decide (if_id i = id)
           then mkNbInterface (if_id i) (if_device i) (if_name i) lag (if_data i)
           else i) <$> nb_interfaces nb).

(** ** The proposal engine ([netbox_devices_full.py]) *)

Record DeviceState : Type := mkState {
  st_module_bays : gmap string (list (string * pyval));
  st_modules : gmap string (list (string * pyval));
  st_interfaces : gmap string (list (string * pyval));
  st_lag_membership : gmap string (gset string);
}.

(** A value used as a dictionary key or as a set element: the names the
    engine handles are strings. *)
Definition str_key (v : pyval) : string :=
  match v with VStr s => s | _ => "" end.

(** [ProposalEngine._load_state] *)
Definition _load_state (nb : NetBox) (device : NbDevice) : DeviceState :=
  let module_bays :=
    foldl (λ acc record,
             let data := serialize_bay record in
             <[str_key (items_get data "name") := data]> acc)
          ∅ (filter (λ r, bay_device r = dev_id device) (nb_module_bays nb)) in
  let modules :=
    foldl (λ acc record,
             let data := serialize_module record in
             let bay := or_empty_get (items_get data "module_bay") "name" in
             if truthy bay then <[str_key bay := data]> acc else acc)
          ∅ (filter (λ r, mod_device r = dev_id device) (nb_modules nb)) in
  let '(interfaces, lag_membership) :=
    foldl (λ '(interfaces, lag_membership) record,
             let data := serialize_interface nb record in
             let name := str_key (items_get data "name") in
             let interfaces := <[name := data]> interfaces in
             let lag := items_get data "lag" in
             if truthy lag && truthy (or_empty_get lag "name")
             then
               let lag_name := str_key (or_empty_get lag "name") in
               (interfaces,
                <[lag_name := default ∅ (lag_membership !! lag_name) ∪ {[name]}]>
                  lag_membership)
             else (interfaces, lag_membership))
          (∅, ∅)
          (filter (λ r, if_device r = dev_id device) (nb_interfaces nb)) in
  mkState module_bays modules interfaces lag_membership.

(** Truth value of a serialized record: a non-empty dictionary. *)
Definition items_truthy (d : list (string * pyval)) : bool :=
  match d with [] => false | _ => true end.

(** [ProposalEngine._device_proposal] *)
Definition _device_proposal (inventory : NormalizedInventory)
    (existing_device : option NbDevice) : Proposal :=
  let device := device inventory in
  let desired : gmap string pyval := list_to_map [
    ("name", VStr (d_name device));
    ("status", VStr (d_status device));
    ("site", VStr (d_site_slug device));
    ("role", VStr (d_role_slug device));
    ("device_type", VStr (d_device_type_slug device));
    ("manufacturer", VStr (d_manufacturer_slug device));
    ("serial", of_ostr (d_serial device));
    ("asset_tag", of_ostr (d_asset_tag device));
    ("tags", of_strs (d_tags device));
    ("custom_fields", VDict (d_custom_fields device)) ] in
  let current : option (gmap string pyval) :=
    match existing_device with
    | None => None
    | Some record =>
        let data := serialize_device record in
        Some (list_to_map [
          ("name", items_get data "name");
          ("status", or_empty_get (items_get data "status") "value");
          ("site", or_empty_get (items_get data "site") "slug");
          ("role", or_empty_get (items_get data "role") "slug");
          ("device_type", or_empty_get (items_get data "device_type") "slug");
          ("manufacturer",
             or_empty_get
               (or_empty_get (items_get data "device_type") "manufacturer")
               "slug");
          ("serial", items_get data "serial");
          ("asset_tag", items_get data "asset_tag");
          ("tags",
             match items_get data "tags" with
             | VList tags => VList ((λ tag, or_empty_get tag "slug") <$> tags)
             | _ => VList []
             end);
          ("custom_fields", items_get data "custom_fields") ])
    end in
  let '(action, diff) :=
    _action_and_diff desired current (bool_decide (is_Some existing_device)) in
  mkProposal action "device" (d_name device) desired current diff.

(** [state.<map>.get(name) if state else None] *)
Definition state_get (state : option DeviceState)
    (field : DeviceState → gmap string (list (string * pyval)))
    (name : string) : option (list (string * pyval)) :=
  match state with
  | Some st => field st !! name
  | None => None
  end.

(** [ProposalEngine._module_bay_proposal] *)
Definition _module_bay_proposal (bay : NormalizedModuleBay)
    (state : option DeviceState) : Proposal :=
  let desired : gmap string pyval := list_to_map [
    ("name", VStr (mb_name bay));
    ("label", VStr (if ostr_truthy (mb_label bay)
                    then default "" (mb_label bay) else mb_name bay));
    ("position", of_ostr (mb_position bay)) ] in
  let existing := state_get state st_module_bays (mb_name bay) in
  let current : option (gmap string pyval) :=
    match existing with
    | Some data =>
        if items_truthy data then
          Some (list_to_map [
            ("name", items_get data "name");
            ("label", items_get data "label");
            ("position", items_get data "position") ])
        else None
    | None => None
    end in
  let '(action, diff) :=
    _action_and_diff desired current (bool_decide (is_Some existing)) in
  mkProposal action "module_bay" (mb_name bay) desired current diff.

(** [ProposalEngine._module_proposal] *)
Definition _module_proposal (module : NormalizedModule)
    (state : option DeviceState) : Proposal :=
  let desired : gmap string pyval := list_to_map [
    ("bay_name", VStr (m_bay_name module));
    ("module_type_model", VStr (m_module_type_model module));
    ("status", VStr (m_status module));
    ("serial", of_ostr (m_serial module)) ] in
  let existing := state_get state st_modules (m_bay_name module) in
  let current : option (gmap string pyval) :=
    match existing with
    | Some data =>
        if items_truthy data then
          Some (list_to_map [
            ("bay_name", or_empty_get (items_get data "module_bay") "name");
            ("module_type_model",
               or_empty_get (items_get data "module_type") "model");
            ("status", or_empty_get (items_get data "status") "value");
            ("serial", items_get data "serial") ])
        else None
    | None => None
    end in
  let '(action, diff) :=
    _action_and_diff desired current (bool_decide (is_Some existing)) in
  let identifier := m_bay_name module +:+ ":" +:+ m_module_type_model module in
  mkProposal action "module" identifier desired current diff.

(** The sort key [(iface.type_slug != "lag", iface.name)]. *)
Definition iface_key (iface : NormalizedInterface) : bool * string :=
  (negb (String.eqb (i_type_slug iface) "lag"), i_name iface).

(** The order of the key tuples: [False] before [True], then the names. *)
Definition key_leb (k1 k2 : bool * string) : bool :=
  if Bool.eqb k1.1 k2.1 then String.leb k1.2 k2.2 else negb k1.1.

Definition iface_leb (a b : NormalizedInterface) : bool :=
  key_leb (iface_key a) (iface_key b).

(** The body of the loop of [_interfaces_proposals] for one interface. *)
Definition interface_proposal (existing_map : gmap string (list (string * pyval)))
    (iface : NormalizedInterface) : Proposal :=
  let desired : gmap string pyval := list_to_map [
    ("type", VStr (i_type_slug iface));
    ("enabled", VBool (i_enabled iface));
    ("description", of_ostr (i_description iface)) ] in
  let desired :=
    if ostr_truthy (i_lag iface)
    then <["lag" := of_ostr (i_lag iface)]> desired else desired in
  let existing := existing_map !! i_name iface in
  let current : option (gmap string pyval) :=
    match existing with
    | Some data =>
        if items_truthy data then
          let current : gmap string pyval := list_to_map [
            ("type", or_empty_get (items_get data "type") "value");
            ("enabled", items_get data "enabled");
            ("description", items_get data "description") ] in
          let lag := items_get data "lag" in
          Some (if truthy lag && truthy (or_empty_get lag "name")
                then <["lag" := or_empty_get lag "name"]> current
                else current)
        else None
    | None => None
    end in
  let '(action, diff) :=
    _action_and_diff desired current (bool_decide (is_Some existing)) in
  mkProposal action "interface" (i_name iface) desired current diff.

(** [ProposalEngine._interfaces_proposals] *)
Definition _interfaces_proposals (interfaces : list NormalizedInterface)
    (state : option DeviceState) : list Proposal :=
  let existing_map :=
    match state with Some st => st_interfaces st | None => ∅ end in
  let sorted_interfaces := py_sorted iface_leb interfaces in
  interface_proposal existing_map <$> sorted_interfaces.

(** The body of the loop of [_lag_proposals] for one LAG. *)
Definition lag_proposal (membership : gmap string (gset string))
    (interfaces : gmap string (list (string * pyval)))
    (lag : NormalizedLag) : Proposal :=
  let desired_members := sorted_names (list_to_set (l_members lag)) in
  let current_members :=
    sorted_names (default ∅ (membership !! l_name lag)) in
  let current : option (gmap string pyval) :=
    match current_members with
    | [] => None
    | _ => Some {[ "members" := of_strs current_members ]}
    end in
  let exists_ := bool_decide (is_Some (interfaces !! l_name lag)) in
  let '(action, diff) :=
    _action_and_diff {[ "members" := of_strs desired_members ]} current exists_ in
  mkProposal action "lag" (l_name lag)
    {[ "members" := of_strs desired_members ]} current diff.

(** [ProposalEngine._lag_proposals] *)
Definition _lag_proposals (lags : list NormalizedLag)
    (state : option DeviceState) : list Proposal :=
  match lags with
  | [] => []
  | _ =>
      let membership :=
        match state with Some st => st_lag_membership st | None => ∅ end in
      let interfaces :=
        match state with Some st => st_interfaces st | None => ∅ end in
      lag_proposal membership interfaces <$> lags
  end.

(** [ProposalEngine.build] *)
Definition build (nb : NetBox) (inventory : NormalizedInventory)
    : result ProposalBatch :=
  existing_device ← devices_get nb (d_name (device inventory));
  let state := _load_state nb <$> existing_device in
  let device_proposal := _device_proposal inventory existing_device in
  let module_bay_proposals :=
    (λ bay, _module_bay_proposal bay state) <$> module_bays inventory in
  let module_proposals :=
    (λ module, _module_proposal module state) <$> modules inventory in
  let interface_proposals :=
    _interfaces_proposals (interfaces inventory) state in
  let lag_proposals := _lag_proposals (lags inventory) state in
  Ok (mkBatch device_proposal module_bay_proposals module_proposals
        interface_proposals lag_proposals).

(** ** LAG membership reconciliation of the apply orchestrator *)

(** A partial update of one interface: [iface.update({"lag": lag})]. *)
Record lag_write : Type := mkWrite {
  w_interface : string;
  w_lag : option Z;
}.

(** The remote system together with the updates issued so far. *)
Record world : Type := mkWorld {
  remote : NetBox;
  issued : list lag_write;
}.

Definition issue_update (w : world) (iface : NbInterface) (lag : option Z)
    : world :=
  mkWorld (interface_set_lag (remote w) (if_id iface) lag)
          (issued w ++ [mkWrite (if_name iface) lag])%list.

(** [proposal.desired.get("members", [])] as a list of names. *)
Definition desired_members_of (proposal : Proposal) : list string :=
  match p_desired proposal !! "members" with
  | Some (VList l) => str_key <$> l
  | _ => []
  end.

(** The loop [for member in sorted(to_add)]: a missing interface raises
    and leaves the updates made so far in place. *)
Fixpoint add_members (w : world) (device_id lag_id : Z) (lag_name : string)
    (members : list string) : world * result unit :=
  match members with
  | [] => (w, Ok ())
  | member :: rest =>
      match interfaces_get (remote w) device_id member with
      | Raise msg => (w, Raise msg)
      | Ok None =>
          (w, Raise ("Interface '" +:+ member +:+
                     "' not found while adding to " +:+ lag_name))
      | Ok (Some iface) =>
          add_members (issue_update w iface (Some lag_id))
                      device_id lag_id lag_name rest
      end
  end.

(** The loop [for member in sorted(to_remove)]: a missing interface is
    skipped. *)
Fixpoint remove_members (w : world) (device_id : Z) (members : list string)
    : world * result unit :=
  match members with
  | [] => (w, Ok ())
  | member :: rest =>
      match interfaces_get (remote w) device_id member with
      | Raise msg => (w, Raise msg)
      | Ok None => remove_members w device_id rest
      | Ok (Some iface) =>
          remove_members (issue_update w iface None) device_id rest
      end
  end.

(** The names of the interfaces that point at the LAG [lag_id]. *)
Definition current_members_of (nb : NetBox) (device_id lag_id : Z) : gset string :=
  list_to_set (if_name <$> interfaces_filter_lag nb device_id lag_id).

(** The body of the loop of [_apply_lag_membership] for one proposal. *)
Definition apply_lag_proposal (w : world) (device_id : Z) (proposal : Proposal)
    : world * result unit :=
  if decide (p_action proposal = noop) then (w, Ok ())
  else
    let desired_members := desired_members_of proposal in
    let lag_name := p_identifier proposal in
    match interfaces_get (remote w) device_id lag_name with
    | Raise msg => (w, Raise msg)
    | Ok None =>
        (w, Raise ("LAG interface '" +:+ lag_name +:+
                   "' not found when setting membership"))
    | Ok (Some lag_iface) =>
        let lag_id := if_id lag_iface in
        let current_members := current_members_of (remote w) device_id lag_id in
        let desired_set : gset string := list_to_set desired_members in
        let to_add := desired_set ∖ current_members in
        let to_remove := current_members ∖ desired_set in
        match add_members w device_id lag_id lag_name (sorted_names to_add) with
        | (w', Raise msg) => (w', Raise msg)
        | (w', Ok _) => remove_members w' device_id (sorted_names to_remove)
        end
    end.

(** [NetboxDeviceBuilder._apply_lag_membership]: the first failure ends
    the pass. *)
Fixpoint _apply_lag_membership (w : world) (device_id : Z)
    (lag_proposals : list Proposal) : world * result unit :=
  match lag_proposals with
  | [] => (w, Ok ())
  | proposal :: rest =>
      match apply_lag_proposal w device_id proposal with
      | (w', Raise msg) => (w', Raise msg)
      | (w', Ok _) => _apply_lag_membership w' device_id rest
      end
  end.

(** ** Auxiliary notions for the proofs *)

(** A character outside [[a-z0-9]]. *)
Definition non_slug (c : ascii) : bool := negb (is_slug_char c).

(** One pass that squeezes every run of hyphens to one hyphen. *)
Fixpoint squeeze_from (in_run : bool) (s : string) : string :=
  match s with
  | EmptyString => EmptyString
  | String c s' =>
      if is_hyphen c
      then if in_run then squeeze_from true s'
           else String "-"%char (squeeze_from true s')
      else String c (squeeze_from false s')
  end.

(** The character that [slugify] writes for [ch]. *)
Definition alnum_or_hyphen (ch : ascii) : ascii :=
  if isalnum ch then ch else "-"%char.

(** [p] holds of every character of [s]. *)
Fixpoint str_forallb (p : ascii → bool) (s : string) : bool :=
  match s with
  | EmptyString => true
  | String c s' => p c && str_forallb p s'
  end.

(** [p] holds of some character of [s]. *)
Fixpoint str_existsb (p : ascii → bool) (s : string) : bool :=
  match s with
  | EmptyString => false
  | String c s' => p c || str_existsb p s'
  end.

(** A character of a slug: in [[a-z0-9]] or the hyphen. *)
Definition slug_or_hyphen (c : ascii) : bool := is_slug_char c || is_hyphen c.

(** A character that is alphanumeric is an ASCII one. *)
Definition alnum_is_ascii (c : ascii) : bool :=
  negb (isalnum c) || (code c <? 128)%N.

(** What the loops over the sources maintain: every entry is the module
    built from its key, the keys are pairwise distinct, non-empty in both
    parts and taken from the pairs seen so far, and every usable pair seen
    so far has its entry. *)
Definition entries_ok (seen : list (string * option string))
    (entries : module_entries_t) : Prop :=
  NoDup entries.*1
  ∧ (∀ key m, (key, m) ∈ entries →
       m = new_module key.1 key.2 ∧ key.1 ≠ "" ∧ key.2 ≠ ""
       ∧ (key.1, Some key.2) ∈ seen)
  ∧ (∀ bay model, (bay, Some model) ∈ seen → bay ≠ "" → model ≠ "" →
       ((bay, model), new_module bay model) ∈ entries).

(** The bay and model of a module. *)
Definition module_key (m : NormalizedModule) : string * string :=
  (m_bay_name m, m_module_type_model m).

(** The sort key that a proposal for an interface shows: whether its
    desired type is other than ["lag"], and its identifier. *)
Definition proposal_key (p : Proposal) : bool * string :=
  (negb (match p_desired p !! "type" with
         | Some (VStr t) => String.eqb t "lag"
         | _ => false
         end),
   p_identifier p).

(** What identifies an interface for [get]: its device and its name. *)
Definition iface_owner_name (i : NbInterface) : Z * string :=
  (if_device i, if_name i).

(** The constraints the remote system keeps on its interfaces:
    identifiers are unique, and so are names within a device. *)
Definition interfaces_wf (nb : NetBox) : Prop :=
  NoDup (if_id <$> nb_interfaces nb)
  ∧ NoDup (iface_owner_name <$> nb_interfaces nb).

(** The device [device_id] has an interface named [name]. *)
Definition has_interface (nb : NetBox) (device_id : Z) (name : string) : Prop :=
  ∃ i, i ∈ nb_interfaces nb ∧ if_device i = device_id ∧ if_name i = name.

(** Facts about single characters are checked on all 256 of them. *)
Ltac all_chars c :=
  destruct c as [[] [] [] [] [] [] [] []]; vm_compute; try reflexivity;
  try discriminate; auto.

(** ** Stand-ins for the runtime in the examples *)

(** [str.upper] on ASCII text. *)
Definition ascii_upper (s : string) : string :=
  str_map (λ c, if in_range 97 122 c then ascii_of_N (code c - 32) else c) s.

(** [str.format] on a template without replacement fields. *)
Definition format_plain {A : Type} (t : string) (args : A) : result string :=
  Ok t.

(** [str.format] with keyword arguments on a template that is the one
    replacement field of the first group, as in ["{site}".format(site=v)];
    other templates are returned as they are. *)
Definition format_one_field (t : string)
    (args : list (string * option string)) : result string :=
  match args with
  | (name, Some v) :: _ =>
      if String.eqb t ("{" +:+ name +:+ "}") then Ok v else Ok t
  | _ => Ok t
  end.

(** A compiled pattern with the named group [site] that matches every
    candidate and captures the empty string, the way a group of zero or
    more letters at the start does on a candidate that starts with a
    digit. *)
Definition match_empty_site (candidate : string) : option re_match :=
  Some (mkMatch [("site", Some "")] [Some ""]).

(** A compiled pattern that matches every candidate, without groups. *)
Definition match_any (candidate : string) : option re_match :=
  Some (mkMatch [] []).

(** A compiled pattern that matches no candidate. *)
Definition match_none (candidate : string) : option re_match := None.

(** ** The LAG example of the specification *)

(** Device 7 with the LAG interface ["LAG 1"] and the ports [p1], [p2]
    (both members of the LAG) and [p3] (no member). *)
Definition lag_example_remote : NetBox :=
  mkNetBox [] [] []
    [ mkNbInterface 10 7 "LAG 1" None [];
      mkNbInterface 1 7 "p1" (Some 10%Z) [];
      mkNbInterface 2 7 "p2" (Some 10%Z) [];
      mkNbInterface 3 7 "p3" None [] ].

(** The proposal that asks for the members [p2] and [p3]. *)
Definition lag_example_proposal : Proposal :=
  mkProposal update "lag" "LAG 1"
    {[ "members" := of_strs ["p2"; "p3"] ]}
    (Some {[ "members" := of_strs ["p1"; "p2"] ]})
    (Some {[ "members" := of_strs ["p2"; "p3"] ]}).

(** ** A remote state that matches an inventory *)

(** The remote record of the device holds the fields of the device. *)
Definition device_in_sync (device : NormalizedDevice) (record : NbDevice) : Prop :=
  let data := serialize_device record in
  py_eq (items_get data "name") (VStr (d_name device)) = true
  ∧ py_eq (or_empty_get (items_get data "status") "value")
          (VStr (d_status device)) = true
  ∧ py_eq (or_empty_get (items_get data "site") "slug")
          (VStr (d_site_slug device)) = true
  ∧ py_eq (or_empty_get (items_get data "role") "slug")
          (VStr (d_role_slug device)) = true
  ∧ py_eq (or_empty_get (items_get data "device_type") "slug")
          (VStr (d_device_type_slug device)) = true
  ∧ py_eq (or_empty_get
             (or_empty_get (items_get data "device_type") "manufacturer")
             "slug")
          (VStr (d_manufacturer_slug device)) = true
  ∧ py_eq (items_get data "serial") (of_ostr (d_serial device)) = true
  ∧ py_eq (items_get data "asset_tag") (of_ostr (d_asset_tag device)) = true
  ∧ py_eq (match items_get data "tags" with
           | VList tags => VList ((λ tag, or_empty_get tag "slug") <$> tags)
           | _ => VList []
           end)
          (of_strs (d_tags device)) = true
  ∧ py_eq (items_get data "custom_fields")
          (VDict (d_custom_fields device)) = true.

(** The snapshot holds the module bay with its fields. *)
Definition bay_in_sync (state : DeviceState) (bay : NormalizedModuleBay) : Prop :=
  ∃ data,
    st_module_bays state !! mb_name bay = Some data
    ∧ items_truthy data = true
    ∧ py_eq (items_get data "name") (VStr (mb_name bay)) = true
    ∧ py_eq (items_get data "label")
            (VStr (if ostr_truthy (mb_label bay)
                   then default "" (mb_label bay) else mb_name bay)) = true
    ∧ py_eq (items_get data "position") (of_ostr (mb_position bay)) = true.

(** The snapshot holds the module of the bay with its fields. *)
Definition module_in_sync (state : DeviceState) (module : NormalizedModule)
    : Prop :=
  ∃ data,
    st_modules state !! m_bay_name module = Some data
    ∧ items_truthy data = true
    ∧ py_eq (or_empty_get (items_get data "module_bay") "name")
            (VStr (m_bay_name module)) = true
    ∧ py_eq (or_empty_get (items_get data "module_type") "model")
            (VStr (m_module_type_model module)) = true
    ∧ py_eq (or_empty_get (items_get data "status") "value")
            (VStr (m_status module)) = true
    ∧ py_eq (items_get data "serial") (of_ostr (m_serial module)) = true.

(** The snapshot holds the interface with its fields, and with the LAG it
    belongs to when the inventory names one. *)
Definition interface_in_sync (state : DeviceState) (iface : NormalizedInterface)
    : Prop :=
  ∃ data,
    st_interfaces state !! i_name iface = Some data
    ∧ items_truthy data = true
    ∧ py_eq (or_empty_get (items_get data "type") "value")
            (VStr (i_type_slug iface)) = true
    ∧ py_eq (items_get data "enabled") (VBool (i_enabled iface)) = true
    ∧ py_eq (items_get data "description")
            (of_ostr (i_description iface)) = true
    ∧ (ostr_truthy (i_lag iface) = true →
       py_eq (or_empty_get (items_get data "lag") "name")
             (of_ostr (i_lag iface)) = true).

(** The snapshot holds the LAG interface, and the interfaces that point
    at it are the members of the inventory. *)
Definition lag_in_sync (state : DeviceState) (lag : NormalizedLag) : Prop :=
  is_Some (st_interfaces state !! l_name lag)
  ∧ default ∅ (st_lag_membership state !! l_name lag)
    = list_to_set (l_members lag).

(** The remote system matches the inventory: the device exists, and the
    snapshot loaded for it holds every entity of the inventory. *)
Definition in_sync (nb : NetBox) (inventory : NormalizedInventory) : Prop :=
  ∃ record,
    devices_get nb (d_name (device inventory)) = Ok (Some record)
    ∧ device_in_sync (device inventory) record
    ∧ Forall (bay_in_sync (_load_state nb record)) (module_bays inventory)
    ∧ Forall (module_in_sync (_load_state nb record)) (modules inventory)
    ∧ Forall (interface_in_sync (_load_state nb record)) (interfaces inventory)
    ∧ Forall (lag_in_sync (_load_state nb record)) (lags inventory).

(** The desired fields are all found, with equal values, in the current
    map. *)
Definition agrees (desired current : gmap string pyval) : Prop :=
  ∀ k v, desired !! k = Some v → py_eq (dict_get current k) v = true.

(** ** An inventory in step with the remote system *)

(** Device ["SIM-SROS-01"] with the LAG interface ["LAG 1"] that has no
    member yet, the LAG interface ["LAG 2"] and its member ["1/1/1"]. *)
Definition sync_inventory : NormalizedInventory :=
  mkInventory
    (mkDevice "SIM-SROS-01" "sim" "access-switch" "nokia" "nokia-7750-sr"
       "active" None None [] [])
    [mkBay "Card A" (Some "Card A") (Some "A")]
    [mkModule "Card A" "mda-imm-24" "active" None []]
    [ mkInterface "LAG 1" "lag" true None None None None [] None [];
      mkInterface "LAG 2" "lag" true None None None None [] None [];
      mkInterface "1/1/1" "other" true (Some "uplink") (Some "LAG 2")
        None None [] None [] ]
    [ mkLag "LAG 1" None [] true [];
      mkLag "LAG 2" None ["1/1/1"] true [] ].

(** The remote system holding that inventory, field by field. *)
Definition sync_remote : NetBox :=
  mkNetBox
    [ mkNbDevice 7 "SIM-SROS-01"
        [ ("status", VDict [("value", VStr "active")]);
          ("site", VDict [("slug", VStr "sim")]);
          ("role", VDict [("slug", VStr "access-switch")]);
          ("device_type",
             VDict [("slug", VStr "nokia-7750-sr");
                    ("manufacturer", VDict [("slug", VStr "nokia")])]);
          ("serial", VNone);
          ("asset_tag", VNone);
          ("tags", VList []);
          ("custom_fields", VDict []) ] ]
    [ mkNbBay 20 7 "Card A" [("label", VStr "Card A"); ("position", VStr "A")] ]
    [ mkNbModule 30 7
        [ ("module_bay", VDict [("name", VStr "Card A")]);
          ("module_type", VDict [("model", VStr "mda-imm-24")]);
          ("status", VDict [("value", VStr "active")]);
          ("serial", VNone) ] ]
    [ mkNbInterface 10 7 "LAG 1" None
        [ ("type", VDict [("value", VStr "lag")]);
          ("enabled", VBool true); ("description", VNone) ];
      mkNbInterface 11 7 "LAG 2" None
        [ ("type", VDict [("value", VStr "lag")]);
          ("enabled", VBool true); ("description", VNone) ];
      mkNbInterface 12 7 "1/1/1" (Some 11%Z)
        [ ("type", VDict [("value", VStr "other")]);
          ("enabled", VBool true); ("description", VStr "uplink") ] ].

(** The same inventory without the LAG that has no member. *)
Definition sync_inventory_with_members : NormalizedInventory :=
  mkInventory (device sync_inventory) (module_bays sync_inventory)
    (modules sync_inventory) (interfaces sync_inventory)
    [mkLag "LAG 2" None ["1/1/1"] true []].

(** What a batch plans: model, identifier and action of every proposal. *)
Definition plan_of (batch : ProposalBatch) : list (string * string * action) :=
  (λ p, (p_model p, p_identifier p, p_action p)) <$> actions batch.

(** ** What the engine promises of a proposal *)

(** A proposal is [noop] exactly when it carries no diff; a diff it
    carries is not empty and lies within the desired fields; the diff of a
    [create] holds the desired fields that are not null. *)
Definition proposal_wf (p : Proposal) : Prop :=
  (p_action p = noop ↔ p_diff p = None)
  ∧ (∀ diff, p_diff p = Some diff → diff ≠ ∅ ∧ diff ⊆ p_desired p)
  ∧ (p_action p = create → p_diff p = Some (non_null_fields (p_desired p))).


(** A proposal that creates its object from nothing: no current fields,
    and the desired fields that are not null as its diff. *)
Definition planned_create (p : Proposal) : Prop :=
  p_action p = create ∧ p_current p = None
  ∧ p_diff p = Some (non_null_fields (p_desired p)).

(** ** What the LAG pass leaves alone *)

(** All of an interface record but its LAG reference. *)
Definition iface_identity (i : NbInterface)
    : Z * Z * string * list (string * pyval) :=
  (if_id i, if_device i, if_name i, if_data i).

(** Two remote states that differ at most in the LAG references of their
    interfaces. *)
Definition same_but_lag (nb nb' : NetBox) : Prop :=
  nb_devices nb' = nb_devices nb
  ∧ nb_module_bays nb' = nb_module_bays nb
  ∧ nb_modules nb' = nb_modules nb
  ∧ iface_identity <$> nb_interfaces nb' = iface_identity <$> nb_interfaces nb.

(** From [w] to [w'] only LAG references have changed, the updates issued
    before are still the head of the log, and the interfaces of the devices
    other than [device_id] are what they were. *)
Definition lag_pass_frame (device_id : Z) (w w' : world) : Prop :=
  same_but_lag (remote w) (remote w')
  ∧ (∃ more, issued w' = (issued w ++ more)%list)
  ∧ (interfaces_wf (remote w) →
     ∀ i, i ∈ nb_interfaces (remote w) → if_device i ≠ device_id →
          i ∈ nb_interfaces (remote w')).

(** The names of the interfaces of the device whose LAG is the interface
    named [lag_name]; none when the device has no such interface. *)
Definition remote_lag_members (nb : NetBox) (device_id : Z) (lag_name : string)
    : gset string :=
  match interfaces_get nb device_id lag_name with
  | Ok (Some lag_iface) => current_members_of nb device_id (if_id lag_iface)
  | _ => ∅
  end.

(** The desired member sets of the proposals are pairwise disjoint. *)
Fixpoint disjoint_members (proposals : list Proposal) : Prop :=
  match proposals with
  | [] => True
  | p :: rest =>
      Forall (λ q, ∀ n, n ∈ desired_members_of p → n ∉ desired_members_of q) rest
      ∧ disjoint_members rest
  end.

(** What the LAG pass needs of the remote system for a proposal: the
    device has the LAG interface and the desired members, and a proposal
    left as [noop] has its desired members already. *)
Definition lag_ready (nb : NetBox) (device_id : Z) (p : Proposal) : Prop :=
  has_interface nb device_id (p_identifier p)
  ∧ (∀ m, m ∈ desired_members_of p → has_interface nb device_id m)
  ∧ (p_action p = noop →
     remote_lag_members nb device_id (p_identifier p)
     = list_to_set (desired_members_of p)).

(** The remote members of the LAG of a proposal are its desired ones. *)
Definition lag_settled (nb : NetBox) (device_id : Z) (p : Proposal) : Prop :=
  remote_lag_members nb device_id (p_identifier p)
  = list_to_set (desired_members_of p).

(** ** Interface types and the device type suffix ([config_loader.py]) *)

(** One entry of the list [matches] of the interface rules: what
    [matcher.get("pattern")] and [matcher.get("type")] return. *)
Record matcher : Type := mkMatcher {
  mt_pattern : option string;
  mt_type : option string;
}.

(** The dictionary [interface_rules] of the rules engine. A key that is
    absent is [None]; an absent list of matchers is the empty list. *)
Record InterfaceRules : Type := mkInterfaceRules {
  ir_lag_default : option string;
  ir_physical_default : option string;
  ir_matches : list matcher;
}.

(** The dictionary [device_type_suffix] of the rules engine. *)
Record DeviceTypeSuffix : Type := mkSuffix {
  dts_enabled : option bool;
  dts_value : option string;
}.

(** [RulesEngine.device_type_suffix_value] *)
Definition device_type_suffix_value (self : DeviceTypeSuffix) : string :=
  let enabled := default false (dts_enabled self) in
  if negb enabled then "" else default "" (dts_value self).

Section InterfaceType.

(** [re.search(pattern, name)] as a condition; it raises on a pattern
    that does not compile. *)
Variable re_search : string → string → result bool.

(** The loop of [interface_type] over the matchers: the type of the first
    matcher that has a pattern and a type and whose pattern is found in the
    name. [None] means the loop ran to its end. *)
Fixpoint first_matcher (matches : list matcher) (interface_name : string)
    : result (option string) :=
  match matches with
  | [] => Ok None
  | m :: rest =>
      if ostr_truthy (mt_pattern m) && ostr_truthy (mt_type m)
      then
        found ← re_search (default "" (mt_pattern m)) interface_name;
        if found : bool then Ok (mt_type m)
        else first_matcher rest interface_name
      else first_matcher rest interface_name
  end.

(** [RulesEngine.interface_type] *)
Definition interface_type (self : InterfaceRules) (interface_name : string)
    (is_lag : bool) : result string :=
  if is_lag then Ok (default "lag" (ir_lag_default self))
  else
    found ← first_matcher (ir_matches self) interface_name;
    match found with
    | Some iface_type => Ok iface_type
    | None => Ok (default "other" (ir_physical_default self))
    end.

End InterfaceType.

(** ** Suffixes of the device name and type ([netbox_devices_full.py]) *)

(** [s.endswith(suffix)] *)
Definition ends_with (s suffix : string) : bool :=
  let n := String.length s in
  let m := String.length suffix in
  (m <=? n) && String.eqb (substring (n - m) m s) suffix.

(** [NetboxDeviceBuilder._apply_suffixes], with the device name suffix of
    the settings and the suffix dictionary of the rules as arguments. *)
Definition _apply_suffixes (suffix : string) (type_rules : DeviceTypeSuffix)
    (inventory : NormalizedInventory) : NormalizedInventory :=
  let dev := device inventory in
  let device_name :=
    if str_truthy suffix && negb (ends_with (d_name dev) suffix)
    then d_name dev +:+ suffix else d_name dev in
  let type_suffix := device_type_suffix_value type_rules in
  let type_slug :=
    if str_truthy type_suffix && negb (ends_with (d_device_type_slug dev) type_suffix)
    then d_device_type_slug dev +:+ type_suffix else d_device_type_slug dev in
  if String.eqb device_name (d_name dev)
     && String.eqb type_slug (d_device_type_slug dev)
  then inventory
  else
    let updated_device :=
      mkDevice device_name (d_site_slug dev) (d_role_slug dev)
        (d_manufacturer_slug dev) type_slug (d_status dev) (d_serial dev)
        (d_asset_tag dev) (d_custom_fields dev) (d_tags dev) in
    mkInventory updated_device (module_bays inventory) (modules inventory)
      (interfaces inventory) (lags inventory).

(** [NetboxDeviceBuilder.plan] *)
Definition plan (nb : NetBox) (suffix : string) (type_rules : DeviceTypeSuffix)
    (inventory : NormalizedInventory)
    : result (ProposalBatch * NormalizedInventory) :=
  let resolved_inventory := _apply_suffixes suffix type_rules inventory in
  batch ← build nb resolved_inventory;
  Ok (batch, resolved_inventory).

(** ** The rest of the harvester ([netmiko_ssh_handler.py]) *)

(** [s.split()]: the maximal runs of characters that are not white space.
    [cur] is the run being read, if one has begun. *)
Fixpoint split_from (cur : option string) (s : string) : list string :=
  match s with
  | EmptyString => match cur with Some t => [t] | None => [] end
  | String c s' =>
      if isspace c
      then match cur with
           | Some t => t :: split_from None s'
           | None => split_from None s'
           end
      else split_from (Some (default "" cur +:+ String c "")) s'
  end.

Definition py_split (s : string) : list string := split_from None s.

(** [NetmikoDataCollector._bay_position]: [name.split()[-1]] raises on a
    name that has no word. *)
Definition _bay_position (name : string) : result (option string) :=
  if negb (str_truthy name) then Ok None
  else match last (py_split name) with
       | Some word => Ok (Some word)
       | None => Raise "IndexError: list index out of range"
       end.

(** The dictionary [lag_members], in the order of insertion of its keys. *)
Definition lag_members_t : Type := list (string * gset string).

(** [lag_members.setdefault(lag_name, set()).add(port)] *)
Fixpoint lag_members_add (lag_members : lag_members_t) (lag_name port : string)
    : lag_members_t :=
  match lag_members with
  | [] => [(lag_name, {[port]})]
  | (name, members) :: rest =>
      if String.eqb name lag_name then (name, members ∪ {[port]}) :: rest
      else (name, members) :: lag_members_add rest lag_name port
  end.

(** The loop over [regex_lag], the pairs (port, LAG number). *)
Definition collect_lag_members (regex_lag : list (string * string))
    : lag_members_t :=
  foldl (λ lag_members '(port, lag_id),
           lag_members_add lag_members ("LAG " +:+ lag_id) port)
        [] regex_lag.

(** [NetmikoDataCollector._find_lag_for_port] *)
Fixpoint _find_lag_for_port (port_name : string) (lag_members : lag_members_t)
    : option string :=
  match lag_members with
  | [] => None
  | (lag_name, members) :: rest =>
      if bool_decide (port_name ∈ members) then Some lag_name
      else _find_lag_for_port port_name rest
  end.

(** The dictionary [desc_map]: the stripped description of a port, [None]
    when it is blank; a later line of a port replaces an earlier one. *)
Definition collect_descriptions (ports_up : list (string * string))
    : gmap string (option string) :=
  foldl (λ desc_map '(port, desc),
           <[port := if str_truthy desc && str_truthy (strip desc)
                     then Some (strip desc) else None]> desc_map)
        ∅ ports_up.

(** [NormalizedInterface(name=..., type_slug=..., enabled=True,
    description=..., lag=...)]: the other fields take their defaults. *)
Definition new_interface (name type_slug : string)
    (description lag : option string) : NormalizedInterface :=
  mkInterface name type_slug true description lag None None [] None [].

Section Harvest.

Variable re_search : string → string → result bool.
Variable interface_rules : InterfaceRules.

(** The loop over [sorted(lag_members.keys())]. *)
Fixpoint lag_interfaces (lag_names : list string)
    : result (list NormalizedInterface) :=
  match lag_names with
  | [] => Ok []
  | lag_name :: rest =>
      type_slug ← interface_type re_search interface_rules lag_name true;
      more ← lag_interfaces rest;
      Ok (new_interface lag_name type_slug None None :: more)
  end.

(** The loop over [sorted(ports_seen)], which also updates [lag_members]. *)
Fixpoint port_interfaces (desc_map : gmap string (option string))
    (lag_members : lag_members_t) (ports : list string)
    : result (list NormalizedInterface * lag_members_t) :=
  match ports with
  | [] => Ok ([], lag_members)
  | port_name :: rest =>
      let lag_name := _find_lag_for_port port_name lag_members in
      type_slug ← interface_type re_search interface_rules port_name false;
      let iface :=
        new_interface port_name type_slug
          (default None (desc_map !! port_name)) lag_name in
      let lag_members :=
        if ostr_truthy lag_name
        then lag_members_add lag_members (default "" lag_name) port_name
        else lag_members in
      '(more, lag_members) ← port_interfaces desc_map lag_members rest;
      Ok (iface :: more, lag_members)
  end.

(** Lines 185-226 of [_harvest_nokia_sros]: the interfaces and the LAGs
    from the port descriptions and the LAG membership the regular
    expressions extracted. *)
Definition harvest_links (ports_up regex_lag : list (string * string))
    : result (list NormalizedInterface * list NormalizedLag) :=
  let desc_map := collect_descriptions ports_up in
  let lag_members := collect_lag_members regex_lag in
  lag_ifaces ← lag_interfaces (py_sorted String.leb lag_members.*1);
  let ports_seen : gset string :=
    dom desc_map ∪ ⋃ lag_members.*2 in
  '(port_ifaces, lag_members) ←
    port_interfaces desc_map lag_members (sorted_names ports_seen);
  let lags :=
    (λ '(lag_name, members), mkLag lag_name None (sorted_names members) true [])
      <$> py_sorted (λ a b, String.leb a.1 b.1) lag_members in
  Ok ((lag_ifaces ++ port_ifaces)%list, lags).

End Harvest.

(** The loop over [mda_matches], the pairs (slot, descriptor): the pair
    (bay name, model) of each. *)
Definition mda_module (slot descriptor : string) : string * string :=
  let bay_name := "MDA " +:+ slot in
  (bay_name, if str_truthy descriptor then descriptor else "mda-slot-" +:+ slot).

(** The comprehension that builds [module_bays]. *)
Fixpoint bays_of_names (names : list string) : result (list NormalizedModuleBay) :=
  match names with
  | [] => Ok []
  | name :: rest =>
      position ← _bay_position name;
      more ← bays_of_names rest;
      Ok (mkBay name (Some name) position :: more)
  end.

(** What the regular expressions extract from the command output. *)
Record Extracted : Type := mkExtracted {
  x_host_name : string;
  x_device_type_raw : string;
  x_serial_numbers : list string;
  x_mda_matches : list (string * string);
  x_card_names : list string;
  x_card_types : list string;
  x_module_bay_matches : list string;
  x_provisioned_type : list (option string);
  x_ports_up : list (string * string);
  x_regex_lag : list (string * string);
}.

Section HarvestSros.

Variable format_named : string → list (string * option string) → result string.
Variable format_positional : string → list (option string) → result string.
Variable upper : string → string.
Variable re_search : string → string → result bool.

(** [_harvest_nokia_sros] from line 119 on: the inventory built from what
    was extracted. *)
Definition harvest_inventory (rules : RulesEngine)
    (interface_rules : InterfaceRules) (x : Extracted)
    : result NormalizedInventory :=
  let host_name := x_host_name x in
  site ← site_slug format_named format_positional upper rules host_name;
  role ← role_slug format_named format_positional upper rules host_name;
  manufacturer ←
    manufacturer_slug format_named format_positional upper rules host_name;
  device_type ←
    device_type_slug format_named format_positional upper rules
      (x_device_type_raw x);
  let dev :=
    mkDevice host_name site role manufacturer device_type "active"
      (head (x_serial_numbers x)) None [] [] in
  let mda := (λ '(slot, descriptor), mda_module slot descriptor)
               <$> x_mda_matches x in
  let mda_bays := mda.*1 in
  let mda_modules := (λ '(bay_name, model), (bay_name, Some model)) <$> mda in
  let card_modules :=
    zip (x_card_names x) (Some <$> x_card_types x) in
  let module_pairs := zip (x_module_bay_matches x) (x_provisioned_type x) in
  let module_bay_names : gset string :=
    list_to_set module_pairs.*1 ∪ list_to_set card_modules.*1
    ∪ list_to_set mda_bays in
  bays ← bays_of_names (sorted_names module_bay_names);
  let mods := harvest_modules module_pairs card_modules mda_modules in
  '(ifaces, lag_list) ←
    harvest_links re_search interface_rules (x_ports_up x) (x_regex_lag x);
  Ok (mkInventory dev bays mods ifaces lag_list).

End HarvestSros.

(** The LAG [lag_name] of the dictionary holds the port. *)
Definition lag_has (lag_members : lag_members_t) (lag_name port : string) : Prop :=
  ∃ members, (lag_name, members) ∈ lag_members ∧ port ∈ members.

(** A matcher that [interface_type] passes over for the name: it lacks a
    pattern or a type, or its pattern is not found in the name. *)
Definition matcher_skipped (re_search : string → string → result bool)
    (name : string) (m : matcher) : Prop :=
  ostr_truthy (mt_pattern m) && ostr_truthy (mt_type m) = false
  ∨ re_search (default "" (mt_pattern m)) name = Ok false.

(** ** Lookups and payloads of the apply orchestrator
    ([netbox_devices_full.py]) *)

(** A module type of the remote system, with the identifier of its
    manufacturer when it has one. *)
Record NbModuleType : Type := mkNbModuleType {
  mty_id : Z;
  mty_model : string;
  mty_manufacturer : option Z;
}.

(** [NetboxDeviceBuilder._find_module_type] over the module types the
    remote system holds. [filter(model=model, limit=5)] yields the module
    types of that model ([limit] is the page size of the client, not a
    bound on the results); [manufacturer] is the identifier of the
    manufacturer record, if one was resolved. *)
Definition _find_module_type (module_types : list NbModuleType)
    (model : option string) (manufacturer : option Z) : result NbModuleType :=
  if negb (ostr_truthy model) then Raise "Module type model is required"
  else
    let candidates :=
      filter (λ c, mty_model c = default "" model) module_types in
    let candidates :=
      match manufacturer with
      | Some manufacturer_id =>
          filter (λ c, mty_manufacturer c = Some manufacturer_id) candidates
      | None => candidates
      end in
    match candidates with
    | [] => Raise ("Module type with model '" +:+ default "" model +:+
                   "' not found in NetBox")
    | first :: _ => Ok first
    end.

(** A site, a device role or a manufacturer of the remote system. *)
Record NbSlugged : Type := mkNbSlugged {
  sl_id : Z;
  sl_slug : string;
}.

(** A device type, with the slug of its manufacturer when it has one. *)
Record NbDeviceType : Type := mkNbDeviceType {
  dt_id : Z;
  dt_slug : string;
  dt_manufacturer : option string;
}.

(** The endpoints that [_resolve_device_dependencies] reads. *)
Record Catalog : Type := mkCatalog {
  nb_sites : list NbSlugged;
  nb_device_roles : list NbSlugged;
  nb_device_types : list NbDeviceType;
  nb_manufacturers : list NbSlugged;
}.

(** The dictionary that [_resolve_device_dependencies] returns. *)
Record Dependencies : Type := mkDependencies {
  dep_site : NbSlugged;
  dep_role : NbSlugged;
  dep_device_type : NbDeviceType;
  dep_manufacturer : option NbSlugged;
}.

(** [NetboxDeviceBuilder._resolve_device_dependencies] *)
Definition _resolve_device_dependencies (nb : Catalog) (dev : NormalizedDevice)
    : result Dependencies :=
  site ← get_one (filter (λ r, sl_slug r = d_site_slug dev) (nb_sites nb));
  match site with
  | None => Raise ("Site with slug '" +:+ d_site_slug dev +:+
                   "' not found in NetBox")
  | Some site =>
  role ← get_one (filter (λ r, sl_slug r = d_role_slug dev) (nb_device_roles nb));
  match role with
  | None => Raise ("Device role with slug '" +:+ d_role_slug dev +:+
                   "' not found in NetBox")
  | Some role =>
  device_type ← get_one (filter (λ r, dt_slug r = d_device_type_slug dev)
                                (nb_device_types nb));
  match device_type with
  | None => Raise ("Device type with slug '" +:+ d_device_type_slug dev +:+
                   "' not found in NetBox")
  | Some device_type =>
      let manufacturer_slug := d_manufacturer_slug dev in
      if str_truthy manufacturer_slug then
        manufacturer ← get_one (filter (λ r, sl_slug r = manufacturer_slug)
                                       (nb_manufacturers nb));
        match manufacturer with
        | None => Raise ("Manufacturer with slug '" +:+ manufacturer_slug +:+
                         "' not found in NetBox")
        | Some manufacturer =>
            match dt_manufacturer device_type with
            | Some slug =>
                if negb (String.eqb slug manufacturer_slug)
                then Raise "Configured manufacturer slug does not match the device type manufacturer"
                else Ok (mkDependencies site role device_type (Some manufacturer))
            | None =>
                Ok (mkDependencies site role device_type (Some manufacturer))
            end
        end
      else Ok (mkDependencies site role device_type None)
  end end end.

(** [if key in data: payload[key] = value] *)
Definition put_if_in (data : gmap string pyval) (key : string) (value : pyval)
    (payload : gmap string pyval) : gmap string pyval :=
  if bool_decide (is_Some (data !! key)) then <[key := value]> payload
  else payload.

(** [NetboxDeviceBuilder._build_device_payload] *)
Definition _build_device_payload (data : gmap string pyval)
    (dependencies : Dependencies) : gmap string pyval :=
  let payload := ∅ in
  let payload := put_if_in data "name" (dict_get data "name") payload in
  let payload := put_if_in data "status" (dict_get data "status") payload in
  let payload :=
    put_if_in data "site" (VInt (sl_id (dep_site dependencies))) payload in
  let payload :=
    put_if_in data "role" (VInt (sl_id (dep_role dependencies))) payload in
  let payload :=
    put_if_in data "device_type"
      (VInt (dt_id (dep_device_type dependencies))) payload in
  let payload := put_if_in data "serial" (dict_get data "serial") payload in
  let payload := put_if_in data "asset_tag" (dict_get data "asset_tag") payload in
  let payload := put_if_in data "tags" (dict_get data "tags") payload in
  put_if_in data "custom_fields" (dict_get data "custom_fields") payload.

(** What a step of the apply orchestrator sends to an endpoint: a
    [create] with a payload, an [update] of a record with a payload, or
    nothing. *)
Inductive api_write : Type :=
  | Create (payload : gmap string pyval)
  | Update (id : Z) (payload : gmap string pyval)
  | NoWrite.

(** [NetboxDeviceBuilder._apply_device], by the call it makes on the
    devices endpoint. *)
Definition _apply_device (nb : NetBox) (proposal : Proposal)
    (dependencies : Dependencies) : result api_write :=
  existing ← devices_get nb (p_identifier proposal);
  if decide (p_action proposal = create) then
    Ok (Create (_build_device_payload (p_desired proposal) dependencies))
  else
    match existing with
    | None => Raise ("Device '" +:+ p_identifier proposal +:+
                     "' expected to exist but was not found")
    | Some record =>
        if decide (p_action proposal = update) then
          let payload :=
            _build_device_payload (default ∅ (p_diff proposal)) dependencies in
          if dict_truthy payload then Ok (Update (dev_id record) payload)
          else Ok NoWrite
        else Ok NoWrite
    end.

(** [nb.dcim.module_bays.get(device_id=..., name=...)] *)
Definition module_bays_get (nb : NetBox) (device_id : Z) (name : string)
    : result (option NbModuleBay) :=
  get_one (filter (λ r, bay_device r = device_id ∧ bay_name r = name)
                  (nb_module_bays nb)).

(** [key in {"name", "label", "position"}] *)
Definition bay_key (key : string) : bool :=
  String.eqb key "name" || String.eqb key "label" || String.eqb key "position".

(** [NetboxDeviceBuilder._apply_module_bay], by the call it makes on the
    module bays endpoint. *)
Definition _apply_module_bay (nb : NetBox) (device_id : Z) (device_name : string)
    (proposal : Proposal) : result api_write :=
  existing ← module_bays_get nb device_id (p_identifier proposal);
  if decide (p_action proposal = create) then
    let create_payload : gmap string pyval :=
      filter (λ kv, bay_key kv.1 = true ∧ is_none kv.2 = false)
             (p_desired proposal) in
    Ok (Create (create_payload ∪ {[ "device" := VInt device_id ]}))
  else
    match existing with
    | None =>
        if decide (p_action proposal = noop) then Ok NoWrite
        else Raise ("Module bay '" +:+ p_identifier proposal +:+
                    "' not found for device " +:+ device_name)
    | Some record =>
        if decide (p_action proposal = update) then
          let diff := default ∅ (p_diff proposal) in
          let update_payload : gmap string pyval :=
            filter (λ kv, bay_key kv.1 = true) diff in
          if dict_truthy update_payload
          then Ok (Update (bay_id record) update_payload)
          else Ok NoWrite
        else Ok NoWrite
    end.

(** [NetboxDeviceBuilder._count_actions]: the number of proposals per
    action, the actions that do not occur left out. *)
Definition action_name (a : action) : string :=
  match a with create => "create" | update => "update" | noop => "noop" end.

Definition _count_actions (proposals : list Proposal) : gmap string nat :=
  let counts : gmap string nat :=
    <["noop" := 0]> (<["update" := 0]> (<["create" := 0]> ∅)) in
  let counts :=
    foldl (λ counts proposal,
             <[action_name (p_action proposal) :=
                 default 0 (counts !! action_name (p_action proposal)) + 1]>
               counts)
          counts proposals in
  filter (λ kv, kv.2 ≠ 0) counts.

(** A module type that [_find_module_type] accepts: of the model asked
    for, and of the manufacturer when one is given. *)
Definition module_type_matches (model : string) (manufacturer : option Z)
    (c : NbModuleType) : Prop :=
  mty_model c = model
  ∧ match manufacturer with
    | Some manufacturer_id => mty_manufacturer c = Some manufacturer_id
    | None => True
    end.

Global Instance module_type_matches_dec (model : string)
    (manufacturer : option Z) (c : NbModuleType) :
  Decision (module_type_matches model manufacturer c).
Proof. unfold module_type_matches. destruct manufacturer; apply _. Defined.

(** ** Examples for the apply pass and the harvester *)

(** Device 7 with the LAG interfaces ["LAG 1"] (members [p1], [p2]) and
    ["LAG 2"] (members [p3], [p4]). *)
Definition two_lag_remote : NetBox :=
  mkNetBox [] [] []
    [ mkNbInterface 10 7 "LAG 1" None [];
      mkNbInterface 11 7 "LAG 2" None [];
      mkNbInterface 1 7 "p1" (Some 10%Z) [];
      mkNbInterface 2 7 "p2" (Some 10%Z) [];
      mkNbInterface 3 7 "p3" (Some 11%Z) [];
      mkNbInterface 4 7 "p4" (Some 11%Z) [] ].

(** A proposal that asks for the members of a LAG. *)
Definition lag_update (name : string) (members : list string) : Proposal :=
  mkProposal update "lag" name {[ "members" := of_strs members ]} None
    (Some {[ "members" := of_strs members ]}).

(** The snapshot of [sync_remote] for the device of [sync_inventory]. *)
Definition sync_state : option DeviceState :=
  match devices_get sync_remote "SIM-SROS-01" with
  | Ok (Some record) => Some (_load_state sync_remote record)
  | _ => None
  end.

(** Resolved dependencies, and a device proposal whose diff touches the
    serial number and the manufacturer. *)
Definition example_dependencies : Dependencies :=
  mkDependencies (mkNbSlugged 1 "sim") (mkNbSlugged 2 "access-switch")
    (mkNbDeviceType 3 "nokia-7750-sr" (Some "nokia"))
    (Some (mkNbSlugged 4 "nokia")).

Definition example_device_update : Proposal :=
  mkProposal update "device" "SIM-SROS-01"
    {[ "serial" := VStr "NS1" ]} None
    (Some (<["serial" := VStr "NS1"]> {[ "manufacturer" := VStr "nokia" ]})).

(** Rules that classify every host alike, a search that finds nothing,
    and the output of a device with one card, one MDA, two ports and one
    LAG. *)
Definition example_rules : RulesEngine :=
  mkRules [mkRule match_any (Some "access-switch") None None]
          [mkRule match_any (Some "sim") None None]
          [mkRule match_any (Some "nokia") None None]
          [] ∅.

Definition search_nothing (pattern name : string) : result bool := Ok false.

Definition example_extracted : Extracted :=
  mkExtracted "SIM-SROS-01" "7750 SR-12" ["NS1234"]
    [("1", "m10-1gb-sfp")] ["Card A"] ["iom3-xp"] ["Card A"] [Some "iom3-xp"]
    [("1/1/1", "to core"); ("1/1/2", "to edge")] [("1/1/1", "1")].

(** Interface rules that configure a LAG type other than ["lag"]. *)
Definition virtual_lag_rules : InterfaceRules :=
  mkInterfaceRules (Some "virtual") None [].

(** The search raises on no pattern of the interface rules: whatever the
    name, it answers for the pattern of every matcher that has one. *)
Definition patterns_compile (re_search : string → string → result bool)
    (rules : InterfaceRules) : Prop :=
  Forall (λ m, ∀ pat name, mt_pattern m = Some pat →
                           ∃ found, re_search pat name = Ok found)
         (ir_matches rules).

(** A search that raises on the pattern ["("], which does not compile,
    and otherwise finds a pattern at the start of the name; and rules
    with one matcher. *)
Definition search_prefix (pattern name : string) : result bool :=
  if String.eqb pattern "("
  then Raise "re.error: missing ), unterminated subpattern at position 0"
  else Ok (String.prefix pattern name).

Definition port_rules : InterfaceRules :=
  mkInterfaceRules None None [mkMatcher (Some "1/1/") (Some "1000base-x-sfp")].

(** The three sources of modules of [_harvest_nokia_sros]: the pairs of
    bay names and provisioned types, of card names and card types, and of
    MDA bays and their models. *)
Definition module_pairs_of (x : Extracted) : list (string * option string) :=
  zip (x_module_bay_matches x) (x_provisioned_type x).

Definition card_modules_of (x : Extracted) : list (string * option string) :=
  zip (x_card_names x) (Some <$> x_card_types x).

Definition mda_modules_of (x : Extracted) : list (string * option string) :=
  (λ '(slot, descriptor),
     let '(bay_name, model) := mda_module slot descriptor in
     (bay_name, Some model)) <$> x_mda_matches x.

(** * Properties *)

(** ** Python values *)

(** Induction over values that reaches the elements of lists and the
    values of dictionaries. *)
Lemma pyval_nested_ind (P : pyval → Prop) :
  P VNone → (∀ b, P (VBool b)) → (∀ n, P (VInt n)) → (∀ s, P (VStr s)) →
  (∀ l, Forall P l → P (VList l)) →
  (∀ d, Forall (λ kv, P kv.2) d → P (VDict d)) →
  ∀ v, P v.
Proof.
  intros HN HB HI HS HL HD.
  fix IH 1. intros [ | b | n | s | l | d ].
  - exact HN.
  - apply HB.
  - apply HI.
  - apply HS.
  - apply HL. induction l as [|x l IHl]; constructor; [apply IH | exact IHl].
  - apply HD. induction d as [|[k x] d IHd]; constructor; [apply IH | exact IHd].
Qed.

Lemma all2_refl {A : Type} (eq : A → A → bool) (l : list A) :
  Forall (λ x, eq x x = true) l → all2 eq l l = true.
Proof.
  induction 1 as [|x l Hx _ IH]; simpl; [done|]. by rewrite Hx, IH.
Qed.

(** [v == v] holds for every value. *)
Lemma py_eq_refl (v : pyval) : py_eq v v = true.
Proof.
  induction v as [ | b | n | s | l IH | d IH ] using pyval_nested_ind; simpl.
  - done.
  - by destruct b.
  - apply Z.eqb_refl.
  - apply String.eqb_refl.
  - by apply all2_refl.
  - rewrite Nat.eqb_refl. simpl. apply forallb_forall. intros ku Hin.
    apply existsb_exists. exists ku. split; [done|].
    rewrite String.eqb_refl. simpl.
    rewrite Forall_forall in IH. apply IH. by apply list_elem_of_In.
Qed.

Lemma py_ne_refl (v : pyval) : py_ne v v = false.
Proof. unfold py_ne. by rewrite py_eq_refl. Qed.

(** ** The diff *)

Lemma dict_truthy_empty (m : gmap string pyval) :
  dict_truthy m = false ↔ m = ∅.
Proof.
  unfold dict_truthy. rewrite negb_false_iff. apply bool_decide_eq_true.
Qed.

(** The guard [if current] changes nothing: an empty map answers [None]
    to every [get]. *)
Lemma current_value_of_get (cur : gmap string pyval) (key : string) :
  current_value_of cur key = dict_get cur key.
Proof.
  unfold current_value_of. destruct (dict_truthy cur) eqn:E; [done|].
  apply dict_truthy_empty in E as ->. unfold dict_get. by rewrite lookup_empty.
Qed.

(** The loop of [_diff] is the restriction of the desired map to the
    fields whose current value is different. *)
Lemma _diff_loop_filter (desired cur : gmap string pyval) :
  _diff desired (Some cur) =
  filter (λ kv, py_ne (current_value_of cur kv.1) kv.2 = true) desired.
Proof. reflexivity. Qed.

Lemma _diff_lookup (desired cur : gmap string pyval) (k : string) (v : pyval) :
  _diff desired (Some cur) !! k = Some v ↔
  desired !! k = Some v ∧ py_ne (dict_get cur k) v = true.
Proof.
  rewrite _diff_loop_filter, map_lookup_filter_Some. simpl.
  by rewrite current_value_of_get.
Qed.

Lemma _diff_subseteq (desired : gmap string pyval)
    (current : option (gmap string pyval)) :
  _diff desired current ⊆ desired.
Proof.
  destruct current as [cur|].
  - rewrite _diff_loop_filter. apply map_filter_subseteq.
  - apply map_filter_subseteq.
Qed.

Lemma _diff_same (desired : gmap string pyval) :
  _diff desired (Some desired) = ∅.
Proof.
  apply map_eq. intros k. rewrite lookup_empty.
  destruct (_diff desired (Some desired) !! k) as [v|] eqn:E; [|done].
  apply _diff_lookup in E as [Hk Hne].
  unfold dict_get in Hne. rewrite Hk in Hne. simpl in Hne.
  by rewrite py_ne_refl in Hne.
Qed.

(** C2 (as amended). For every desired and current field map:
    the computed diff holds exactly the desired fields whose current value
    ([None] when the remote map lacks the field) is different; for an
    existing remote object the action is [update] with that diff when it is
    non-empty and [noop] with no diff otherwise; for a remote object that
    does not exist the action is [create] and the diff is the desired map
    restricted to its non-null fields, unless that restriction is empty, in
    which case the diff is the whole desired map; when desired equals
    current the diff is empty and the action is [noop]. Desired
    [{a:1, b:2}] against current [{a:1, b:3}] gives the diff [{b:2}] and
    the action [update]. *)
Theorem C2_diff_and_action_classification :
  ∀ (desired cur : gmap string pyval) (current : option (gmap string pyval)),
    (∀ k v, _diff desired (Some cur) !! k = Some v ↔
            desired !! k = Some v ∧ py_ne (dict_get cur k) v = true)
    ∧ _action_and_diff desired (Some cur) true =
        (if decide (_diff desired (Some cur) = ∅) then (noop, None)
         else (update, Some (_diff desired (Some cur))))
    ∧ _action_and_diff desired current false =
        (create, Some (if decide (non_null_fields desired = ∅) then desired
                       else non_null_fields desired))
    ∧ _diff desired (Some desired) = ∅
    ∧ _action_and_diff desired (Some desired) true = (noop, None)
    ∧ _action_and_diff
        (list_to_map [("a", VInt 1); ("b", VInt 2)])
        (Some (list_to_map [("a", VInt 1); ("b", VInt 3)])) true =
        (update, Some {[ "b" := VInt 2 ]}).
Proof.
  intros desired cur current. split_and!.
  - apply _diff_lookup.
  - unfold _action_and_diff. simpl. unfold dict_truthy.
    case_decide as E.
    + by rewrite bool_decide_eq_true_2.
    + by rewrite bool_decide_eq_false_2.
  - unfold _action_and_diff. simpl. unfold dict_truthy.
    case_decide as E.
    + by rewrite bool_decide_eq_true_2.
    + by rewrite bool_decide_eq_false_2.
  - apply _diff_same.
  - unfold _action_and_diff. rewrite _diff_same. done.
  - vm_compute. reflexivity.
Qed.

(** C2, counterexample. When every desired field is null and the remote
    object does not exist, the diff returned with [create] is the desired
    map itself, null field included, and not its (empty) restriction to
    the non-null fields. *)
Lemma C2_create_diff_keeps_null_fields :
  _action_and_diff {[ "a" := VNone ]} None false = (create, Some {[ "a" := VNone ]})
  ∧ non_null_fields {[ "a" := VNone ]} = ∅
  ∧ ({[ "a" := VNone ]} : gmap string pyval) ≠ non_null_fields {[ "a" := VNone ]}.
Proof.
  assert (H : non_null_fields {[ "a" := VNone ]} = ∅).
  { unfold non_null_fields. by rewrite map_filter_singleton_False. }
  split_and!.
  - unfold _action_and_diff. simpl. fold (non_null_fields {[ "a" := VNone ]}).
    rewrite H. done.
  - exact H.
  - rewrite H. intros E. apply (f_equal (lookup "a")) in E.
    by rewrite lookup_singleton_eq, lookup_empty in E.
Qed.

(** C8. Every field of a computed diff is a field of the desired map with
    the desired value, for the diff itself and for the diff returned with
    the action; a field the desired map does not mention is in no diff,
    whatever the current map holds for it. *)
Theorem C8_diff_within_desired :
  ∀ (desired : gmap string pyval) (current : option (gmap string pyval))
    (exists_ : bool),
    _diff desired current ⊆ desired
    ∧ dom (_diff desired current) ⊆ dom desired
    ∧ (∀ k, desired !! k = None → _diff desired current !! k = None)
    ∧ (∀ d, (_action_and_diff desired current exists_).2 = Some d →
            d ⊆ desired ∧ ∀ k, desired !! k = None → d !! k = None).
Proof.
  intros desired current exists_.
  assert (Hsub : ∀ c, _diff desired c ⊆ desired) by (intros; apply _diff_subseteq).
  assert (Hnone : ∀ (d : gmap string pyval) k,
             d ⊆ desired → desired !! k = None → d !! k = None).
  { intros d k Hd Hk. eapply lookup_weaken_None; eauto. }
  split_and!.
  - apply Hsub.
  - apply subseteq_dom, Hsub.
  - intros k. apply Hnone, Hsub.
  - intros d. unfold _action_and_diff.
    destruct exists_; cbn [negb snd].
    + destruct (dict_truthy (_diff desired current)); cbn [snd]; [|done].
      intros [= <-]. split; [apply Hsub | intros k; apply Hnone, Hsub].
    + intros [= <-]. pose proof (Hsub None) as Hs.
      change (_diff desired None) with (non_null_fields desired) in *.
      destruct (dict_truthy (non_null_fields desired)).
      * split; [exact Hs | intros k; by apply Hnone].
      * split; [done | auto].
Qed.

(** ** Strings *)

#[local] Arguments is_slug_char : simpl never.
#[local] Arguments is_hyphen : simpl never.
#[local] Arguments isspace : simpl never.
#[local] Arguments isalnum : simpl never.
#[local] Arguments lower_char : simpl never.
#[local] Arguments non_slug : simpl never.

Section Strip.
Context (p q : ascii → bool).
Hypothesis p_q : ∀ c, p c = true → q c = true.

Lemma lstrip_by_absorb (s : string) :
  lstrip_by q (lstrip_by p s) = lstrip_by q s.
Proof.
  induction s as [|c s IH]; simpl; [done|].
  destruct (p c) eqn:Hp.
  - by rewrite (p_q _ Hp).
  - done.
Qed.

Lemma rstrip_by_absorb (s : string) :
  rstrip_by q (rstrip_by p s) = rstrip_by q s.
Proof.
  induction s as [|c s IH]; simpl; [done|].
  destruct (rstrip_by p s) as [|c' r] eqn:Hr.
  - simpl in IH. rewrite <- IH.
    destruct (p c) eqn:Hp; simpl; [by rewrite (p_q _ Hp)|done].
  - change (rstrip_by q (String c (String c' r))) with
      (match rstrip_by q (String c' r) with
       | EmptyString => if q c then EmptyString else String c EmptyString
       | r' => String c r'
       end).
    by rewrite IH.
Qed.

Lemma strip_by_rstrip_absorb (s : string) :
  strip_by q (rstrip_by p s) = strip_by q s.
Proof.
  unfold strip_by. induction s as [|c s IH]; [done|].
  destruct (q c) eqn:Hq.
  - change (lstrip_by q (String c s)) with
      (if q c then lstrip_by q s else String c s).
    rewrite Hq, <- IH. simpl.
    destruct (rstrip_by p s) as [|c' r]; simpl.
    + destruct (p c); simpl; [done|by rewrite Hq].
    + by rewrite Hq.
  - assert (Hp : p c = false).
    { destruct (p c) eqn:Hp; [|done]. by rewrite (p_q _ Hp) in Hq. }
    assert (E : rstrip_by p (String c s) = String c (rstrip_by p s)).
    { simpl. rewrite Hp. by destruct (rstrip_by p s). }
    rewrite E. simpl. rewrite Hq. simpl. by rewrite rstrip_by_absorb.
Qed.

Lemma strip_by_absorb (s : string) :
  strip_by q (strip_by p s) = strip_by q s.
Proof.
  unfold strip_by at 2. rewrite strip_by_rstrip_absorb.
  unfold strip_by. by rewrite lstrip_by_absorb.
Qed.

End Strip.

Lemma rstrip_by_cons (p : ascii → bool) (c : ascii) (s : string) :
  rstrip_by p (String c s) =
  match rstrip_by p s with
  | EmptyString => if p c then EmptyString else String c EmptyString
  | r => String c r
  end.
Proof. reflexivity. Qed.

Section StripMap.
Context (p : ascii → bool) (f : ascii → ascii).
Hypothesis p_f : ∀ c, p (f c) = p c.

Lemma lstrip_by_map (s : string) :
  lstrip_by p (str_map f s) = str_map f (lstrip_by p s).
Proof.
  induction s as [|c s IH]; simpl; [done|]. rewrite p_f. by destruct (p c).
Qed.

Lemma rstrip_by_map (s : string) :
  rstrip_by p (str_map f s) = str_map f (rstrip_by p s).
Proof.
  induction s as [|c s IH]; simpl; [done|]. rewrite IH, p_f.
  destruct (rstrip_by p s); simpl; [by destruct (p c)|done].
Qed.

Lemma strip_by_map (s : string) :
  strip_by p (str_map f s) = str_map f (strip_by p s).
Proof. unfold strip_by. by rewrite lstrip_by_map, rstrip_by_map. Qed.

End StripMap.

Lemma isspace_lower_char (c : ascii) : isspace (lower_char c) = isspace c.
Proof. all_chars c. Qed.

Lemma isspace_non_slug (c : ascii) : isspace c = true → non_slug c = true.
Proof. all_chars c. Qed.

Lemma slug_not_hyphen (c : ascii) : is_slug_char c = true → is_hyphen c = false.
Proof. all_chars c. Qed.

Lemma hyphen_is_hyphen : is_hyphen "-"%char = true.
Proof. reflexivity. Qed.

Lemma lower_strip (s : string) : lower (strip s) = strip (lower s).
Proof.
  unfold lower, strip. symmetry. apply strip_by_map, isspace_lower_char.
Qed.

(** *** The substitution of runs and the stripping of hyphens *)

Lemma sub_runs_from_nonempty (b : bool) (s : string) :
  str_existsb is_slug_char s = true → sub_runs_from b s ≠ EmptyString.
Proof.
  revert b. induction s as [|c s IH]; intros b; simpl; [done|].
  destruct (is_slug_char c); simpl; [done|].
  intros H. destruct b; [by apply IH|done].
Qed.

Lemma rstrip_non_slug_has_slug (s : string) :
  rstrip_by non_slug s = EmptyString ∨
  str_existsb is_slug_char (rstrip_by non_slug s) = true.
Proof.
  induction s as [|c s IH]; [by left|]. rewrite rstrip_by_cons.
  destruct (rstrip_by non_slug s) as [|c' r] eqn:Hr.
  - assert (Hn : non_slug c = negb (is_slug_char c)) by done. rewrite Hn.
    destruct (is_slug_char c) eqn:Hc; simpl; [|by left].
    right. by rewrite Hc.
  - right. destruct IH as [IH|IH]; [done|].
    change (is_slug_char c || str_existsb is_slug_char (String c' r) = true).
    rewrite IH. apply orb_true_r.
Qed.

(** Stripping the leading hyphens of the substituted string is
    substituting the string without its leading run. *)
Lemma lstrip_sub_runs_from (b : bool) (s : string) :
  lstrip_by is_hyphen (sub_runs_from b s) =
  sub_runs_from false (lstrip_by non_slug s).
Proof.
  revert b. induction s as [|c s IH]; intros b; [done|].
  simpl. assert (Hn : non_slug c = negb (is_slug_char c)) by done. rewrite Hn.
  destruct (is_slug_char c) eqn:Hc; simpl.
  - by rewrite (slug_not_hyphen _ Hc), Hc.
  - destruct b; simpl; try rewrite hyphen_is_hyphen; apply IH.
Qed.

Lemma sub_runs_from_cons (b : bool) (c : ascii) (s : string) :
  sub_runs_from b (String c s) =
  if is_slug_char c then String c (sub_runs_from false s)
  else if b then sub_runs_from true s
  else String "-"%char (sub_runs_from true s).
Proof. reflexivity. Qed.

(** The same at the right end. *)
Lemma rstrip_sub_runs_from (b : bool) (s : string) :
  rstrip_by is_hyphen (sub_runs_from b s) =
  sub_runs_from b (rstrip_by non_slug s).
Proof.
  revert b. induction s as [|c s IH]; intros b; [done|].
  rewrite (rstrip_by_cons non_slug).
  pose proof (rstrip_non_slug_has_slug s) as Hs.
  assert (Hn : non_slug c = negb (is_slug_char c)) by done.
  rewrite Hn. clear Hn.
  simpl (sub_runs_from b (String c s)).
  destruct (rstrip_by non_slug s) as [|c' r] eqn:Hr.
  - destruct (is_slug_char c) eqn:Hc; simpl negb; cbv iota.
    + rewrite rstrip_by_cons, IH, (slug_not_hyphen _ Hc). simpl. by rewrite Hc.
    + destruct b.
      * by rewrite IH.
      * by rewrite rstrip_by_cons, IH, hyphen_is_hyphen.
  - destruct Hs as [Hs|Hs]; [done|].
    destruct (is_slug_char c) eqn:Hc; simpl negb; cbv iota.
    + pose proof (sub_runs_from_nonempty false _ Hs) as Hne.
      rewrite rstrip_by_cons, IH.
      rewrite (sub_runs_from_cons b c (String c' r)), Hc.
      by destruct (sub_runs_from false (String c' r)).
    + destruct b.
      * rewrite IH.
        by rewrite (sub_runs_from_cons true c (String c' r)), Hc.
      * pose proof (sub_runs_from_nonempty true _ Hs) as Hne.
        rewrite rstrip_by_cons, IH.
        rewrite (sub_runs_from_cons false c (String c' r)), Hc.
        by destruct (sub_runs_from true (String c' r)).
Qed.

(** Substituting and then stripping hyphens is stripping the characters
    outside the class and then substituting. *)
Lemma strip_hyphens_sub_runs (s : string) :
  strip_hyphens (sub_runs s) = sub_runs (strip_by non_slug s).
Proof.
  unfold strip_hyphens, sub_runs, strip_by.
  by rewrite lstrip_sub_runs_from, rstrip_sub_runs_from.
Qed.

(** The [strip()] that [_slugify] starts with changes nothing: the code
    computes the slugification that the specification words. *)
Lemma _slugify_spec (raw : string) : _slugify raw = spec_slugify raw.
Proof.
  unfold _slugify, spec_slugify.
  rewrite !strip_hyphens_sub_runs, lower_strip. unfold strip.
  by rewrite (strip_by_absorb isspace non_slug isspace_non_slug).
Qed.

(** *** The collapsing loop of [slugify] *)

Lemma replace_double_hyphen_cons2 (c c' : ascii) (s : string) :
  replace_double_hyphen (String c (String c' s)) =
  if is_hyphen c && is_hyphen c'
  then String "-"%char (replace_double_hyphen s)
  else String c (replace_double_hyphen (String c' s)).
Proof. reflexivity. Qed.

Lemma has_double_hyphen_cons2 (c c' : ascii) (s : string) :
  has_double_hyphen (String c (String c' s)) =
  (is_hyphen c && is_hyphen c') || has_double_hyphen (String c' s).
Proof. reflexivity. Qed.

Lemma squeeze_from_cons (b : bool) (c : ascii) (s : string) :
  squeeze_from b (String c s) =
  if is_hyphen c
  then if b then squeeze_from true s else String "-"%char (squeeze_from true s)
  else String c (squeeze_from false s).
Proof. reflexivity. Qed.

Lemma is_hyphen_eq (c : ascii) : is_hyphen c = true → c = "-"%char.
Proof. unfold is_hyphen. apply Ascii.eqb_eq. Qed.

(** An induction that offers the hypothesis for every shorter string. *)
Lemma string_length_ind (P : string → Prop) :
  (∀ s, (∀ t, (String.length t < String.length s)%nat → P t) → P s) → ∀ s, P s.
Proof.
  intros H s. remember (String.length s) as n eqn:Hn.
  revert s Hn. induction n as [n IH] using lt_wf_ind. intros s ->.
  apply H. intros t Ht. by apply (IH (String.length t)).
Qed.

(** One replacement pass never lengthens the string, and shortens it when
    it holds a double hyphen: the loop ends. *)
Lemma replace_double_hyphen_length (s : string) :
  (String.length (replace_double_hyphen s) ≤ String.length s)%nat ∧
  (has_double_hyphen s = true →
   (String.length (replace_double_hyphen s) < String.length s)%nat).
Proof.
  induction s as [s IH] using string_length_ind.
  destruct s as [|c [|c' s]]; [simpl; split; [lia|done]..|].
  rewrite replace_double_hyphen_cons2, has_double_hyphen_cons2.
  destruct (is_hyphen c && is_hyphen c') eqn:E.
  - destruct (IH s) as [H1 _]; [simpl; lia|]. simpl. split; [lia|]. intros _. lia.
  - destruct (IH (String c' s)) as [H1 H2]; [simpl; lia|].
    simpl orb. change (String.length (String c ?x)) with (S (String.length x)).
    split; [lia|]. intros H. apply H2 in H. lia.
Qed.

(** A replacement pass does not change what squeezing gives. *)
Lemma squeeze_replace_double_hyphen (b : bool) (s : string) :
  squeeze_from b (replace_double_hyphen s) = squeeze_from b s.
Proof.
  revert b. induction s as [s IH] using string_length_ind. intros b.
  destruct s as [|c [|c' s]]; [done..|].
  rewrite replace_double_hyphen_cons2.
  destruct (is_hyphen c) eqn:Hc, (is_hyphen c') eqn:Hc'; simpl andb; cbv iota.
  - rewrite !squeeze_from_cons, hyphen_is_hyphen, Hc, Hc'.
    rewrite IH by (simpl; lia). by destruct b.
  - rewrite (squeeze_from_cons b c), (squeeze_from_cons b c (String c' s)), Hc.
    rewrite IH by (simpl; lia). done.
  - rewrite (squeeze_from_cons b c), (squeeze_from_cons b c (String c' s)), Hc.
    rewrite IH by (simpl; lia). done.
  - rewrite (squeeze_from_cons b c), (squeeze_from_cons b c (String c' s)), Hc.
    rewrite IH by (simpl; lia). done.
Qed.

(** Without a double hyphen there is nothing to squeeze. *)
Lemma squeeze_no_double_hyphen (s : string) :
  has_double_hyphen s = false →
  squeeze_from false s = s ∧
  (match s with
   | EmptyString => True
   | String c _ => is_hyphen c = false → squeeze_from true s = s
   end).
Proof.
  induction s as [|c s IH]; [done|].
  destruct s as [|c' s].
  - intros _. rewrite !squeeze_from_cons. destruct (is_hyphen c) eqn:Hc.
    + apply is_hyphen_eq in Hc as ->. done.
    + done.
  - rewrite has_double_hyphen_cons2. intros H.
    apply orb_false_iff in H as [H1 H2]. destruct (IH H2) as [IH1 IH2].
    rewrite !(squeeze_from_cons _ c). destruct (is_hyphen c) eqn:Hc.
    + simpl in H1. apply is_hyphen_eq in Hc as ->.
      rewrite (IH2 H1). done.
    + rewrite IH1. done.
Qed.

(** With enough fuel the loop leaves by its condition, and what it returns
    is the squeezed string. *)
Lemma collapse_loop_exits (fuel : nat) (s : string) :
  (String.length s ≤ fuel)%nat →
  has_double_hyphen (collapse_loop fuel s) = false ∧
  collapse_loop fuel s = squeeze_from false s.
Proof.
  revert s. induction fuel as [|fuel IH]; intros s Hlen.
  - destruct s; [done|simpl in Hlen; lia].
  - simpl. destruct (has_double_hyphen s) eqn:E.
    + destruct (replace_double_hyphen_length s) as [_ Hlt].
      destruct (IH (replace_double_hyphen s)) as [H1 H2]; [specialize (Hlt E); lia|].
      split; [done|]. by rewrite H2, squeeze_replace_double_hyphen.
    + split; [done|]. symmetry. by apply squeeze_no_double_hyphen.
Qed.

Lemma collapse_hyphens_squeeze (s : string) :
  collapse_hyphens s = squeeze_from false s.
Proof. unfold collapse_hyphens. by apply collapse_loop_exits. Qed.

Lemma collapse_hyphens_done (s : string) :
  has_double_hyphen (collapse_hyphens s) = false.
Proof. unfold collapse_hyphens. by apply collapse_loop_exits. Qed.

(** *** Where the two slugifications meet *)

Lemma str_forallb_lstrip (p q : ascii → bool) (s : string) :
  str_forallb p s = true → str_forallb p (lstrip_by q s) = true.
Proof.
  induction s as [|c s IH]; [done|]. simpl. intros [H1 H2]%andb_true_iff.
  destruct (q c); [by apply IH|]. simpl. by rewrite H1, H2.
Qed.

Lemma str_forallb_rstrip (p q : ascii → bool) (s : string) :
  str_forallb p s = true → str_forallb p (rstrip_by q s) = true.
Proof.
  induction s as [|c s IH]; [done|]. simpl. intros [H1 H2]%andb_true_iff.
  specialize (IH H2). destruct (rstrip_by q s) as [|c' r].
  - destruct (q c); [done|]. simpl. by rewrite H1.
  - change (p c && str_forallb p (String c' r) = true). by rewrite H1, IH.
Qed.

Lemma str_forallb_map (p p' : ascii → bool) (f : ascii → ascii) (s : string) :
  (∀ c, p c = true → p' (f c) = true) →
  str_forallb p s = true → str_forallb p' (str_map f s) = true.
Proof.
  intros Hf. induction s as [|c s IH]; [done|]. simpl.
  intros [H1 H2]%andb_true_iff. by rewrite (Hf _ H1), IH.
Qed.

Lemma alnum_is_ascii_lower (c : ascii) :
  alnum_is_ascii c = true →
  Bool.eqb (isalnum (lower_char c)) (is_slug_char (lower_char c)) = true.
Proof. all_chars c. Qed.

Lemma alnum_or_hyphen_slug (c : ascii) :
  Bool.eqb (isalnum c) (is_slug_char c) = true →
  (is_slug_char c = true → alnum_or_hyphen c = c) ∧
  (is_slug_char c = false → alnum_or_hyphen c = "-"%char).
Proof.
  destruct c as [[] [] [] [] [] [] [] []]; vm_compute; intros H;
    try discriminate H; split; intros H'; try discriminate H'; reflexivity.
Qed.

(** On a string whose alphanumeric characters are all in [[a-z0-9]],
    substituting the runs is writing hyphens and squeezing them. *)
Lemma sub_runs_from_squeeze (b : bool) (s : string) :
  str_forallb (λ c, Bool.eqb (isalnum c) (is_slug_char c)) s = true →
  sub_runs_from b s = squeeze_from b (str_map alnum_or_hyphen s).
Proof.
  revert b. induction s as [|c s IH]; intros b; [done|].
  simpl str_forallb. intros [H1 H2]%andb_true_iff.
  simpl str_map. rewrite sub_runs_from_cons, squeeze_from_cons.
  destruct (alnum_or_hyphen_slug c H1) as [Hs Hn].
  destruct (is_slug_char c) eqn:Hc.
  - rewrite (Hs eq_refl), (slug_not_hyphen _ Hc). by rewrite IH.
  - rewrite (Hn eq_refl), hyphen_is_hyphen. by rewrite IH.
Qed.

(** The two slugifications agree on every string whose alphanumeric
    characters are ASCII. *)
Lemma slugify_agree (s : string) :
  str_forallb alnum_is_ascii s = true → slugify s = _slugify s.
Proof.
  intros H. unfold slugify, _slugify.
  change (str_map (λ ch, if isalnum ch then ch else "-"%char))
    with (str_map alnum_or_hyphen).
  rewrite collapse_hyphens_squeeze. unfold sub_runs.
  rewrite sub_runs_from_squeeze; [done|].
  unfold lower. eapply str_forallb_map; [apply alnum_is_ascii_lower|].
  unfold strip, strip_by. by apply str_forallb_rstrip, str_forallb_lstrip.
Qed.

(** ** The classifier *)

Section ClassifierProperties.
Variable format_named : string → list (string * option string) → result string.
Variable format_positional : string → list (option string) → result string.
Variable upper : string → string.

Abbreviation rule_apply := (RegexRule_apply format_named format_positional upper).
Abbreviation rule_value := (first_rule_value format_named format_positional upper).
Abbreviation apply_rules := (_apply_rules format_named format_positional upper).

(** A rule whose pattern does not match has no result. *)
Lemma RegexRule_apply_no_match (rule : RegexRule) (candidate : string) :
  pattern rule candidate = None → rule_apply rule candidate = Ok None.
Proof. intros H. unfold RegexRule_apply. by rewrite H. Qed.

(** Rules without a true result are passed over. *)
Lemma first_rule_value_skip (before rest : list RegexRule) (candidate : string) :
  Forall (λ r, ∃ o, rule_apply r candidate = Ok o ∧ ostr_truthy o = false) before →
  rule_value (before ++ rest) candidate = rule_value rest candidate.
Proof.
  induction 1 as [|r before (o & Ho & Hf) _ IH]; [done|].
  simpl. rewrite Ho. simpl. by rewrite Hf.
Qed.

Lemma first_rule_value_none (rules : list RegexRule) (candidate : string) :
  Forall (λ r, ∃ o, rule_apply r candidate = Ok o ∧ ostr_truthy o = false) rules →
  rule_value rules candidate = Ok None.
Proof.
  intros H. rewrite <- (app_nil_r rules). by rewrite first_rule_value_skip.
Qed.

Lemma first_rule_value_hit (rule : RegexRule) (rest : list RegexRule)
    (candidate v : string) :
  rule_apply rule candidate = Ok (Some v) → v ≠ "" →
  rule_value (rule :: rest) candidate = Ok (Some v).
Proof.
  intros Hv Hne. simpl. rewrite Hv. simpl. unfold str_truthy.
  by destruct (String.eqb_spec v "").
Qed.

Lemma no_match_no_result (rules : list RegexRule) (candidate : string) :
  Forall (λ r, pattern r candidate = None) rules →
  Forall (λ r, ∃ o, rule_apply r candidate = Ok o ∧ ostr_truthy o = false) rules.
Proof.
  intros Hno. eapply Forall_impl; [exact Hno|]. intros r H. exists None.
  split; [by apply RegexRule_apply_no_match|done].
Qed.

(** C4 (as amended). For every candidate and ordered rule list, the
    classification returns the result of the first rule in declaration
    order whose result is a non-empty string: the rules before it, which
    do not match or derive nothing or the empty string, are passed over,
    and the rules after it are not consulted, whatever they would derive.
    This holds for role/site/manufacturer classification and for
    device-type classification alike. *)
Theorem C4_first_nonempty_result_wins :
  ∀ (self : RulesEngine) (candidate key : string)
    (before after : list RegexRule) (rule : RegexRule) (v : string),
    Forall (λ r, ∃ o, rule_apply r candidate = Ok o ∧ ostr_truthy o = false)
           before →
    rule_apply rule candidate = Ok (Some v) →
    v ≠ "" →
    apply_rules self candidate (before ++ rule :: after) key = Ok v
    ∧ (device_type_rules self = before ++ rule :: after →
       device_type_slug format_named format_positional upper self candidate = Ok v).
Proof.
  intros self candidate key before after rule v Hbefore Hv Hne.
  assert (E : rule_value (before ++ rule :: after) candidate = Ok (Some v)).
  { rewrite first_rule_value_skip by done. by apply first_rule_value_hit. }
  split.
  - unfold _apply_rules. by rewrite E.
  - intros Hrules. unfold device_type_slug. by rewrite Hrules, E.
Qed.

(** C6. When no rule of the list matches the candidate, the classification
    returns the configured default (a non-empty string under the category's
    key), and without one (no entry, [None], or the empty string) it raises
    the error whose message names the category; a value it returns is the
    default, never the value of a rule. *)
Theorem C6_default_or_classification_error :
  ∀ (self : RulesEngine) (candidate key : string) (rules : list RegexRule),
    Forall (λ r, pattern r candidate = None) rules →
    (∀ d, defaults_get self key = Some d → d ≠ "" →
          apply_rules self candidate rules key = Ok d)
    ∧ (defaults_get self key = None ∨ defaults_get self key = Some "" →
       apply_rules self candidate rules key =
       Raise ("No rule matched for " +:+ key +:+ " and no default configured"))
    ∧ (∀ v, apply_rules self candidate rules key = Ok v →
            defaults_get self key = Some v ∧ v ≠ "").
Proof.
  intros self candidate key rules Hno.
  assert (E : rule_value rules candidate = Ok None).
  { by apply first_rule_value_none, no_match_no_result. }
  unfold _apply_rules. rewrite E. simpl. split_and!.
  - intros d -> Hd. unfold str_truthy. by destruct (String.eqb_spec d "").
  - by intros [-> | ->].
  - intros v. destruct (defaults_get self key) as [d|]; [|done].
    unfold str_truthy. destruct (String.eqb_spec d ""); simpl; [done|].
    by intros [= ->].
Qed.

(** C5. When no device-type rule matches the raw string and no default is
    configured, the classification returns the slugification of the raw
    string as the specification words it: lowercase, every maximal run of
    characters outside [[a-z0-9]] one hyphen, no hyphen at either end. *)
Theorem C5_device_type_slugify_fallback :
  ∀ (self : RulesEngine) (raw : string),
    Forall (λ r, pattern r raw = None) (device_type_rules self) →
    ostr_truthy (defaults_get self "device_type_slug") = false →
    device_type_slug format_named format_positional upper self raw =
    Ok (spec_slugify raw).
Proof.
  intros self raw Hno Hdef. unfold device_type_slug.
  rewrite first_rule_value_none by by apply no_match_no_result.
  simpl. rewrite Hdef. by rewrite _slugify_spec.
Qed.

End ClassifierProperties.

(** C4, counterexample. Both rules match the candidate; the first derives
    the empty string (from its literal value, or from its template, the
    group having captured nothing) or, having neither value nor template,
    derives nothing; the classification returns the value of the second. *)
Lemma C4_later_rule_returned :
  pattern (mkRule match_any (Some "") None None) "edge-01" = Some (mkMatch [] [])
  ∧ pattern (mkRule match_any (Some "core") None None) "edge-01"
    = Some (mkMatch [] [])
  ∧ RegexRule_apply format_plain format_plain ascii_upper
      (mkRule match_any (Some "") None None) "edge-01" = Ok (Some "")
  ∧ _apply_rules format_plain format_plain ascii_upper
      (mkRules [] [] [] [] ∅) "edge-01"
      [mkRule match_any (Some "") None None;
       mkRule match_any (Some "core") None None] "role_slug" = Ok "core"
  ∧ _apply_rules format_plain format_plain ascii_upper
      (mkRules [] [] [] [] ∅) "edge-01"
      [mkRule match_any None None None;
       mkRule match_any (Some "core") None None] "role_slug" = Ok "core"
  ∧ RegexRule_apply format_one_field format_plain ascii_upper
      (mkRule match_empty_site None (Some "{site}") None) "01-edge"
    = Ok (Some "")
  ∧ _apply_rules format_one_field format_plain ascii_upper
      (mkRules [] [] [] [] ∅) "01-edge"
      [mkRule match_empty_site None (Some "{site}") None;
       mkRule match_any (Some "core") None None] "site_slug" = Ok "core".
Proof. repeat split. Qed.

(** C4, an instance: of two matching rules with non-empty values the first
    one wins. *)
Lemma C4_first_of_two_matching :
  _apply_rules format_plain format_plain ascii_upper
    (mkRules [] [] [] [] ∅) "edge-01"
    ([] ++ mkRule match_any (Some "edge") None None ::
       [mkRule match_any (Some "core") None None]) "role_slug" = Ok "edge".
Proof.
  apply (C4_first_nonempty_result_wins format_plain format_plain ascii_upper
           (mkRules [] [] [] [] ∅) "edge-01" "role_slug" []
           [mkRule match_any (Some "core") None None]
           (mkRule match_any (Some "edge") None None) "edge").
  - constructor.
  - reflexivity.
  - discriminate.
Defined.

(** C6, instances: the site classifier returns the configured default,
    the role classifier, which has none, raises the error that names its
    category. *)
Lemma C6_default_and_failure_instances :
  site_slug format_plain format_plain ascii_upper
    (mkRules [] [mkRule match_none (Some "lab") None None] [] []
             {[ "site_slug" := Some "hq" ]}) "edge-01" = Ok "hq"
  ∧ role_slug format_plain format_plain ascii_upper
      (mkRules [mkRule match_none (Some "core") None None] [] [] []
               {[ "site_slug" := Some "hq" ]}) "edge-01"
    = Raise "No rule matched for role_slug and no default configured".
Proof.
  split.
  - apply (C6_default_or_classification_error format_plain format_plain
             ascii_upper
             (mkRules [] [mkRule match_none (Some "lab") None None] [] []
                      {[ "site_slug" := Some "hq" ]})
             "edge-01" "site_slug" [mkRule match_none (Some "lab") None None]).
    + repeat constructor.
    + reflexivity.
    + discriminate.
  - apply (C6_default_or_classification_error format_plain format_plain
             ascii_upper
             (mkRules [mkRule match_none (Some "core") None None] [] [] []
                      {[ "site_slug" := Some "hq" ]})
             "edge-01" "role_slug" [mkRule match_none (Some "core") None None]).
    + repeat constructor.
    + left. reflexivity.
Defined.

(** C5, the instance of the specification: ["Unknown Model 5000"]. *)
Lemma C5_unknown_model_5000 :
  device_type_slug format_plain format_plain ascii_upper
    (mkRules [] [] [] [mkRule match_none (Some "nokia-7750-sr") None None] ∅)
    "Unknown Model 5000" = Ok "unknown-model-5000".
Proof.
  apply (C5_device_type_slugify_fallback format_plain format_plain ascii_upper
           (mkRules [] [] [] [mkRule match_none (Some "nokia-7750-sr") None None] ∅)
           "Unknown Model 5000").
  - repeat constructor.
  - reflexivity.
Defined.

(** *** Where the two slugifications part *)

Lemma str_existsb_forallb (p : ascii → bool) (s : string) :
  str_existsb p s = negb (str_forallb (λ c, negb (p c)) s).
Proof.
  induction s as [|c s IH]; [done|]. simpl. rewrite IH. by destruct (p c).
Qed.

Section Survive.
Context (p q : ascii → bool).
Hypothesis p_not_q : ∀ c, p c = true → q c = false.

Lemma str_existsb_lstrip (s : string) :
  str_existsb p s = true → str_existsb p (lstrip_by q s) = true.
Proof.
  induction s as [|c s IH]; [done|]. simpl. destruct (p c) eqn:Hp.
  - intros _. rewrite (p_not_q _ Hp). simpl. by rewrite Hp.
  - simpl. intros H. destruct (q c); [by apply IH|]. simpl. by rewrite Hp.
Qed.

Lemma str_existsb_rstrip (s : string) :
  str_existsb p s = true → str_existsb p (rstrip_by q s) = true.
Proof.
  induction s as [|c s IH]; [done|]. rewrite rstrip_by_cons. simpl.
  destruct (p c) eqn:Hp.
  - intros _. rewrite (p_not_q _ Hp).
    destruct (rstrip_by q s); simpl; by rewrite Hp.
  - simpl. intros H. specialize (IH H).
    destruct (rstrip_by q s) as [|c' r]; [done|].
    change (p c || str_existsb p (String c' r) = true). rewrite IH.
    apply orb_true_r.
Qed.

Lemma str_existsb_strip (s : string) :
  str_existsb p s = true → str_existsb p (strip_by q s) = true.
Proof. intros H. unfold strip_by. by apply str_existsb_rstrip, str_existsb_lstrip. Qed.

End Survive.

Lemma str_existsb_map (p p' : ascii → bool) (f : ascii → ascii) (s : string) :
  (∀ c, p c = true → p' (f c) = true) →
  str_existsb p s = true → str_existsb p' (str_map f s) = true.
Proof.
  intros Hf. induction s as [|c s IH]; [done|]. simpl.
  intros [H|H]%orb_true_iff.
  - by rewrite (Hf _ H).
  - rewrite (IH H). apply orb_true_r.
Qed.

Lemma str_existsb_squeeze (p : ascii → bool) (b : bool) (s : string) :
  (∀ c, p c = true → is_hyphen c = false) →
  str_existsb p s = true → str_existsb p (squeeze_from b s) = true.
Proof.
  intros Hp. revert b. induction s as [|c s IH]; intros b; [done|].
  rewrite squeeze_from_cons. simpl. destruct (p c) eqn:E.
  - intros _. rewrite (Hp _ E). simpl. by rewrite E.
  - simpl. intros H. destruct (is_hyphen c).
    + destruct b; [by apply IH|]. simpl. rewrite (IH _ H). apply orb_true_r.
    + simpl. rewrite E. simpl. by apply IH.
Qed.

Lemma sub_runs_from_chars (b : bool) (s : string) :
  str_forallb slug_or_hyphen (sub_runs_from b s) = true.
Proof.
  revert b. induction s as [|c s IH]; intros b; [done|].
  rewrite sub_runs_from_cons. destruct (is_slug_char c) eqn:Hc.
  - simpl. unfold slug_or_hyphen at 1. by rewrite Hc, IH.
  - destruct b; [apply IH|]. simpl. by rewrite IH.
Qed.

(** [_slugify] writes characters of [[a-z0-9]] and hyphens only. *)
Lemma _slugify_chars (s : string) :
  str_forallb slug_or_hyphen (_slugify s) = true.
Proof.
  unfold _slugify, strip_hyphens, strip_by.
  apply str_forallb_rstrip, str_forallb_lstrip, sub_runs_from_chars.
Qed.

(** An alphanumeric character beyond ASCII. *)
Lemma not_ascii_alnum_facts (c : ascii) :
  alnum_is_ascii c = false →
  isspace c = false
  ∧ alnum_is_ascii (lower_char c) = false
  ∧ alnum_or_hyphen c = c
  ∧ is_hyphen c = false
  ∧ slug_or_hyphen c = false.
Proof.
  destruct c as [[] [] [] [] [] [] [] []]; vm_compute; intros H;
    try discriminate H; repeat split; reflexivity.
Qed.

(** [slugify] keeps the alphanumeric characters beyond ASCII. *)
Lemma slugify_keeps_non_ascii (s : string) :
  str_forallb alnum_is_ascii s = false →
  str_existsb (λ c, negb (alnum_is_ascii c)) (slugify s) = true.
Proof.
  intros H.
  assert (Hex : str_existsb (λ c, negb (alnum_is_ascii c)) s = true).
  { rewrite str_existsb_forallb.
    replace (str_forallb (λ c, negb (negb (alnum_is_ascii c))) s)
      with (str_forallb alnum_is_ascii s); [by rewrite H|].
    clear H. induction s as [|c s IH]; [done|]. simpl.
    by rewrite IH, negb_involutive. }
  assert (Hfacts : ∀ c, negb (alnum_is_ascii c) = true →
            isspace c = false ∧ alnum_is_ascii (lower_char c) = false
            ∧ alnum_or_hyphen c = c ∧ is_hyphen c = false
            ∧ slug_or_hyphen c = false).
  { intros c Hc. apply not_ascii_alnum_facts. by apply negb_true_iff. }
  unfold slugify.
  change (str_map (λ ch, if isalnum ch then ch else "-"%char))
    with (str_map alnum_or_hyphen).
  rewrite collapse_hyphens_squeeze. unfold strip_hyphens.
  apply str_existsb_strip; [intros c Hc; by apply Hfacts|].
  apply str_existsb_squeeze; [intros c Hc; by apply Hfacts|].
  eapply (str_existsb_map (λ c, negb (alnum_is_ascii c))).
  { intros c Hc. destruct (Hfacts c Hc) as (_ & _ & -> & _). exact Hc. }
  unfold lower.
  eapply (str_existsb_map (λ c, negb (alnum_is_ascii c))).
  { intros c Hc. destruct (Hfacts c Hc) as (_ & -> & _). done. }
  unfold strip. apply str_existsb_strip; [intros c Hc; by apply Hfacts|done].
Qed.

(** C10 (as amended). The module-level [slugify] and the classifier's
    [_slugify] return the same result for every string whose alphanumeric
    characters (those [str.isalnum] accepts) are all ASCII characters. *)
Theorem C10_slugify_agree_on_ascii_alphanumerics :
  ∀ s : string, str_forallb alnum_is_ascii s = true → slugify s = _slugify s.
Proof. exact slugify_agree. Qed.

Lemma C10_agree_instance :
  slugify "  SIM-SROS-01 (lab) " = _slugify "  SIM-SROS-01 (lab) ".
Proof.
  apply (C10_slugify_agree_on_ascii_alphanumerics "  SIM-SROS-01 (lab) ").
  reflexivity.
Defined.

(** C10, counterexample. On the one-character string of code point 233
    (LATIN SMALL LETTER E WITH ACUTE), [slugify] keeps the letter, which
    [str.isalnum] accepts, and [_slugify] replaces it, being outside
    [[a-z0-9]], and returns the empty string. *)
Lemma C10_slugify_differ_on_latin_letter :
  slugify (String (ascii_of_nat 233) "") = String (ascii_of_nat 233) ""
  ∧ _slugify (String (ascii_of_nat 233) "") = "".
Proof. split; reflexivity. Qed.

(** ** The module collection of the harvester *)

Lemma str_truthy_ne (s : string) : str_truthy s = true ↔ s ≠ "".
Proof.
  unfold str_truthy. destruct (String.eqb_spec s ""); simpl; split; congruence.
Qed.

Lemma entries_ok_seen (seen seen' : list (string * option string))
    (entries : module_entries_t) :
  entries_ok seen entries →
  (∀ x, x ∈ seen' ↔ x ∈ seen) →
  entries_ok seen' entries.
Proof.
  intros (H1 & H2 & H3) Hs. split_and!; [done|..].
  - intros key m Hm. destruct (H2 key m Hm) as (? & ? & ? & ?).
    split_and!; try done. by apply Hs.
  - intros bay model Hin. apply H3. by apply Hs.
Qed.

(** A pair that [add_module] ignores leaves the invariant as it is. *)
Lemma entries_ok_ignored (seen : list (string * option string))
    (entries : module_entries_t) (bay_name : string) (model : option string) :
  str_truthy bay_name = false ∨ ostr_truthy model = false →
  entries_ok seen entries →
  entries_ok (seen ++ [(bay_name, model)]) entries.
Proof.
  intros Hign (Hnd & Hin & Hall). split_and!; [done|..].
  - intros key m Hm. destruct (Hin key m Hm) as (? & ? & ? & ?).
    split_and!; try done. apply elem_of_app. by left.
  - intros bay mo [Hs|Hs%list_elem_of_singleton]%elem_of_app Hb1 Hm1.
    + by apply Hall.
    + simplify_eq. apply str_truthy_ne in Hb1, Hm1. simpl in Hign.
      destruct Hign; congruence.
Qed.

Lemma add_module_ok (seen : list (string * option string))
    (entries : module_entries_t) (bay_name : string) (model : option string) :
  entries_ok seen entries →
  entries_ok (seen ++ [(bay_name, model)]) (add_module entries bay_name model).
Proof.
  intros Hok. unfold add_module.
  destruct (str_truthy bay_name) eqn:Hb; simpl;
    [|apply entries_ok_ignored; auto].
  destruct (ostr_truthy model) eqn:Hm; simpl;
    [|apply entries_ok_ignored; auto].
  destruct model as [model|]; [|done]. simpl in Hm |- *.
  apply str_truthy_ne in Hb, Hm. unfold key_in.
  destruct Hok as (Hnd & Hin & Hall).
  destruct (decide ((bay_name, model) ∈ entries.*1)) as [Hk|Hk].
  - rewrite bool_decide_eq_true_2 by done. simpl. split_and!; [done|..].
    + intros key m Hkm. destruct (Hin key m Hkm) as (? & ? & ? & ?).
      split_and!; try done. apply elem_of_app. by left.
    + intros bay mo [Hs|Hs%list_elem_of_singleton]%elem_of_app Hb1 Hm1.
      * by apply Hall.
      * simplify_eq.
        apply list_elem_of_fmap in Hk as ([k m] & Hk1 & Hk2). simpl in Hk1.
        subst k. destruct (Hin _ _ Hk2) as (-> & _). done.
  - rewrite bool_decide_eq_false_2 by done. simpl. split_and!.
    + rewrite fmap_app. simpl. apply NoDup_app. split_and!; [done| |].
      * intros x Hx ->%list_elem_of_singleton. done.
      * apply NoDup_singleton.
    + intros key m [Hkm|Hkm%list_elem_of_singleton]%elem_of_app.
      * destruct (Hin key m Hkm) as (? & ? & ? & ?).
        split_and!; try done. apply elem_of_app. by left.
      * simplify_eq. simpl. split_and!; try done.
        apply elem_of_app. right. by apply list_elem_of_singleton.
    + intros bay mo [Hs|Hs%list_elem_of_singleton]%elem_of_app Hb1 Hm1.
      * apply elem_of_app. left. by apply Hall.
      * simplify_eq. apply elem_of_app. right.
        by apply list_elem_of_singleton.
Qed.

Lemma add_all_ok (source seen : list (string * option string))
    (entries : module_entries_t) :
  entries_ok seen entries → entries_ok (seen ++ source) (add_all source entries).
Proof.
  revert seen entries. induction source as [|[bay model] source IH];
    intros seen entries Hok.
  - by rewrite app_nil_r.
  - unfold add_all. simpl. fold (add_all source (add_module entries bay model)).
    replace (seen ++ (bay, model) :: source)
      with ((seen ++ [(bay, model)]) ++ source) by by rewrite <- app_assoc.
    by apply IH, add_module_ok.
Qed.

Lemma harvest_entries_ok
    (module_pairs card_modules mda_modules : list (string * option string)) :
  entries_ok (module_pairs ++ card_modules ++ mda_modules)
    (add_all mda_modules (add_all card_modules (add_all module_pairs []))).
Proof.
  rewrite app_assoc. apply add_all_ok, add_all_ok.
  apply (add_all_ok module_pairs [] []).
  split_and!; [apply NoDup_nil_2 | intros ?? H; by apply elem_of_nil in H
              | intros ?? H; by apply elem_of_nil in H].
Qed.

(** C9 (as amended). The modules list of a harvested inventory holds at
    most one module per pair (bay name, model): each module is the one
    built from a pair with non-empty bay name and model that a source
    emitted, every such pair has its module, and no pair has two. Modules
    that differ in the model are kept side by side, also for one bay. *)
Theorem C9_one_module_per_bay_and_model :
  ∀ (module_pairs card_modules mda_modules : list (string * option string)),
    NoDup (module_key <$>
             harvest_modules module_pairs card_modules mda_modules)
    ∧ (∀ m, m ∈ harvest_modules module_pairs card_modules mda_modules →
         m = new_module (m_bay_name m) (m_module_type_model m)
         ∧ m_bay_name m ≠ "" ∧ m_module_type_model m ≠ ""
         ∧ (m_bay_name m, Some (m_module_type_model m))
             ∈ module_pairs ++ card_modules ++ mda_modules)
    ∧ (∀ bay model,
         (bay, Some model) ∈ module_pairs ++ card_modules ++ mda_modules →
         bay ≠ "" → model ≠ "" →
         new_module bay model
           ∈ harvest_modules module_pairs card_modules mda_modules).
Proof.
  intros module_pairs card_modules mda_modules. unfold harvest_modules.
  destruct (harvest_entries_ok module_pairs card_modules mda_modules)
    as (Hnd & Hin & Hall).
  set (entries := add_all mda_modules
                    (add_all card_modules (add_all module_pairs []))) in *.
  assert (Hkey : module_key <$> entries.*2 = entries.*1).
  { rewrite <- list_fmap_compose. apply Forall_fmap_ext_1.
    apply Forall_forall. intros [k m] Hkm.
    destruct (Hin k m Hkm) as (-> & _). destruct k. done. }
  split_and!.
  - by rewrite Hkey.
  - intros m ([k m'] & -> & Hkm)%list_elem_of_fmap. simpl.
    destruct (Hin k m' Hkm) as (-> & ? & ? & ?). done.
  - intros bay model Hs Hb Hm. apply list_elem_of_fmap.
    exists ((bay, model), new_module bay model). split; [done|]. by apply Hall.
Qed.

(** C9, counterexample. The provisioned-type listing and the card-type
    listing name different models for the bay ["Card A"]: the modules list
    holds two modules for that bay. *)
Lemma C9_two_modules_for_one_bay :
  harvest_modules [("Card A", Some "iom-a")] [("Card A", Some "imm-b")] [] =
  [new_module "Card A" "iom-a"; new_module "Card A" "imm-b"]
  ∧ m_bay_name <$>
      harvest_modules [("Card A", Some "iom-a")] [("Card A", Some "imm-b")] []
    = ["Card A"; "Card A"].
Proof. split; vm_compute; reflexivity. Qed.

(** ** Sorting *)

Section Sorting.
Context {A : Type} (le : A → A → bool).

Lemma insert_sorted_perm (x : A) (l : list A) : insert_sorted le x l ≡ₚ x :: l.
Proof.
  induction l as [|y l IH]; simpl; [done|].
  destruct (le x y); [done|]. rewrite IH. apply Permutation_swap.
Qed.

(** [sorted] returns the elements it was given. *)
Lemma py_sorted_perm (l : list A) : py_sorted le l ≡ₚ l.
Proof.
  induction l as [|x l IH]; simpl; [done|].
  by rewrite insert_sorted_perm, IH.
Qed.


Section Order.
Hypothesis le_total : ∀ x y, le x y = true ∨ le y x = true.
Hypothesis le_trans : ∀ x y z, le x y = true → le y z = true → le x z = true.

Lemma insert_sorted_sorted (x : A) (l : list A) :
  StronglySorted (λ a b, le a b = true) l →
  StronglySorted (λ a b, le a b = true) (insert_sorted le x l).
Proof.
  induction 1 as [|y l Hs IH Hall]; simpl.
  - repeat constructor.
  - destruct (le x y) eqn:E.
    + constructor; [by constructor|]. constructor; [done|].
      eapply Forall_impl; [exact Hall|]. intros z Hz. by eapply le_trans.
    + constructor; [done|].
      rewrite insert_sorted_perm. constructor; [|done].
      destruct (le_total x y); congruence.
Qed.

(** [sorted] returns its elements in non-decreasing order. *)
Lemma py_sorted_sorted (l : list A) :
  StronglySorted (λ a b, le a b = true) (py_sorted le l).
Proof.
  induction l as [|x l IH]; simpl; [constructor|].
  by apply insert_sorted_sorted.
Qed.

End Order.

Section Stability.
Context {K : Type} `{EqDecision K} (key : A → K).
Hypothesis le_key : ∀ x y, key x = key y → le x y = true.



End Stability.
End Sorting.

(** *** The order of the interface keys *)

Lemma string_leb_trans (x y z : string) :
  String.leb x y = true → String.leb y z = true → String.leb x z = true.
Proof.
  intros H1%Is_true_true H2%Is_true_true. apply Is_true_true.
  change (String.le x z). by transitivity y.
Qed.





(** A proposal shows the sort key of its interface. *)
Lemma interface_proposal_key
    (existing_map : gmap string (list (string * pyval)))
    (iface : NormalizedInterface) :
  proposal_key (interface_proposal existing_map iface) = iface_key iface
  ∧ p_identifier (interface_proposal existing_map iface) = i_name iface
  ∧ p_desired (interface_proposal existing_map iface) !! "type"
    = Some (VStr (i_type_slug iface))
  ∧ p_desired (interface_proposal existing_map iface) !! "lag"
    = (if ostr_truthy (i_lag iface) then Some (of_ostr (i_lag iface)) else None).
Proof.
  unfold interface_proposal, proposal_key, iface_key.
  destruct (_action_and_diff _ _ _) as [a d]. simpl.
  destruct (ostr_truthy (i_lag iface)); simpl; done.
Qed.

(** ** The order of the interface proposals *)

Lemma interfaces_proposals_keys (ifaces : list NormalizedInterface)
    (state : option DeviceState) :
  proposal_key <$> _interfaces_proposals ifaces state =
  iface_key <$> py_sorted iface_leb ifaces.
Proof.
  unfold _interfaces_proposals. rewrite <- list_fmap_compose.
  apply list_fmap_ext. intros i x _. simpl. apply interface_proposal_key.
Qed.



Lemma interfaces_proposals_identifiers (ifaces : list NormalizedInterface)
    (state : option DeviceState) :
  p_identifier <$> _interfaces_proposals ifaces state
  = i_name <$> py_sorted iface_leb ifaces.
Proof.
  unfold _interfaces_proposals. rewrite <- list_fmap_compose.
  apply list_fmap_ext. intros i x _. simpl. apply interface_proposal_key.
Qed.

(** C7, the failing input. The rules configure the LAG type ["virtual"];
    the device reports the ports [1/1/1] and [1/1/2] and the LAG 1 with
    the member [1/1/1]. The harvester gives the LAG interface ["LAG 1"]
    the configured type and lists it first. The engine sorts by the key
    (type slug other than ["lag"], name), to which the configured type is
    a type like any other: whatever the remote state, the member [1/1/1],
    whose desired fields name ["LAG 1"], is proposed first and the LAG
    interface last. *)
Theorem C7_configured_lag_type_proposed_after_member :
  ∀ state : option DeviceState,
    ∃ ifaces lag_list member_proposal lag_interface_proposal,
      harvest_links search_nothing virtual_lag_rules
        (x_ports_up example_extracted) (x_regex_lag example_extracted)
      = Ok (ifaces, lag_list)
      ∧ i_name <$> ifaces = ["LAG 1"; "1/1/1"; "1/1/2"]
      ∧ l_name <$> lag_list = ["LAG 1"]
      ∧ p_identifier <$> _interfaces_proposals ifaces state
        = ["1/1/1"; "1/1/2"; "LAG 1"]
      ∧ _interfaces_proposals ifaces state !! 0 = Some member_proposal
      ∧ _interfaces_proposals ifaces state !! 2 = Some lag_interface_proposal
      ∧ p_identifier member_proposal = "1/1/1"
      ∧ p_desired member_proposal !! "lag" = Some (VStr "LAG 1")
      ∧ p_identifier lag_interface_proposal = "LAG 1"
      ∧ p_desired lag_interface_proposal !! "type" = Some (VStr "virtual").
Proof.
  intros state. eexists _, _, _, _.
  split; [vm_compute; reflexivity|].
  split; [vm_compute; reflexivity|].
  split; [vm_compute; reflexivity|].
  split; [rewrite interfaces_proposals_identifiers; vm_compute; reflexivity|].
  unfold _interfaces_proposals.
  match goal with |- context [py_sorted iface_leb ?l] =>
    let r := eval vm_compute in (py_sorted iface_leb l) in
    change (py_sorted iface_leb l) with r end.
  split; [reflexivity|]. split; [reflexivity|].
  split_and!.
  - apply interface_proposal_key.
  - by rewrite (proj2 (proj2 (proj2 (interface_proposal_key _ _)))).
  - apply interface_proposal_key.
  - by rewrite (proj1 (proj2 (proj2 (interface_proposal_key _ _)))).
Qed.

(** ** The remote interfaces *)

Lemma NoDup_fmap_inj_on {A B : Type} (f : A → B) (l : list A) (x y : A) :
  NoDup (f <$> l) → x ∈ l → y ∈ l → f x = f y → x = y.
Proof.
  induction l as [|z l IH]; intros Hnd Hx Hy Hf; [by apply elem_of_nil in Hx|].
  rewrite fmap_cons in Hnd. apply NoDup_cons in Hnd as [Hz Hnd].
  apply elem_of_cons in Hx as [->|Hx], Hy as [->|Hy].
  - done.
  - exfalso. apply Hz. rewrite Hf. by apply list_elem_of_fmap_2.
  - exfalso. apply Hz. rewrite <- Hf. by apply list_elem_of_fmap_2.
  - by apply IH.
Qed.

Lemma filter_unique {A B : Type} `{EqDecision B} (f : A → B) (l : list A) (x : A) :
  NoDup (f <$> l) → x ∈ l → filter (λ y, f y = f x) l = [x].
Proof.
  induction l as [|z l IH]; intros Hnd Hx; [by apply elem_of_nil in Hx|].
  rewrite fmap_cons in Hnd. apply NoDup_cons in Hnd as [Hz Hnd].
  rewrite filter_cons. apply elem_of_cons in Hx as [->|Hx].
  - rewrite decide_True by done. f_equal.
    clear IH Hnd. induction l as [|y l IH]; [done|].
    rewrite filter_cons. rewrite fmap_cons, not_elem_of_cons in Hz.
    destruct Hz as [Hne Hz]. rewrite decide_False by congruence. by apply IH.
  - rewrite decide_False; [by apply IH|].
    intros E. apply Hz. rewrite E. by apply list_elem_of_fmap_2.
Qed.


(** [get] finds the interface of a device by its name. *)
Lemma interfaces_get_found (nb : NetBox) (i : NbInterface) :
  interfaces_wf nb → i ∈ nb_interfaces nb →
  interfaces_get nb (if_device i) (if_name i) = Ok (Some i).
Proof.
  intros [_ Hnd] Hi. unfold interfaces_get.
  rewrite (list_filter_iff _ (λ y, iface_owner_name y = iface_owner_name i)).
  - by rewrite filter_unique.
  - intros y. unfold iface_owner_name. split; [by intros [-> ->]|].
    by intros [= -> ->].
Qed.

Lemma has_interface_get (nb : NetBox) (device_id : Z) (name : string) :
  interfaces_wf nb → has_interface nb device_id name →
  ∃ i, i ∈ nb_interfaces nb ∧ if_device i = device_id ∧ if_name i = name
       ∧ interfaces_get nb device_id name = Ok (Some i).
Proof.
  intros Hwf (i & Hi & <- & <-). exists i. split_and!; try done.
  by apply interfaces_get_found.
Qed.

Lemma elem_of_current_members (nb : NetBox) (device_id lag_id : Z) (n : string) :
  n ∈ current_members_of nb device_id lag_id ↔
  ∃ i, i ∈ nb_interfaces nb ∧ if_device i = device_id
       ∧ if_lag i = Some lag_id ∧ if_name i = n.
Proof.
  unfold current_members_of, interfaces_filter_lag.
  rewrite elem_of_list_to_set, list_elem_of_fmap. split.
  - intros (i & -> & (Hi1 & Hi2)%list_elem_of_filter). destruct Hi1. eauto 6.
  - intros (i & Hi & Hd & Hl & Hn). exists i. split; [done|].
    apply list_elem_of_filter. eauto.
Qed.

Lemma current_member_has_interface (nb : NetBox) (device_id lag_id : Z)
    (n : string) :
  n ∈ current_members_of nb device_id lag_id → has_interface nb device_id n.
Proof.
  intros (i & ? & ? & ? & ?)%elem_of_current_members. exists i. eauto.
Qed.

(** *** The effect of one update *)

Lemma set_lag_elem_of (nb : NetBox) (id : Z) (lag : option Z) (i' : NbInterface) :
  i' ∈ nb_interfaces (interface_set_lag nb id lag) ↔
  ∃ i, i ∈ nb_interfaces nb ∧
       i' = if decide (if_id i = id)
            then mkNbInterface (if_id i) (if_device i) (if_name i) lag (if_data i)
            else i.
Proof.
  unfold interface_set_lag. simpl. rewrite list_elem_of_fmap.
  split; intros (i & H1 & H2); exists i; done.
Qed.

Lemma set_lag_ids (nb : NetBox) (id : Z) (lag : option Z) :
  if_id <$> nb_interfaces (interface_set_lag nb id lag) =
  if_id <$> nb_interfaces nb.
Proof.
  unfold interface_set_lag. simpl. rewrite <- list_fmap_compose.
  apply list_fmap_ext. intros k i _. simpl. by case_decide.
Qed.

Lemma set_lag_owner_names (nb : NetBox) (id : Z) (lag : option Z) :
  iface_owner_name <$> nb_interfaces (interface_set_lag nb id lag) =
  iface_owner_name <$> nb_interfaces nb.
Proof.
  unfold interface_set_lag. simpl. rewrite <- list_fmap_compose.
  apply list_fmap_ext. intros k i _. simpl. by case_decide.
Qed.

Lemma set_lag_wf (nb : NetBox) (id : Z) (lag : option Z) :
  interfaces_wf nb → interfaces_wf (interface_set_lag nb id lag).
Proof.
  intros [H1 H2]. split; [by rewrite set_lag_ids|by rewrite set_lag_owner_names].
Qed.

Lemma has_interface_owner_name (nb : NetBox) (device_id : Z) (name : string) :
  has_interface nb device_id name ↔
  (device_id, name) ∈ iface_owner_name <$> nb_interfaces nb.
Proof.
  unfold has_interface. rewrite list_elem_of_fmap. unfold iface_owner_name. split.
  - intros (i & Hi & <- & <-). eauto.
  - intros (i & [= -> ->] & Hi). eauto.
Qed.

Lemma set_lag_has_interface (nb : NetBox) (id : Z) (lag : option Z)
    (device_id : Z) (name : string) :
  has_interface (interface_set_lag nb id lag) device_id name ↔
  has_interface nb device_id name.
Proof. by rewrite !has_interface_owner_name, set_lag_owner_names. Qed.

(** After [iface.update({"lag": lag})], the interface is a member of the
    LAG it was given, and of no other; the other interfaces are where they
    were. *)
Lemma set_lag_members (nb : NetBox) (iface : NbInterface) (lag : option Z)
    (lag_id : Z) (n : string) :
  interfaces_wf nb → iface ∈ nb_interfaces nb →
  n ∈ current_members_of (interface_set_lag nb (if_id iface) lag)
        (if_device iface) lag_id ↔
  (n = if_name iface ∧ lag = Some lag_id)
  ∨ (n ≠ if_name iface ∧ n ∈ current_members_of nb (if_device iface) lag_id).
Proof.
  intros [Hid Hkey] Hiface. rewrite !elem_of_current_members. split.
  - intros (i' & (i & Hi & ->)%set_lag_elem_of & Hd & Hl & Hn).
    case_decide as Hsame; simpl in *.
    + assert (i = iface) as -> by by eapply (NoDup_fmap_inj_on if_id).
      left. done.
    + right. split.
      * intros ->. apply Hsame. f_equal.
        eapply (NoDup_fmap_inj_on iface_owner_name); eauto.
        unfold iface_owner_name. congruence.
      * eauto 6.
  - intros [[-> ->] | [Hne (i & Hi & Hd & Hl & Hn)]].
    + exists (mkNbInterface (if_id iface) (if_device iface) (if_name iface)
                (Some lag_id) (if_data iface)).
      split_and!; try done. apply set_lag_elem_of. exists iface.
      split; [done|]. by rewrite decide_True.
    + exists i. split_and!; try done. apply set_lag_elem_of. exists i.
      split; [done|]. rewrite decide_False; [done|].
      intros E. apply Hne. rewrite <- Hn. f_equal.
      by eapply (NoDup_fmap_inj_on if_id).
Qed.

(** *** The two loops *)

Lemma add_members_ok (device_id lag_id : Z) (lag_name : string)
    (members : list string) (w : world) :
  interfaces_wf (remote w) →
  (∀ m, m ∈ members → has_interface (remote w) device_id m) →
  ∃ w', add_members w device_id lag_id lag_name members = (w', Ok ())
        ∧ issued w' = issued w ++ ((λ m, mkWrite m (Some lag_id)) <$> members)
        ∧ interfaces_wf (remote w')
        ∧ (∀ d n, has_interface (remote w') d n ↔ has_interface (remote w) d n)
        ∧ (∀ n, n ∈ current_members_of (remote w') device_id lag_id ↔
                n ∈ current_members_of (remote w) device_id lag_id ∨ n ∈ members).
Proof.
  revert w. induction members as [|member rest IH]; intros w Hwf Hex.
  - exists w. simpl. split_and!; try done.
    + by rewrite app_nil_r.
    + intros n. rewrite elem_of_nil. tauto.
  - destruct (has_interface_get _ _ _ Hwf (Hex member ltac:(left)))
      as (iface & Hin & Hd & Hn & Hget).
    simpl. rewrite Hget.
    destruct (IH (issue_update w iface (Some lag_id))) as (w' & E & Hlog & Hwf' & Hhas & Hmem).
    { by apply set_lag_wf. }
    { intros m Hm. apply set_lag_has_interface, Hex. by right. }
    exists w'. split_and!; try done.
    + rewrite Hlog. simpl. rewrite <- app_assoc. by rewrite Hn.
    + intros d n. rewrite Hhas. apply set_lag_has_interface.
    + intros n. rewrite Hmem. simpl. rewrite <- Hd.
      rewrite (set_lag_members _ _ _ _ _ Hwf Hin), elem_of_cons, Hn.
      destruct (decide (n = member)); intuition congruence.
Qed.

Lemma remove_members_ok (device_id lag_id : Z) (members : list string)
    (w : world) :
  interfaces_wf (remote w) →
  (∀ m, m ∈ members → has_interface (remote w) device_id m) →
  ∃ w', remove_members w device_id members = (w', Ok ())
        ∧ issued w' = issued w ++ ((λ m, mkWrite m None) <$> members)
        ∧ interfaces_wf (remote w')
        ∧ (∀ n, n ∈ current_members_of (remote w') device_id lag_id ↔
                n ∈ current_members_of (remote w) device_id lag_id ∧ n ∉ members).
Proof.
  revert w. induction members as [|member rest IH]; intros w Hwf Hex.
  - exists w. simpl. split_and!; try done.
    + by rewrite app_nil_r.
    + intros n. rewrite elem_of_nil. tauto.
  - destruct (has_interface_get _ _ _ Hwf (Hex member ltac:(left)))
      as (iface & Hin & Hd & Hn & Hget).
    simpl. rewrite Hget.
    destruct (IH (issue_update w iface None)) as (w' & E & Hlog & Hwf' & Hmem).
    { by apply set_lag_wf. }
    { intros m Hm. apply set_lag_has_interface, Hex. by right. }
    exists w'. split_and!; try done.
    + rewrite Hlog. simpl. rewrite <- app_assoc. by rewrite Hn.
    + intros n. rewrite Hmem. simpl. rewrite <- Hd.
      rewrite (set_lag_members _ _ _ _ _ Hwf Hin), not_elem_of_cons, Hn.
      intuition congruence.
Qed.

Lemma elem_of_sorted_names (s : gset string) (n : string) :
  n ∈ sorted_names s ↔ n ∈ s.
Proof.
  unfold sorted_names. rewrite (py_sorted_perm String.leb (elements s)).
  apply elem_of_elements.
Qed.

Lemma sorted_names_sorted (s : gset string) :
  StronglySorted (λ a b, String.leb a b = true) (sorted_names s).
Proof.
  apply py_sorted_sorted; [apply String.leb_total|apply string_leb_trans].
Qed.

(** ** LAG membership reconciliation *)

Lemma apply_lag_proposal_ok (w : world) (device_id : Z) (proposal : Proposal)
    (lag_iface : NbInterface) :
  p_action proposal ≠ noop →
  interfaces_wf (remote w) →
  lag_iface ∈ nb_interfaces (remote w) →
  if_device lag_iface = device_id →
  if_name lag_iface = p_identifier proposal →
  (∀ m, m ∈ desired_members_of proposal →
        has_interface (remote w) device_id m) →
  ∃ w',
    apply_lag_proposal w device_id proposal = (w', Ok ())
    ∧ issued w' =
        issued w
        ++ ((λ m, mkWrite m (Some (if_id lag_iface))) <$>
              sorted_names (list_to_set (desired_members_of proposal)
                            ∖ current_members_of (remote w) device_id
                                (if_id lag_iface)))
        ++ ((λ m, mkWrite m None) <$>
              sorted_names (current_members_of (remote w) device_id
                              (if_id lag_iface)
                            ∖ list_to_set (desired_members_of proposal)))
    ∧ interfaces_wf (remote w')
    ∧ current_members_of (remote w') device_id (if_id lag_iface)
      = list_to_set (desired_members_of proposal).
Proof.
  intros Hact Hwf Hlag Hd Hn Hex. unfold apply_lag_proposal.
  rewrite decide_False by done.
  rewrite <- Hn, <- Hd, (interfaces_get_found _ _ Hwf Hlag), Hd.
  set (current := current_members_of (remote w) device_id (if_id lag_iface)).
  set (desired := list_to_set (desired_members_of proposal) : gset string).
  destruct (add_members_ok device_id (if_id lag_iface) (if_name lag_iface)
              (sorted_names (desired ∖ current)) w Hwf)
    as (w1 & E1 & Hlog1 & Hwf1 & Hhas1 & Hmem1).
  { intros m Hm%elem_of_sorted_names. apply Hex.
    apply elem_of_difference in Hm as [Hm _].
    by apply elem_of_list_to_set in Hm. }
  rewrite E1.
  destruct (remove_members_ok device_id (if_id lag_iface)
              (sorted_names (current ∖ desired)) w1 Hwf1)
    as (w2 & E2 & Hlog2 & Hwf2 & Hmem2).
  { intros m Hm%elem_of_sorted_names. apply Hhas1.
    apply elem_of_difference in Hm as [Hm _].
    by eapply current_member_has_interface. }
  exists w2. split_and!; try done.
  - by rewrite Hlog2, Hlog1, <- app_assoc.
  - apply set_eq. intros n. rewrite Hmem2, Hmem1.
    rewrite !elem_of_sorted_names, !elem_of_difference.
    fold current.
    destruct (decide (n ∈ current)), (decide (n ∈ desired)); tauto.
Qed.

(** C3. The LAG pass [_apply_lag_membership] skips a proposal whose
    action is [noop]: it goes on with the rest of the list, and over a
    list of such proposals it reads and writes nothing. On any other
    proposal, when the remote system holds the LAG interface and the
    desired members (the earlier passes have created them), the pass
    reconciles the LAG and goes on with the rest from the state it has
    reached: with [to_add = desired - current] and
    [to_remove = current - desired] taken against the live remote
    membership, the updates it issues for the proposal are one per name
    of [to_add], each setting the reference to the LAG, in sorted order,
    followed by one per name of [to_remove], each clearing the reference,
    in sorted order; and afterwards the remote membership of the LAG is
    the desired set. *)
Theorem C3_lag_membership_reconciliation :
  ∀ (w : world) (device_id : Z) (proposal : Proposal) (rest : list Proposal),
    (p_action proposal = noop →
     apply_lag_proposal w device_id proposal = (w, Ok ())
     ∧ _apply_lag_membership w device_id (proposal :: rest)
       = _apply_lag_membership w device_id rest)
    ∧ (∀ proposals, Forall (λ p, p_action p = noop) proposals →
         _apply_lag_membership w device_id proposals = (w, Ok ()))
    ∧ (p_action proposal ≠ noop →
       interfaces_wf (remote w) →
       ∀ lag_iface,
         lag_iface ∈ nb_interfaces (remote w) →
         if_device lag_iface = device_id →
         if_name lag_iface = p_identifier proposal →
         (∀ m, m ∈ desired_members_of proposal →
               has_interface (remote w) device_id m) →
         ∃ (to_add to_remove : gset string) (w' : world),
           to_add = list_to_set (desired_members_of proposal)
                    ∖ current_members_of (remote w) device_id (if_id lag_iface)
           ∧ to_remove = current_members_of (remote w) device_id (if_id lag_iface)
                         ∖ list_to_set (desired_members_of proposal)
           ∧ apply_lag_proposal w device_id proposal = (w', Ok ())
           ∧ _apply_lag_membership w device_id [proposal] = (w', Ok ())
           ∧ _apply_lag_membership w device_id (proposal :: rest)
             = _apply_lag_membership w' device_id rest
           ∧ issued w' =
               issued w
               ++ ((λ m, mkWrite m (Some (if_id lag_iface))) <$>
                     sorted_names to_add)
               ++ ((λ m, mkWrite m None) <$> sorted_names to_remove)
           ∧ StronglySorted (λ a b, String.leb a b = true) (sorted_names to_add)
           ∧ StronglySorted (λ a b, String.leb a b = true)
               (sorted_names to_remove)
           ∧ (∀ n, n ∈ sorted_names to_add ↔ n ∈ to_add)
           ∧ (∀ n, n ∈ sorted_names to_remove ↔ n ∈ to_remove)
           ∧ NoDup (sorted_names to_add ++ sorted_names to_remove)
           ∧ current_members_of (remote w') device_id (if_id lag_iface)
             = list_to_set (desired_members_of proposal)).
Proof.
  intros w device_id proposal rest. split_and!.
  - intros Hnoop.
    assert (E : apply_lag_proposal w device_id proposal = (w, Ok ())).
    { unfold apply_lag_proposal. by rewrite decide_True. }
    split; [done|]. cbn [_apply_lag_membership]. by rewrite E.
  - intros proposals Hall. induction Hall as [|p ps Hp _ IH]; [done|].
    simpl. unfold apply_lag_proposal at 1. by rewrite decide_True.
  - intros Hact Hwf lag_iface Hlag Hd Hn Hex.
    destruct (apply_lag_proposal_ok w device_id proposal lag_iface
                Hact Hwf Hlag Hd Hn Hex) as (w' & E & Hlog & _ & Hmem).
    eexists _, _, w'. split_and!; try done.
    + cbn [_apply_lag_membership]. by rewrite E.
    + cbn [_apply_lag_membership]. by rewrite E.
    + apply sorted_names_sorted.
    + apply sorted_names_sorted.
    + apply elem_of_sorted_names.
    + apply elem_of_sorted_names.
    + apply NoDup_app. split_and!.
      * unfold sorted_names. rewrite py_sorted_perm. apply NoDup_elements.
      * intros n. rewrite !elem_of_sorted_names, !elem_of_difference. tauto.
      * unfold sorted_names. rewrite py_sorted_perm. apply NoDup_elements.
Qed.

(** C3, the instance of the specification: the remote membership of
    ["LAG 1"] is [{p1, p2}] and the desired one [{p2, p3}]; the pass adds
    [p3], then removes [p1], and the membership becomes [{p2, p3}]. *)
Lemma C3_lag_example :
  ∃ w' : world,
    _apply_lag_membership (mkWorld lag_example_remote []) 7
      [lag_example_proposal] = (w', Ok ())
    ∧ issued w' = [mkWrite "p3" (Some 10%Z); mkWrite "p1" None]
    ∧ current_members_of (remote w') 7 10 = {[ "p2"; "p3" ]}.
Proof.
  destruct (proj2 (proj2 (C3_lag_membership_reconciliation
                            (mkWorld lag_example_remote []) 7
                            lag_example_proposal [])))
    with (lag_iface := mkNbInterface 10 7 "LAG 1" None [])
    as (to_add & to_remove & w' & -> & -> & _ & E & _ & Hlog
        & _ & _ & _ & _ & _ & Hmem).
  - discriminate.
  - split; apply (bool_decide_unpack _); vm_compute; exact I.
  - left.
  - reflexivity.
  - reflexivity.
  - intros m Hm.
    assert (Hd : desired_members_of lag_example_proposal = ["p2"; "p3"])
      by (vm_compute; reflexivity).
    rewrite Hd in Hm.
    apply elem_of_cons in Hm as [->|Hm];
      [|apply elem_of_cons in Hm as [->|Hm]; [|by apply elem_of_nil in Hm]].
    + exists (mkNbInterface 2 7 "p2" (Some 10%Z) []).
      split; [|done]. do 2 right. left.
    + exists (mkNbInterface 3 7 "p3" None []).
      split; [|done]. do 3 right. left.
  - exists w'. split_and!.
    + exact E.
    + rewrite Hlog. vm_compute. reflexivity.
    + cbn [if_id] in Hmem. rewrite Hmem. vm_compute. reflexivity.
Defined.

(** ** Planning against a remote system that is in step *)


(** For an existing object, [noop] is the answer exactly when the current
    map agrees with the desired one. *)
Lemma action_noop_iff (desired cur : gmap string pyval) :
  _action_and_diff desired (Some cur) true = (noop, None) ↔ agrees desired cur.
Proof.
  unfold _action_and_diff. cbn [negb]. unfold dict_truthy, agrees. split.
  - destruct (decide (_diff desired (Some cur) = ∅)) as [E|E].
    + intros _ k v Hk.
      destruct (py_eq (dict_get cur k) v) eqn:Heq; [done|].
      assert (Hin : _diff desired (Some cur) !! k = Some v).
      { apply _diff_lookup. unfold py_ne. by rewrite Heq. }
      by rewrite E, lookup_empty in Hin.
    + by rewrite bool_decide_eq_false_2.
  - intros Hag. rewrite bool_decide_eq_true_2; [done|].
    apply map_eq. intros k. rewrite lookup_empty.
    destruct (_diff desired (Some cur) !! k) as [v|] eqn:E; [|done].
    apply _diff_lookup in E as [Hk Hne]. unfold py_ne in Hne.
    by rewrite (Hag k v Hk) in Hne.
Qed.

(** The entries of a dictionary display, key by key. *)
Lemma agrees_display (fields : list (string * pyval)) (cur : gmap string pyval) :
  Forall (λ kv, py_eq (dict_get cur kv.1) kv.2 = true) fields →
  agrees (list_to_map fields) cur.
Proof.
  intros Hall k v Hk. apply elem_of_list_to_map_2 in Hk.
  rewrite Forall_forall in Hall. by apply (Hall (k, v)).
Qed.

Lemma device_proposal_noop (inventory : NormalizedInventory) (record : NbDevice) :
  device_in_sync (device inventory) record →
  p_action (_device_proposal inventory (Some record)) = noop.
Proof.
  intros (H1 & H2 & H3 & H4 & H5 & H6 & H7 & H8 & H9 & H10).
  unfold _device_proposal.
  rewrite bool_decide_eq_true_2 by eauto.
  rewrite (proj2 (action_noop_iff _ _)); [done|].
  apply agrees_display. repeat constructor; done.
Qed.

Lemma module_bay_proposal_noop (state : DeviceState) (bay : NormalizedModuleBay) :
  bay_in_sync state bay →
  p_action (_module_bay_proposal bay (Some state)) = noop.
Proof.
  intros (data & Hd & Ht & H1 & H2 & H3).
  unfold _module_bay_proposal, state_get. rewrite Hd, Ht.
  rewrite bool_decide_eq_true_2 by eauto.
  rewrite (proj2 (action_noop_iff _ _)); [done|].
  apply agrees_display. repeat constructor; done.
Qed.

Lemma module_proposal_noop (state : DeviceState) (module : NormalizedModule) :
  module_in_sync state module →
  p_action (_module_proposal module (Some state)) = noop.
Proof.
  intros (data & Hd & Ht & H1 & H2 & H3 & H4).
  unfold _module_proposal, state_get. rewrite Hd, Ht.
  rewrite bool_decide_eq_true_2 by eauto.
  rewrite (proj2 (action_noop_iff _ _)); [done|].
  apply agrees_display. repeat constructor; done.
Qed.

Lemma py_eq_str (x : pyval) (s : string) : py_eq x (VStr s) = true → x = VStr s.
Proof.
  destruct x; simpl; try done. intros H. f_equal. by apply String.eqb_eq.
Qed.

Lemma or_empty_get_str (v : pyval) (key s : string) :
  or_empty_get v key = VStr s → truthy v = true.
Proof. destruct v as [ | | | | |[|kv d]]; simpl; done. Qed.

Lemma interface_proposal_noop (state : DeviceState) (iface : NormalizedInterface) :
  interface_in_sync state iface →
  p_action (interface_proposal (st_interfaces state) iface) = noop.
Proof.
  intros (data & Hd & Ht & H1 & H2 & H3 & H4).
  unfold interface_proposal. rewrite Hd, Ht.
  rewrite bool_decide_eq_true_2 by eauto.
  rewrite (proj2 (action_noop_iff _ _)); [done|].
  destruct (ostr_truthy (i_lag iface)) eqn:Hlag.
  - specialize (H4 eq_refl). destruct (i_lag iface) as [l|]; [|done].
    simpl in Hlag, H4 |- *.
    pose proof (py_eq_str _ _ H4) as E. rewrite E.
    rewrite (or_empty_get_str _ _ _ E). simpl. unfold str_truthy in Hlag.
    rewrite Hlag. simpl.
    apply (agrees_display
             [ ("lag", VStr l); ("type", VStr (i_type_slug iface));
               ("enabled", VBool (i_enabled iface));
               ("description", of_ostr (i_description iface)) ]).
    repeat constructor; try done. simpl. unfold dict_get.
    rewrite lookup_insert_eq. simpl. apply String.eqb_refl.
  - apply agrees_display.
    destruct (truthy (items_get data "lag") &&
              truthy (or_empty_get (items_get data "lag") "name"));
      repeat constructor; done.
Qed.

Lemma sorted_names_nonempty (l : list string) :
  l ≠ [] → sorted_names (list_to_set l) ≠ [].
Proof.
  destruct l as [|x l]; [done|]. intros _ E.
  assert (Hx : x ∈ sorted_names (list_to_set (x :: l))).
  { apply elem_of_sorted_names, elem_of_list_to_set. left. }
  rewrite E in Hx. by apply elem_of_nil in Hx.
Qed.

(** A LAG whose remote members are its desired, non-empty, members is
    left alone. *)
Lemma lag_proposal_noop (state : DeviceState) (lag : NormalizedLag) :
  lag_in_sync state lag → l_members lag ≠ [] →
  p_action (lag_proposal (st_lag_membership state) (st_interfaces state) lag)
  = noop.
Proof.
  intros [Hex Hmem] Hne. unfold lag_proposal. rewrite Hmem.
  pose proof (sorted_names_nonempty _ Hne) as Hs.
  destruct (sorted_names (list_to_set (l_members lag))) as [|x l] eqn:E; [done|].
  rewrite bool_decide_eq_true_2 by done.
  rewrite (proj2 (action_noop_iff _ _)); [done|].
  intros k v [<- <-]%lookup_singleton_Some. unfold dict_get.
  rewrite lookup_singleton_eq. apply py_eq_refl.
Qed.

(** A LAG without desired members whose interface exists is planned as
    [update], whatever the remote membership is, the empty one included. *)
Lemma lag_proposal_no_members (membership : gmap string (gset string))
    (interfaces : gmap string (list (string * pyval))) (lag : NormalizedLag) :
  is_Some (interfaces !! l_name lag) → l_members lag = [] →
  p_action (lag_proposal membership interfaces lag) = update.
Proof.
  intros Hex Hnil. unfold lag_proposal. rewrite Hnil.
  rewrite bool_decide_eq_true_2 by done.
  assert (E : sorted_names (list_to_set []) = []) by (vm_compute; reflexivity).
  rewrite E. unfold _action_and_diff. cbn [negb].
  destruct (sorted_names (default ∅ (membership !! l_name lag))) as [|x l].
  - assert (D : _diff {[ "members" := of_strs [] ]} None
                = {[ "members" := of_strs [] ]}).
    { unfold _diff, non_null_fields. by rewrite map_filter_singleton_True. }
    rewrite D. unfold dict_truthy.
    rewrite bool_decide_eq_false_2; [done|]. apply insert_non_empty.
  - assert (D : _diff {[ "members" := of_strs [] ]}
                  (Some {[ "members" := of_strs (x :: l) ]})
                = {[ "members" := of_strs [] ]}).
    { rewrite _diff_loop_filter. by rewrite map_filter_singleton_True. }
    rewrite D. unfold dict_truthy.
    rewrite bool_decide_eq_false_2; [done|]. apply insert_non_empty.
Qed.

(** Planning against a remote system that matches the inventory yields
    [noop] for every proposal, provided every LAG of the inventory has at
    least one member. *)
Lemma build_in_sync_all_noop (nb : NetBox) (inventory : NormalizedInventory) :
  in_sync nb inventory →
  Forall (λ lag, l_members lag ≠ []) (lags inventory) →
  ∃ batch, build nb inventory = Ok batch
           ∧ Forall (λ p, p_action p = noop) (actions batch).
Proof.
  intros (record & Hget & Hdev & Hbays & Hmods & Hifs & Hlags) Hmembers.
  unfold build. rewrite Hget. simpl. eexists. split; [done|].
  unfold actions. simpl. constructor; [by apply device_proposal_noop|].
  rewrite !Forall_app. split_and!.
  - apply Forall_fmap. eapply Forall_impl; [exact Hbays|].
    intros bay. apply module_bay_proposal_noop.
  - apply Forall_fmap. eapply Forall_impl; [exact Hmods|].
    intros module. apply module_proposal_noop.
  - unfold _interfaces_proposals. apply Forall_fmap.
    rewrite (py_sorted_perm iface_leb (interfaces inventory)).
    eapply Forall_impl; [exact Hifs|].
    intros iface. apply interface_proposal_noop.
  - unfold _lag_proposals. destruct (lags inventory) as [|lag rest] eqn:E;
      [constructor|].
    rewrite <- E in *. clear E lag rest. apply Forall_fmap.
    rewrite Forall_forall in Hlags, Hmembers. apply Forall_forall.
    intros lag Hlag. apply lag_proposal_noop; auto.
Qed.

Lemma sync_remote_in_sync : in_sync sync_remote sync_inventory.
Proof.
  eexists. split; [vm_compute; reflexivity|]. split_and!.
  - unfold device_in_sync. split_and!; vm_compute; reflexivity.
  - repeat constructor. eexists. split; [vm_compute; reflexivity|].
    split_and!; vm_compute; reflexivity.
  - repeat constructor. eexists. split; [vm_compute; reflexivity|].
    split_and!; vm_compute; reflexivity.
  - repeat constructor; (eexists; split; [vm_compute; reflexivity|]);
      split_and!; try (vm_compute; reflexivity);
      try (intros _; vm_compute; reflexivity).
  - repeat apply Forall_cons_2; [| |apply Forall_nil_2];
      (split; [vm_compute; eauto|vm_compute; reflexivity]).
Qed.

(** C1, the failing input. The remote system matches the inventory, the
    LAG ["LAG 1"] without members included, and yet the plan is not all
    [noop]: the proposal of that LAG is [update]. Applying the LAG
    proposals then writes nothing and leaves the remote system as it was,
    so that the plan computed after the apply is the same again. *)
Theorem C1_empty_lag_planned_as_update :
  in_sync sync_remote sync_inventory
  ∧ ∃ batch,
      build sync_remote sync_inventory = Ok batch
      ∧ plan_of batch =
          [ ("device", "SIM-SROS-01", noop);
            ("module_bay", "Card A", noop);
            ("module", "Card A:mda-imm-24", noop);
            ("interface", "LAG 1", noop);
            ("interface", "LAG 2", noop);
            ("interface", "1/1/1", noop);
            ("lag", "LAG 1", update);
            ("lag", "LAG 2", noop) ]
      ∧ _apply_lag_membership (mkWorld sync_remote []) 7 (b_lags batch)
        = (mkWorld sync_remote [], Ok ()).
Proof.
  split; [exact sync_remote_in_sync|].
  eexists. split; [vm_compute; reflexivity|].
  split; vm_compute; reflexivity.
Qed.

(** Plan idempotence where it holds: the same remote system against the
    inventory whose LAGs all have members. *)
Lemma build_in_sync_instance :
  ∃ batch, build sync_remote sync_inventory_with_members = Ok batch
           ∧ Forall (λ p, p_action p = noop) (actions batch).
Proof.
  apply (build_in_sync_all_noop sync_remote sync_inventory_with_members).
  - destruct sync_remote_in_sync as (record & H1 & H2 & H3 & H4 & H5 & H6).
    exists record. split_and!; try done.
    apply Forall_cons in H6 as [_ H6]. exact H6.
  - repeat constructor. discriminate.
Defined.

(** ** Further properties *)

(** The loop of [slugify] ends: with the fuel of the model, and with any
    larger fuel, it leaves by its condition, no double hyphen being left,
    and returns the string with every run of hyphens squeezed to one. *)
Theorem slugify_loop_terminates :
  ∀ (s : string) (extra : nat),
    has_double_hyphen (collapse_hyphens s) = false
    ∧ collapse_hyphens s = squeeze_from false s
    ∧ collapse_loop (String.length s + extra) s = collapse_hyphens s.
Proof.
  intros s extra. split_and!.
  - apply collapse_hyphens_done.
  - apply collapse_hyphens_squeeze.
  - rewrite collapse_hyphens_squeeze. apply collapse_loop_exits. lia.
Qed.



(** The plan for a LAG without members, for the record: [update] although
    the remote LAG has no member either. *)
Lemma lag_proposal_no_members_instance :
  p_action (lag_proposal ∅ {[ "LAG 1" := [("name", VStr "LAG 1")] ]}
              (mkLag "LAG 1" None [] true [])) = update.
Proof.
  apply (lag_proposal_no_members ∅ {[ "LAG 1" := [("name", VStr "LAG 1")] ]}
           (mkLag "LAG 1" None [] true [])).
  - simpl. rewrite lookup_singleton_eq. eauto.
  - reflexivity.
Defined.

(** Among the strings of code points below 256, the two slugifications
    differ on every string that holds an alphanumeric character beyond
    ASCII: [slugify] keeps such a character, and [_slugify] writes
    characters of [[a-z0-9]] and hyphens only. *)
Theorem slugify_differ_beyond_ascii :
  ∀ s : string,
    str_forallb alnum_is_ascii s = false →
    str_existsb (λ c, negb (alnum_is_ascii c)) (slugify s) = true
    ∧ str_forallb slug_or_hyphen (_slugify s) = true
    ∧ slugify s ≠ _slugify s.
Proof.
  intros s H. pose proof (slugify_keeps_non_ascii s H) as Hex.
  pose proof (_slugify_chars s) as Hall. split_and!; [done..|].
  intros E. rewrite E in Hex. clear E H.
  induction (_slugify s) as [|c t IH]; [done|].
  simpl in Hex, Hall. apply andb_true_iff in Hall as [Hc Hall].
  apply orb_true_iff in Hex as [Hex|Hex]; [|by apply IH].
  apply negb_true_iff in Hex.
  destruct (not_ascii_alnum_facts c Hex) as (_ & _ & _ & _ & Hs). congruence.
Qed.

Lemma slugify_differ_instance :
  str_existsb (λ c, negb (alnum_is_ascii c))
    (slugify (String (ascii_of_nat 201) "cole")) = true
  ∧ str_forallb slug_or_hyphen (_slugify (String (ascii_of_nat 201) "cole")) = true
  ∧ slugify (String (ascii_of_nat 201) "cole")
    ≠ _slugify (String (ascii_of_nat 201) "cole").
Proof.
  apply (slugify_differ_beyond_ascii (String (ascii_of_nat 201) "cole")).
  reflexivity.
Defined.

(** ** The shape of a plan *)

Lemma non_null_nonempty (desired : gmap string pyval) (k : string) (v : pyval) :
  desired !! k = Some v → is_none v = false → non_null_fields desired ≠ ∅.
Proof.
  intros Hk Hv E.
  assert (H : non_null_fields desired !! k = Some v).
  { unfold non_null_fields. by apply map_lookup_filter_Some. }
  by rewrite E, lookup_empty in H.
Qed.

Lemma action_and_diff_wf (desired : gmap string pyval)
    (current : option (gmap string pyval)) (exists_ : bool)
    (model identifier : string) :
  non_null_fields desired ≠ ∅ →
  proposal_wf (let '(action, diff) := _action_and_diff desired current exists_ in
               mkProposal action model identifier desired current diff).
Proof.
  intros Hnn. unfold _action_and_diff, proposal_wf, dict_truthy.
  destruct exists_; cbn [negb].
  - destruct (decide (_diff desired current = ∅)) as [E|E].
    + rewrite bool_decide_eq_true_2 by done. simpl. split_and!; done.
    + rewrite bool_decide_eq_false_2 by done. simpl. split_and!; try done.
      intros diff [= <-]. split; [done|apply _diff_subseteq].
  - simpl. rewrite bool_decide_eq_false_2 by done. simpl. split_and!; try done.
    intros diff [= <-]. split; [done|apply map_filter_subseteq].
Qed.


Lemma device_proposal_wf (inventory : NormalizedInventory)
    (existing_device : option NbDevice) :
  proposal_wf (_device_proposal inventory existing_device).
Proof.
  unfold _device_proposal. cbv zeta. apply action_and_diff_wf.
  by apply (non_null_nonempty _ "name" (VStr (d_name (device inventory)))).
Qed.

Lemma module_bay_proposal_wf (bay : NormalizedModuleBay)
    (state : option DeviceState) :
  proposal_wf (_module_bay_proposal bay state).
Proof.
  unfold _module_bay_proposal. cbv zeta. apply action_and_diff_wf.
  by apply (non_null_nonempty _ "name" (VStr (mb_name bay))).
Qed.

Lemma module_proposal_wf (module : NormalizedModule)
    (state : option DeviceState) :
  proposal_wf (_module_proposal module state).
Proof.
  unfold _module_proposal. cbv zeta. apply action_and_diff_wf.
  by apply (non_null_nonempty _ "bay_name" (VStr (m_bay_name module))).
Qed.

Lemma interface_proposal_wf (existing_map : gmap string (list (string * pyval)))
    (iface : NormalizedInterface) :
  proposal_wf (interface_proposal existing_map iface).
Proof.
  unfold interface_proposal. cbv zeta. apply action_and_diff_wf.
  destruct (ostr_truthy (i_lag iface)).
  - by apply (non_null_nonempty _ "type" (VStr (i_type_slug iface))).
  - by apply (non_null_nonempty _ "type" (VStr (i_type_slug iface))).
Qed.

Lemma lag_proposal_wf (membership : gmap string (gset string))
    (interfaces : gmap string (list (string * pyval))) (lag : NormalizedLag) :
  proposal_wf (lag_proposal membership interfaces lag).
Proof.
  unfold lag_proposal. cbv zeta. apply action_and_diff_wf.
  eapply (non_null_nonempty _ "members"); [apply lookup_singleton_eq|done].
Qed.

Lemma build_proposals_wf (nb : NetBox) (inventory : NormalizedInventory)
    (batch : ProposalBatch) :
  build nb inventory = Ok batch → Forall proposal_wf (actions batch).
Proof.
  unfold build. destruct (devices_get nb _) as [existing|msg]; [|done].
  simpl. intros [= <-]. unfold actions. simpl. constructor.
  - apply device_proposal_wf.
  - rewrite !Forall_app. split_and!.
    + apply Forall_fmap, Forall_forall. intros bay _. apply module_bay_proposal_wf.
    + apply Forall_fmap, Forall_forall. intros m _. apply module_proposal_wf.
    + unfold _interfaces_proposals. apply Forall_fmap, Forall_forall.
      intros i _. apply interface_proposal_wf.
    + unfold _lag_proposals. destruct (lags inventory) as [|lag0 rest]; [constructor|].
      apply Forall_fmap, Forall_forall. intros lag _. apply lag_proposal_wf.
Qed.

Lemma action_and_diff_absent (desired : gmap string pyval)
    (model identifier : string) :
  non_null_fields desired ≠ ∅ →
  planned_create (let '(action, diff) := _action_and_diff desired None false in
                  mkProposal action model identifier desired None diff).
Proof.
  intros Hnn. unfold _action_and_diff, planned_create, dict_truthy. simpl.
  by rewrite bool_decide_eq_false_2.
Qed.

Lemma build_without_device (nb : NetBox) (inventory : NormalizedInventory) :
  devices_get nb (d_name (device inventory)) = Ok None →
  ∃ batch, build nb inventory = Ok batch
           ∧ Forall planned_create (actions batch).
Proof.
  intros Hget. unfold build. rewrite Hget. simpl. eexists. split; [done|].
  unfold actions. simpl. constructor.
  - unfold _device_proposal. cbv zeta.
    apply (action_and_diff_absent _ "device").
    by apply (non_null_nonempty _ "name" (VStr (d_name (device inventory)))).
  - rewrite !Forall_app. split_and!.
    + apply Forall_fmap, Forall_forall. intros bay _.
      unfold _module_bay_proposal. cbv zeta.
      apply (action_and_diff_absent _ "module_bay").
      by apply (non_null_nonempty _ "name" (VStr (mb_name bay))).
    + apply Forall_fmap, Forall_forall. intros m _.
      unfold _module_proposal. cbv zeta.
      apply (action_and_diff_absent _ "module").
      by apply (non_null_nonempty _ "bay_name" (VStr (m_bay_name m))).
    + unfold _interfaces_proposals. apply Forall_fmap, Forall_forall.
      intros i _. unfold compose, interface_proposal. cbv beta zeta.
      rewrite lookup_empty.
      apply (action_and_diff_absent _ "interface").
      destruct (ostr_truthy (i_lag i));
        by apply (non_null_nonempty _ "type" (VStr (i_type_slug i))).
    + unfold _lag_proposals. destruct (lags inventory) as [|lag0 rest]; [constructor|].
      apply Forall_fmap, Forall_forall. intros lag _.
      unfold compose, lag_proposal. cbv beta zeta. rewrite !lookup_empty. simpl.
      assert (E : sorted_names ∅ = []) by (vm_compute; reflexivity).
      rewrite E.
      apply (action_and_diff_absent _ "lag").
      eapply (non_null_nonempty _ "members"); [apply lookup_singleton_eq|done].
Qed.





Lemma action_and_diff_identifier (desired : gmap string pyval)
    (current : option (gmap string pyval)) (exists_ : bool)
    (model identifier : string) :
  p_identifier (let '(action, diff) := _action_and_diff desired current exists_ in
                mkProposal action model identifier desired current diff)
  = identifier.
Proof. by destruct (_action_and_diff desired current exists_). Qed.


(** ** The frame of the LAG pass *)

Lemma same_but_lag_refl (nb : NetBox) : same_but_lag nb nb.
Proof. by split_and!. Qed.

Lemma same_but_lag_trans (a b c : NetBox) :
  same_but_lag a b → same_but_lag b c → same_but_lag a c.
Proof.
  intros (A1 & A2 & A3 & A4) (B1 & B2 & B3 & B4).
  split_and!; congruence.
Qed.

Lemma set_lag_same (nb : NetBox) (id : Z) (lag : option Z) :
  same_but_lag nb (interface_set_lag nb id lag).
Proof.
  unfold same_but_lag, interface_set_lag. simpl. split_and!; try done.
  rewrite <- list_fmap_compose. apply list_fmap_ext. intros k i _. simpl.
  by case_decide.
Qed.

Lemma same_but_lag_ids (nb nb' : NetBox) :
  same_but_lag nb nb' →
  if_id <$> nb_interfaces nb' = if_id <$> nb_interfaces nb
  ∧ iface_owner_name <$> nb_interfaces nb' = iface_owner_name <$> nb_interfaces nb.
Proof.
  intros (_ & _ & _ & H). split.
  - assert (E : ∀ l : list NbInterface,
               if_id <$> l = (λ t : Z * Z * string * list (string * pyval),
                                t.1.1.1) <$> (iface_identity <$> l)).
    { intros l. rewrite <- list_fmap_compose. done. }
    by rewrite !E, H.
  - assert (E : ∀ l : list NbInterface,
               iface_owner_name <$> l
               = (λ t : Z * Z * string * list (string * pyval),
                    (t.1.1.2, t.1.2)) <$> (iface_identity <$> l)).
    { intros l. rewrite <- list_fmap_compose. done. }
    by rewrite !E, H.
Qed.

Lemma same_but_lag_wf (nb nb' : NetBox) :
  same_but_lag nb nb' → interfaces_wf nb → interfaces_wf nb'.
Proof.
  intros [E1 E2]%same_but_lag_ids [H1 H2]. split; [by rewrite E1|by rewrite E2].
Qed.

Lemma same_but_lag_has_interface (nb nb' : NetBox) (d : Z) (n : string) :
  same_but_lag nb nb' → has_interface nb' d n ↔ has_interface nb d n.
Proof.
  intros [_ E]%same_but_lag_ids. by rewrite !has_interface_owner_name, E.
Qed.

Lemma interfaces_get_Some (nb : NetBox) (device_id : Z) (name : string)
    (i : NbInterface) :
  interfaces_get nb device_id name = Ok (Some i) →
  i ∈ nb_interfaces nb ∧ if_device i = device_id ∧ if_name i = name.
Proof.
  unfold interfaces_get.
  destruct (filter _ (nb_interfaces nb)) as [|x [|y l]] eqn:E; simpl; try done.
  intros [= ->].
  assert (H : i ∈ filter (λ i, if_device i = device_id ∧ if_name i = name)
                (nb_interfaces nb)) by (rewrite E; left).
  apply list_elem_of_filter in H as [[H1 H2] H3]. done.
Qed.

Lemma lag_pass_frame_refl (d : Z) (w : world) : lag_pass_frame d w w.
Proof.
  split_and!; [apply same_but_lag_refl| |done].
  exists []. by rewrite app_nil_r.
Qed.

Lemma lag_pass_frame_trans (d : Z) (a b c : world) :
  lag_pass_frame d a b → lag_pass_frame d b c → lag_pass_frame d a c.
Proof.
  intros (A1 & [m1 A2] & A3) (B1 & [m2 B2] & B3). split_and!.
  - by eapply same_but_lag_trans.
  - exists (m1 ++ m2). by rewrite B2, A2, app_assoc.
  - intros Hwf i Hi Hd. apply B3; [by eapply same_but_lag_wf|by apply A3|done].
Qed.

Lemma issue_update_frame (d : Z) (w : world) (iface : NbInterface)
    (lag : option Z) :
  iface ∈ nb_interfaces (remote w) → if_device iface = d →
  lag_pass_frame d w (issue_update w iface lag).
Proof.
  intros Hin Hd. split_and!; simpl.
  - apply set_lag_same.
  - eauto.
  - intros [Hid _] i Hi Hne. apply set_lag_elem_of. exists i. split; [done|].
    rewrite decide_False; [done|]. intros E.
    assert (i = iface) by by eapply (NoDup_fmap_inj_on if_id).
    congruence.
Qed.

Lemma add_members_frame (d lag_id : Z) (lag_name : string)
    (members : list string) (w : world) :
  lag_pass_frame d w (add_members w d lag_id lag_name members).1.
Proof.
  revert w. induction members as [|member rest IH]; intros w; simpl.
  - apply lag_pass_frame_refl.
  - destruct (interfaces_get (remote w) d member) as [[iface|]|msg] eqn:E;
      simpl; try apply lag_pass_frame_refl.
    apply interfaces_get_Some in E as (Hin & Hd & _).
    eapply lag_pass_frame_trans; [by apply issue_update_frame|apply IH].
Qed.

Lemma remove_members_frame (d : Z) (members : list string) (w : world) :
  lag_pass_frame d w (remove_members w d members).1.
Proof.
  revert w. induction members as [|member rest IH]; intros w; simpl.
  - apply lag_pass_frame_refl.
  - destruct (interfaces_get (remote w) d member) as [[iface|]|msg] eqn:E;
      simpl; try apply lag_pass_frame_refl; [|apply IH].
    apply interfaces_get_Some in E as (Hin & Hd & _).
    eapply lag_pass_frame_trans; [by apply issue_update_frame|apply IH].
Qed.

Lemma apply_lag_proposal_frame (d : Z) (proposal : Proposal) (w : world) :
  lag_pass_frame d w (apply_lag_proposal w d proposal).1.
Proof.
  unfold apply_lag_proposal. case_decide; [apply lag_pass_frame_refl|].
  destruct (interfaces_get (remote w) d (p_identifier proposal))
    as [[lag_iface|]|msg]; simpl; try apply lag_pass_frame_refl.
  match goal with |- context [add_members ?a ?b ?c ?e ?f] =>
    pose proof (add_members_frame b c e f a) as H1;
    destruct (add_members a b c e f) as [w1 [[]|msg]] end; simpl in *; [|done].
  eapply lag_pass_frame_trans; [exact H1|apply remove_members_frame].
Qed.

Lemma apply_lag_membership_frame (d : Z) (proposals : list Proposal) (w : world) :
  lag_pass_frame d w (_apply_lag_membership w d proposals).1.
Proof.
  revert w. induction proposals as [|p ps IH]; intros w; simpl.
  - apply lag_pass_frame_refl.
  - pose proof (apply_lag_proposal_frame d p w) as H1.
    destruct (apply_lag_proposal w d p) as [w1 [[]|msg]]; simpl in *; [|done].
    eapply lag_pass_frame_trans; [exact H1|apply IH].
Qed.

(** ** The LAG pass over several LAGs *)

(** An interface refers to one LAG at most. *)
Lemma current_members_unique (nb : NetBox) (d l1 l2 : Z) (n : string) :
  interfaces_wf nb →
  n ∈ current_members_of nb d l1 → n ∈ current_members_of nb d l2 → l1 = l2.
Proof.
  intros [_ Hkey] (i & Hi & Hd & Hl & Hn)%elem_of_current_members
    (j & Hj & Hd' & Hl' & Hn')%elem_of_current_members.
  assert (i = j) as ->.
  { eapply (NoDup_fmap_inj_on iface_owner_name); eauto.
    unfold iface_owner_name. congruence. }
  congruence.
Qed.

Lemma same_but_lag_elem_of (nb nb' : NetBox) (i : NbInterface) :
  same_but_lag nb nb' → i ∈ nb_interfaces nb →
  ∃ i', i' ∈ nb_interfaces nb' ∧ iface_identity i' = iface_identity i.
Proof.
  intros (_ & _ & _ & E) Hi.
  assert (H : iface_identity i ∈ iface_identity <$> nb_interfaces nb')
    by (rewrite E; by apply list_elem_of_fmap_2).
  apply list_elem_of_fmap in H as (i' & H1 & H2). eauto.
Qed.

Lemma remote_lag_members_eq (nb : NetBox) (d : Z) (i : NbInterface) :
  interfaces_wf nb → i ∈ nb_interfaces nb → if_device i = d →
  remote_lag_members nb d (if_name i) = current_members_of nb d (if_id i).
Proof.
  intros Hwf Hi <-. unfold remote_lag_members.
  by rewrite (interfaces_get_found _ _ Hwf Hi).
Qed.

(** The members added to a LAG leave the LAG they were in. *)
Lemma add_members_other (d lag_id : Z) (lag_name : string)
    (members : list string) (w : world) (lid : Z) :
  interfaces_wf (remote w) →
  (∀ m, m ∈ members → has_interface (remote w) d m) →
  lid ≠ lag_id →
  ∀ n, n ∈ current_members_of
             (remote (add_members w d lag_id lag_name members).1) d lid
       ↔ n ∈ current_members_of (remote w) d lid ∧ n ∉ members.
Proof.
  intros Hwf Hex Hne. revert w Hwf Hex.
  induction members as [|member rest IH]; intros w Hwf Hex n.
  - simpl. rewrite elem_of_nil. tauto.
  - destruct (has_interface_get _ _ _ Hwf (Hex member ltac:(left)))
      as (iface & Hin & Hd & Hn & Hget).
    simpl. rewrite Hget. rewrite IH.
    + simpl. rewrite <- Hd.
      rewrite (set_lag_members _ _ _ _ _ Hwf Hin), not_elem_of_cons, Hn.
      split; [|intuition congruence].
      intros [[[_ [=]]|[? ?]] ?]; [congruence|tauto].
    + by apply set_lag_wf.
    + intros m Hm. apply set_lag_has_interface, Hex. by right.
Qed.

(** One proposal applied: the LAG has its desired members, and every
    other LAG has lost the interfaces that were asked for. *)
Lemma apply_lag_proposal_effect (w : world) (d : Z) (proposal : Proposal)
    (lag_iface : NbInterface) :
  p_action proposal ≠ noop →
  interfaces_wf (remote w) →
  lag_iface ∈ nb_interfaces (remote w) →
  if_device lag_iface = d →
  if_name lag_iface = p_identifier proposal →
  (∀ m, m ∈ desired_members_of proposal → has_interface (remote w) d m) →
  ∃ w',
    apply_lag_proposal w d proposal = (w', Ok ())
    ∧ ∀ lid n,
        n ∈ current_members_of (remote w') d lid ↔
        if decide (lid = if_id lag_iface)
        then n ∈ desired_members_of proposal
        else n ∈ current_members_of (remote w) d lid
             ∧ n ∉ desired_members_of proposal.
Proof.
  intros Hact Hwf Hlag Hd Hn Hex.
  destruct (apply_lag_proposal_ok w d proposal lag_iface Hact Hwf Hlag Hd Hn Hex)
    as (w' & E & _ & _ & Hown).
  exists w'. split; [done|]. intros lid n. case_decide as Hlid.
  { subst lid. by rewrite Hown, elem_of_list_to_set. }
  revert E. unfold apply_lag_proposal. rewrite decide_False by done.
  rewrite <- Hn, <- Hd, (interfaces_get_found _ _ Hwf Hlag), Hd.
  set (current := current_members_of (remote w) d (if_id lag_iface)).
  set (desired := list_to_set (desired_members_of proposal) : gset string).
  assert (Hex1 : ∀ m, m ∈ sorted_names (desired ∖ current) →
                      has_interface (remote w) d m).
  { intros m Hm%elem_of_sorted_names. apply Hex.
    apply elem_of_difference in Hm as [Hm _].
    by apply elem_of_list_to_set in Hm. }
  pose proof (add_members_other d (if_id lag_iface) (if_name lag_iface)
                (sorted_names (desired ∖ current)) w lid Hwf Hex1 Hlid n) as Hoth.
  destruct (add_members_ok d (if_id lag_iface) (if_name lag_iface)
              (sorted_names (desired ∖ current)) w Hwf Hex1)
    as (w1 & E1 & _ & Hwf1 & Hhas1 & _).
  rewrite E1 in Hoth |- *. simpl in Hoth.
  destruct (remove_members_ok d lid (sorted_names (current ∖ desired)) w1 Hwf1)
    as (w2 & E2 & _ & _ & Hmem2).
  { intros m Hm%elem_of_sorted_names. apply Hhas1.
    apply elem_of_difference in Hm as [Hm _].
    by eapply current_member_has_interface. }
  rewrite E2. intros [= <-]. rewrite Hmem2, Hoth.
  rewrite !elem_of_sorted_names, !elem_of_difference.
  unfold desired. rewrite elem_of_list_to_set. fold current. split.
  - intros [[H1 H2] H3]. split; [done|]. intros Hdes.
    apply H2. split; [done|]. intros Hcur.
    exact (Hlid (current_members_unique _ _ _ _ _ Hwf H1 Hcur)).
  - intros [H1 H2]. split_and!; [done|tauto|].
    intros [Hcur _].
    exact (Hlid (current_members_unique _ _ _ _ _ Hwf H1 Hcur)).
Qed.

Lemma apply_lag_proposal_named (w : world) (d : Z) (proposal : Proposal) :
  p_action proposal ≠ noop →
  interfaces_wf (remote w) →
  has_interface (remote w) d (p_identifier proposal) →
  (∀ m, m ∈ desired_members_of proposal → has_interface (remote w) d m) →
  ∃ w',
    apply_lag_proposal w d proposal = (w', Ok ())
    ∧ ∀ name n,
        has_interface (remote w) d name →
        n ∈ remote_lag_members (remote w') d name ↔
        if decide (name = p_identifier proposal)
        then n ∈ desired_members_of proposal
        else n ∈ remote_lag_members (remote w) d name
             ∧ n ∉ desired_members_of proposal.
Proof.
  intros Hact Hwf (lag_iface & Hlag & Hd & Hn) Hex.
  destruct (apply_lag_proposal_effect w d proposal lag_iface
              Hact Hwf Hlag Hd Hn Hex) as (w' & E & Hcm).
  exists w'. split; [done|]. intros name n (j & Hj & Hjd & Hjn).
  pose proof (apply_lag_proposal_frame d proposal w) as (Hsame & _ & _).
  rewrite E in Hsame. simpl in Hsame.
  destruct (same_but_lag_elem_of _ _ j Hsame Hj) as (j' & Hj' & Hid).
  unfold iface_identity in Hid. injection Hid as Hid1 Hid2 Hid3 _.
  pose proof (same_but_lag_wf _ _ Hsame Hwf) as Hwf'.
  rewrite <- Hjn at 1.
  rewrite <- Hid3, (remote_lag_members_eq (remote w') d j' Hwf' Hj') by congruence.
  rewrite Hid1, Hcm.
  assert (Hiff : if_id j = if_id lag_iface ↔ name = p_identifier proposal).
  { destruct Hwf as [Hids Hkey]. split.
    - intros Hi. assert (j = lag_iface) by by eapply (NoDup_fmap_inj_on if_id).
      congruence.
    - intros Hname. assert (j = lag_iface); [|congruence].
      eapply (NoDup_fmap_inj_on iface_owner_name); eauto.
      unfold iface_owner_name. congruence. }
  destruct (decide (if_id j = if_id lag_iface)) as [Hi|Hi].
  - rewrite decide_True by by apply Hiff. done.
  - rewrite decide_False by (by rewrite <- Hiff).
    rewrite <- Hjn, (remote_lag_members_eq (remote w) d j Hwf Hj Hjd). done.
Qed.

Lemma lag_pass_settles (d : Z) (proposals : list Proposal) :
  ∀ w : world,
    interfaces_wf (remote w) →
    NoDup (p_identifier <$> proposals) →
    disjoint_members proposals →
    Forall (lag_ready (remote w) d) proposals →
    ∃ w',
      _apply_lag_membership w d proposals = (w', Ok ())
      ∧ Forall (lag_settled (remote w') d) proposals
      ∧ ∀ name n,
          has_interface (remote w) d name →
          name ∉ p_identifier <$> proposals →
          (n ∈ remote_lag_members (remote w') d name →
           n ∈ remote_lag_members (remote w) d name)
          ∧ (n ∈ remote_lag_members (remote w) d name →
             Forall (λ p, n ∉ desired_members_of p) proposals →
             n ∈ remote_lag_members (remote w') d name).
Proof.
  induction proposals as [|p ps IH]; intros w Hwf Hnd Hdis Hready.
  - exists w. simpl. split_and!; [done|constructor|]. intros; tauto.
  - rewrite fmap_cons in Hnd. apply NoDup_cons in Hnd as [Hp Hnd].
    destruct Hdis as [Hdp Hdis].
    apply Forall_cons in Hready as [(Hlag & Hex & Hnoop) Hready].
    rewrite Forall_forall in Hdp.
    assert (Hstep : ∃ w1,
      apply_lag_proposal w d p = (w1, Ok ())
      ∧ same_but_lag (remote w) (remote w1)
      ∧ lag_settled (remote w1) d p
      ∧ ∀ name n, has_interface (remote w) d name → name ≠ p_identifier p →
          n ∈ remote_lag_members (remote w1) d name ↔
          n ∈ remote_lag_members (remote w) d name
          ∧ (p_action p ≠ noop → n ∉ desired_members_of p)).
    { destruct (decide (p_action p = noop)) as [Hact|Hact].
      - exists w. unfold apply_lag_proposal. rewrite decide_True by done.
        split_and!; [done|apply same_but_lag_refl|by apply Hnoop|].
        intros name n _ _. tauto.
      - destruct (apply_lag_proposal_named w d p Hact Hwf Hlag Hex)
          as (w1 & E & Heff).
        exists w1. split_and!; [done| | |].
        + pose proof (apply_lag_proposal_frame d p w) as (Hs & _ & _).
          by rewrite E in Hs.
        + unfold lag_settled. apply set_eq. intros n.
          rewrite (Heff _ n Hlag), decide_True by done.
          by rewrite elem_of_list_to_set.
        + intros name n Hhas Hne. rewrite (Heff _ n Hhas), decide_False by done.
          tauto. }
    destruct Hstep as (w1 & E1 & Hsame1 & Hset1 & Hoth1).
    pose proof (same_but_lag_wf _ _ Hsame1 Hwf) as Hwf1.
    assert (Hnames : ∀ q, q ∈ ps → p_identifier q ≠ p_identifier p).
    { intros q Hq Heq. apply Hp. rewrite <- Heq. by apply list_elem_of_fmap_2. }
    destruct (IH w1 Hwf1 Hnd Hdis) as (w' & E & Hall & Hframe).
    { rewrite Forall_forall in Hready |- *. intros q Hq.
      destruct (Hready q Hq) as (Hqlag & Hqex & Hqnoop). split_and!.
      - by apply (same_but_lag_has_interface _ _ _ _ Hsame1).
      - intros m Hm. by apply (same_but_lag_has_interface _ _ _ _ Hsame1), Hqex.
      - intros Hqa. apply set_eq. intros n.
        rewrite (Hoth1 _ n Hqlag (Hnames q Hq)), (Hqnoop Hqa).
        rewrite elem_of_list_to_set. split; [tauto|].
        intros Hn. split; [done|]. intros _ Hpn. by apply (Hdp q Hq n). }
    exists w'. simpl. rewrite E1. split_and!; [done| |].
    + constructor; [|done]. unfold lag_settled in *. apply set_eq. intros n.
      assert (Hlag1 : has_interface (remote w1) d (p_identifier p))
        by by apply (same_but_lag_has_interface _ _ _ _ Hsame1).
      destruct (Hframe (p_identifier p) n Hlag1 Hp) as [Hin Hout].
      rewrite Hset1 in Hin, Hout. split; [done|].
      intros Hn. apply Hout; [done|]. apply Forall_forall. intros q Hq.
      apply (Hdp q Hq). by apply elem_of_list_to_set in Hn.
    + intros name n Hhas Hnot.
      apply not_elem_of_cons in Hnot as [Hne Hnot].
      assert (Hhas1 : has_interface (remote w1) d name)
        by by apply (same_but_lag_has_interface _ _ _ _ Hsame1).
      destruct (Hframe name n Hhas1 Hnot) as [Hin Hout]. split.
      * intros Hn. by apply (Hoth1 _ n Hhas Hne), Hin.
      * intros Hn Hfree. apply Forall_cons in Hfree as [Hfp Hfree].
        apply Hout; [|done]. apply (Hoth1 _ n Hhas Hne). tauto.
Qed.

(** With every LAG settled, the pass reads and writes nothing more. *)
Lemma lag_pass_silent (d : Z) (proposals : list Proposal) (w : world) :
  interfaces_wf (remote w) →
  Forall (λ p, has_interface (remote w) d (p_identifier p)
               ∧ lag_settled (remote w) d p) proposals →
  _apply_lag_membership w d proposals = (w, Ok ()).
Proof.
  intros Hwf Hall. induction Hall as [|p ps [Hlag Hset] _ IH]; [done|].
  simpl. assert (E : apply_lag_proposal w d p = (w, Ok ())); [|by rewrite E].
  unfold apply_lag_proposal. case_decide; [done|].
  destruct (has_interface_get _ _ _ Hwf Hlag) as (i & Hi & Hd & Hn & Hget).
  rewrite Hget. unfold lag_settled, remote_lag_members in Hset.
  rewrite Hget in Hset. rewrite Hset.
  rewrite !difference_diag_L.
  assert (E : sorted_names ∅ = []) by (vm_compute; reflexivity).
  by rewrite E.
Qed.

(** ** Suffixes *)

Lemma substring_all (s : string) : substring 0 (String.length s) s = s.
Proof. induction s as [|c s IH]; simpl; [done|by rewrite IH]. Qed.

Lemma substring_skip (s t : string) :
  substring (String.length s) (String.length t) (s +:+ t) = t.
Proof. induction s as [|c s IH]; simpl; [apply substring_all|done]. Qed.

Lemma length_app (s t : string) :
  String.length (s +:+ t) = String.length s + String.length t.
Proof. induction s as [|c s IH]; simpl; [done|by rewrite IH]. Qed.

Lemma ends_with_app (s suffix : string) : ends_with (s +:+ suffix) suffix = true.
Proof.
  unfold ends_with. rewrite length_app.
  replace (String.length s + String.length suffix - String.length suffix)
    with (String.length s) by lia.
  rewrite substring_skip, String.eqb_refl, andb_true_r.
  apply Nat.leb_le. lia.
Qed.

(** A string ends with [suffix] exactly when it is some string followed
    by [suffix]. *)
Lemma ends_with_spec (s suffix : string) :
  ends_with s suffix = true ↔ ∃ front, s = front +:+ suffix.
Proof.
  split; [|intros [front ->]; apply ends_with_app].
  unfold ends_with. set (m := String.length suffix).
  intros [Hle Heq]%andb_true_iff.
  apply Nat.leb_le in Hle. apply String.eqb_eq in Heq.
  exists (substring 0 (String.length s - m) s).
  rewrite <- Heq. clearbody m. clear Heq. revert m Hle.
  induction s as [|c s IH]; intros m Hle; simpl in *.
  - by replace m with 0 by lia.
  - destruct (decide (m = S (String.length s))) as [->|Hne].
    + rewrite Nat.sub_diag. simpl. by rewrite substring_all.
    + replace (S (String.length s) - m) with (S (String.length s - m)) by lia.
      simpl.
      match goal with |- _ = String c ?x +:+ ?y =>
        change (String c x +:+ y) with (String c (x +:+ y)) end.
      f_equal. apply IH. lia.
Qed.

Lemma ends_with_empty (s : string) : ends_with s "" = true.
Proof.
  unfold ends_with. simpl.
  assert (E : ∀ k t, substring k 0 t = "").
  { intros k t. revert k. induction t as [|c t IH]; intros [|k]; simpl; auto. }
  by rewrite E.
Qed.

(** The name that [_apply_suffixes] gives to [name]. *)
Lemma suffixed_ends_with (name suffix : string) :
  let name' := if str_truthy suffix && negb (ends_with name suffix)
               then name +:+ suffix else name in
  (if str_truthy suffix && negb (ends_with name' suffix)
   then name' +:+ suffix else name') = name'
  ∧ ends_with name' suffix = true.
Proof.
  simpl. destruct (str_truthy suffix) eqn:Ht; simpl.
  - destruct (ends_with name suffix) eqn:He; simpl.
    + by rewrite He.
    + by rewrite ends_with_app.
  - split; [done|]. unfold str_truthy in Ht. apply negb_false_iff in Ht.
    apply String.eqb_eq in Ht. subst suffix. apply ends_with_empty.
Qed.

Lemma apply_suffixes_device (suffix : string) (type_rules : DeviceTypeSuffix)
    (inventory : NormalizedInventory) :
  let dev := device inventory in
  let type_suffix := device_type_suffix_value type_rules in
  _apply_suffixes suffix type_rules inventory =
  mkInventory
    (mkDevice
       (if str_truthy suffix && negb (ends_with (d_name dev) suffix)
        then d_name dev +:+ suffix else d_name dev)
       (d_site_slug dev) (d_role_slug dev) (d_manufacturer_slug dev)
       (if str_truthy type_suffix
           && negb (ends_with (d_device_type_slug dev) type_suffix)
        then d_device_type_slug dev +:+ type_suffix else d_device_type_slug dev)
       (d_status dev) (d_serial dev) (d_asset_tag dev) (d_custom_fields dev)
       (d_tags dev))
    (module_bays inventory) (modules inventory) (interfaces inventory)
    (lags inventory).
Proof.
  simpl. unfold _apply_suffixes. cbv zeta.
  destruct (String.eqb _ (d_name (device inventory))
            && String.eqb _ (d_device_type_slug (device inventory))) eqn:E;
    [|done].
  apply andb_true_iff in E as [E1%String.eqb_eq E2%String.eqb_eq].
  rewrite E1, E2. by destruct inventory as [[] ? ? ? ?].
Qed.

Lemma apply_suffixes_idempotent (suffix : string) (type_rules : DeviceTypeSuffix)
    (inventory : NormalizedInventory) :
  _apply_suffixes suffix type_rules (_apply_suffixes suffix type_rules inventory)
  = _apply_suffixes suffix type_rules inventory.
Proof.
  rewrite (apply_suffixes_device suffix type_rules inventory). cbv zeta.
  unfold _apply_suffixes at 1. cbv zeta. cbn [device d_name d_device_type_slug].
  destruct (suffixed_ends_with (d_name (device inventory)) suffix) as [-> _].
  destruct (suffixed_ends_with (d_device_type_slug (device inventory))
              (device_type_suffix_value type_rules)) as [-> _].
  by rewrite !String.eqb_refl.
Qed.

(** ** The LAGs and interfaces of the harvester *)

Lemma lag_members_add_keys (lm : lag_members_t) (L p : string) :
  lm.*1 ⊆ (lag_members_add lm L p).*1
  ∧ (∀ k, k ∈ (lag_members_add lm L p).*1 → k ∈ lm.*1 ∨ k = L)
  ∧ (NoDup lm.*1 → NoDup (lag_members_add lm L p).*1).
Proof.
  induction lm as [|[n s] lm (IH1 & IH2 & IH3)]; simpl.
  - split_and!; [by intros ? ?%elem_of_nil| |intros _; apply NoDup_singleton].
    intros k ->%list_elem_of_singleton. by right.
  - destruct (String.eqb_spec n L) as [->|Hne]; simpl.
    + split_and!; [done|by left|done].
    + split_and!.
      * intros k [->|Hk]%elem_of_cons; [left|right; by apply IH1].
      * intros k [->|Hk]%elem_of_cons; [left; left|].
        destruct (IH2 k Hk); [left; by right|by right].
      * intros [Hn Hnd]%NoDup_cons. apply NoDup_cons. split; [|by apply IH3].
        intros Hin. destruct (IH2 n Hin); [done|congruence].
Qed.

Lemma lag_members_add_has (lm : lag_members_t) (L p L' p' : string) :
  NoDup lm.*1 →
  lag_has (lag_members_add lm L p) L' p' ↔ lag_has lm L' p' ∨ (L' = L ∧ p' = p).
Proof.
  unfold lag_has. induction lm as [|[n s] lm IH]; simpl; intros Hnd.
  - split.
    + intros (m & Hm & Hp). apply list_elem_of_singleton in Hm as [= -> ->].
      apply elem_of_singleton in Hp as ->. by right.
    + intros [(m & Hm & _)|[-> ->]]; [by apply elem_of_nil in Hm|].
      exists {[p]}. split; [left|by apply elem_of_singleton].
  - apply NoDup_cons in Hnd as [Hn Hnd].
    destruct (String.eqb_spec n L) as [->|Hne].
    + split.
      * intros (m & [[= -> ->]|Hm]%elem_of_cons & Hp).
        -- apply elem_of_union in Hp as [Hp|Hp];
             [|apply elem_of_singleton in Hp as ->; by right].
           left. exists s. split; [left|done].
        -- left. exists m. split; [by right|done].
      * intros [(m & [[= -> ->]|Hm]%elem_of_cons & Hp)|[-> ->]].
        -- exists (s ∪ {[p]}). split; [left|]. apply elem_of_union. by left.
        -- exists m. split; [by right|done].
        -- exists (s ∪ {[p]}). split; [left|].
           apply elem_of_union. right. by apply elem_of_singleton.
    + split.
      * intros (m & [[= -> ->]|Hm]%elem_of_cons & Hp).
        -- left. exists s. split; [left|done].
        -- destruct (proj1 (IH Hnd) (ex_intro _ m (conj Hm Hp)))
             as [(m' & H1 & H2)|H]; [|by right].
           left. exists m'. split; [by right|done].
      * intros [(m & [[= -> ->]|Hm]%elem_of_cons & Hp)|[-> ->]].
        -- exists s. split; [left|done].
        -- destruct (proj2 (IH Hnd) (or_introl (ex_intro _ m (conj Hm Hp))))
             as (m' & H1 & H2).
           exists m'. split; [by right|done].
        -- destruct (proj2 (IH Hnd) (or_intror (conj eq_refl eq_refl)))
             as (m' & H1 & H2).
           exists m'. split; [by right|done].
Qed.

Lemma lag_members_add_nonempty (lm : lag_members_t) (L p : string) :
  Forall (λ e, e.2 ≠ ∅) lm → Forall (λ e, e.2 ≠ (∅ : gset string))
                                 (lag_members_add lm L p).
Proof.
  induction lm as [|[n s] lm IH]; simpl; intros Hall.
  - constructor; [|done]. simpl. apply non_empty_singleton_L.
  - apply Forall_cons in Hall as [Hs Hall].
    destruct (String.eqb n L); constructor; simpl; auto.
    intros E. apply empty_union_L in E as [_ E].
    by apply non_empty_singleton_L in E.
Qed.

(** What the loop over [regex_lag] collects. *)
Lemma collect_lag_members_spec (regex_lag : list (string * string)) :
  NoDup (collect_lag_members regex_lag).*1
  ∧ Forall (λ e, e.2 ≠ ∅) (collect_lag_members regex_lag)
  ∧ ∀ L p, lag_has (collect_lag_members regex_lag) L p
           ↔ ∃ lag_id, (p, lag_id) ∈ regex_lag ∧ L = "LAG " +:+ lag_id.
Proof.
  unfold collect_lag_members.
  induction regex_lag as [|[port lag_id] l IH] using rev_ind.
  - simpl. split_and!; [apply NoDup_nil_2|constructor|].
    intros L p. split.
    + intros (m & Hm & _). by apply elem_of_nil in Hm.
    + intros (i & Hi & _). by apply elem_of_nil in Hi.
  - rewrite foldl_app. simpl. destruct IH as (IH1 & IH2 & IH3). split_and!.
    + by apply lag_members_add_keys.
    + by apply lag_members_add_nonempty.
    + intros L p. rewrite lag_members_add_has, IH3 by done. split.
      * intros [(i & Hi & ->)|[-> ->]].
        -- exists i. split; [|done]. apply elem_of_app. by left.
        -- exists lag_id. split; [|done]. apply elem_of_app. right. left.
      * intros (i & [Hi|Hi]%elem_of_app & ->).
        -- left. eauto.
        -- apply list_elem_of_singleton in Hi as [= -> ->]. by right.
Qed.

(** [_find_lag_for_port] answers with the first LAG, in the order of the
    dictionary, that holds the port. *)
Lemma find_lag_for_port_Some (port : string) (lm : lag_members_t) (L : string) :
  _find_lag_for_port port lm = Some L ↔
  ∃ before members after,
    lm = before ++ (L, members) :: after
    ∧ port ∈ members
    ∧ Forall (λ e, port ∉ e.2) before.
Proof.
  induction lm as [|[n s] lm IH]; simpl.
  - split; [done|]. intros ([|??] & ? & ? & ? & _); done.
  - case_bool_decide as Hin.
    + split.
      * intros [= ->]. exists [], s, lm. split_and!; [done|done|constructor].
      * intros ([|[n' s'] before] & m & after & E & Hp & Hall); simpl in E.
        -- by injection E as -> _ _.
        -- injection E as -> -> _. apply Forall_cons in Hall as [H _]. done.
    + rewrite IH. split.
      * intros (before & m & after & -> & Hp & Hall).
        exists ((n, s) :: before), m, after. split_and!; [done|done|].
        by constructor.
      * intros ([|[n' s'] before] & m & after & E & Hp & Hall); simpl in E.
        -- injection E as -> -> _. done.
        -- injection E as -> -> ->. apply Forall_cons in Hall as [_ Hall].
           by exists before, m, after.
Qed.

Lemma find_lag_for_port_None (port : string) (lm : lag_members_t) :
  _find_lag_for_port port lm = None ↔ ∀ L, ¬ lag_has lm L port.
Proof.
  unfold lag_has. induction lm as [|[n s] lm IH]; simpl.
  - split; [|done]. intros _ L (m & Hm & _). by apply elem_of_nil in Hm.
  - case_bool_decide as Hin.
    + split; [done|]. intros H. exfalso. apply (H n). exists s. split; [left|done].
    + rewrite IH. split.
      * intros H L (m & [[= -> ->]|Hm]%elem_of_cons & Hp); [done|].
        apply (H L). eauto.
      * intros H L (m & Hm & Hp). apply (H L). exists m. split; [by right|done].
Qed.

Lemma find_lag_for_port_has (port : string) (lm : lag_members_t) (L : string) :
  _find_lag_for_port port lm = Some L → lag_has lm L port.
Proof.
  intros (before & m & after & -> & Hp & _)%find_lag_for_port_Some.
  exists m. split; [|done]. apply elem_of_app. right. left.
Qed.

(** Adding a port to the LAG that holds it changes nothing. *)
Lemma lag_members_add_existing (lm : lag_members_t) (L p : string) :
  NoDup lm.*1 → lag_has lm L p → lag_members_add lm L p = lm.
Proof.
  unfold lag_has. induction lm as [|[n s] lm IH]; simpl; intros Hnd (m & Hm & Hp).
  - by apply elem_of_nil in Hm.
  - apply NoDup_cons in Hnd as [Hn Hnd].
    destruct (String.eqb_spec n L) as [->|Hne].
    + apply elem_of_cons in Hm as [[= ->]|Hm].
      * f_equal. f_equal. apply set_eq. intros x.
        rewrite elem_of_union, elem_of_singleton. split; [|by left].
        intros [?| ->]; done.
      * exfalso. apply Hn. apply list_elem_of_fmap. by exists (L, m).
    + f_equal. apply IH; [done|].
      apply elem_of_cons in Hm as [[= -> ->]|Hm]; [done|]. eauto.
Qed.

#[local] Arguments interface_type : simpl never.

Section HarvestProperties.

Variable re_search : string → string → result bool.
Variable interface_rules : InterfaceRules.

Lemma lag_interfaces_eq (names : list string) :
  lag_interfaces re_search interface_rules names =
  Ok ((λ n, new_interface n (default "lag" (ir_lag_default interface_rules))
              None None) <$> names).
Proof.
  induction names as [|n names IH]; simpl; [done|]. by rewrite IH.
Qed.

Lemma port_interfaces_ok (desc_map : gmap string (option string))
    (lm : lag_members_t) (ports : list string)
    (ifaces : list NormalizedInterface) (lm' : lag_members_t) :
  NoDup lm.*1 →
  port_interfaces re_search interface_rules desc_map lm ports = Ok (ifaces, lm') →
  lm' = lm
  ∧ Forall2 (λ port i,
       i_name i = port
       ∧ i_lag i = _find_lag_for_port port lm
       ∧ i_description i = default None (desc_map !! port)
       ∧ interface_type re_search interface_rules port false
         = Ok (i_type_slug i)) ports ifaces.
Proof.
  intros Hnd. revert ifaces. induction ports as [|port ports IH]; simpl; intros ifaces.
  - intros [= <- <-]. split; [done|constructor].
  - destruct (interface_type re_search interface_rules port false)
      as [type_slug|msg] eqn:Ht; simpl; [|done].
    assert (Hsame : (if ostr_truthy (_find_lag_for_port port lm)
                     then lag_members_add lm
                            (default "" (_find_lag_for_port port lm)) port
                     else lm) = lm).
    { destruct (_find_lag_for_port port lm) as [L|] eqn:Hf; simpl; [|done].
      destruct (str_truthy L); [|done].
      apply lag_members_add_existing; [done|]. by apply find_lag_for_port_has. }
    rewrite Hsame.
    destruct (port_interfaces re_search interface_rules desc_map lm ports)
      as [[more lm'']|msg] eqn:Hrec; simpl; [|done].
    intros [= <- <-]. destruct (IH more eq_refl) as [-> Hall].
    split; [done|]. constructor; [|done]. simpl. split_and!; done.
Qed.

End HarvestProperties.

Lemma insert_sorted_fst {A B : Type} (le : A → A → bool) (x : A * B)
    (l : list (A * B)) :
  (insert_sorted (λ a b, le a.1 b.1) x l).*1 = insert_sorted le x.1 l.*1.
Proof.
  induction l as [|y l IH]; [done|].
  cbn [insert_sorted]. rewrite fmap_cons. cbn [insert_sorted].
  destruct (le x.1 y.1); [done|]. by rewrite fmap_cons, IH.
Qed.

Lemma py_sorted_fst {A B : Type} (le : A → A → bool) (l : list (A * B)) :
  (py_sorted (λ a b, le a.1 b.1) l).*1 = py_sorted le l.*1.
Proof.
  induction l as [|x l IH]; [done|].
  rewrite fmap_cons. unfold py_sorted in *. cbn [foldr].
  rewrite <- IH. apply insert_sorted_fst.
Qed.

Lemma sorted_names_nonempty_set (s : gset string) :
  s ≠ ∅ → sorted_names s ≠ [].
Proof.
  intros Hs E. apply Hs. apply set_eq. intros x.
  rewrite <- elem_of_sorted_names, E. rewrite elem_of_nil.
  split; [done|]. by intros ?%elem_of_empty.
Qed.

Lemma collect_descriptions_dom (ports_up : list (string * string)) :
  dom (collect_descriptions ports_up) = list_to_set ports_up.*1.
Proof.
  unfold collect_descriptions.
  induction ports_up as [|[port desc] l IH] using rev_ind;
    [simpl; by rewrite dom_empty_L|].
  rewrite foldl_app, fmap_app, list_to_set_app_L. simpl.
  rewrite dom_insert_L, IH. apply set_eq. intros x.
  rewrite !elem_of_union, elem_of_singleton, elem_of_empty. tauto.
Qed.

Section HarvestLinks.

Variable re_search : string → string → result bool.
Variable interface_rules : InterfaceRules.

Lemma harvest_links_ok (ports_up regex_lag : list (string * string))
    (ifaces : list NormalizedInterface) (lag_list : list NormalizedLag) :
  harvest_links re_search interface_rules ports_up regex_lag
  = Ok (ifaces, lag_list) →
  Forall (λ lag, l_members lag ≠ []) lag_list
  ∧ NoDup (l_name <$> lag_list)
  ∧ (∀ L m, (∃ lag, lag ∈ lag_list ∧ l_name lag = L ∧ m ∈ l_members lag)
            ↔ ∃ lag_id, (m, lag_id) ∈ regex_lag ∧ L = "LAG " +:+ lag_id)
  ∧ i_name <$> ifaces =
      (l_name <$> lag_list)
      ++ sorted_names (list_to_set ports_up.*1 ∪ list_to_set regex_lag.*1)
  ∧ (∀ i L, i ∈ ifaces → i_lag i = Some L →
       ∃ lag, lag ∈ lag_list ∧ l_name lag = L ∧ i_name i ∈ l_members lag)
  ∧ (∀ lag m, lag ∈ lag_list → m ∈ l_members lag →
       ∃ i lag', i ∈ ifaces ∧ i_name i = m ∧ i_lag i = Some (l_name lag')
                 ∧ lag' ∈ lag_list ∧ m ∈ l_members lag').
Proof.
  unfold harvest_links. rewrite lag_interfaces_eq. cbn [mbind result_bind].
  destruct (collect_lag_members_spec regex_lag) as (Hnd & Hne & Hhas).
  set (lm := collect_lag_members regex_lag) in *.
  set (ports := sorted_names _).
  destruct (port_interfaces _ _ _ lm ports) as [[port_ifaces lm']|msg] eqn:Hp;
    [|done].
  apply port_interfaces_ok in Hp as [-> Hports]; [|done].
  intros [= <- <-].
  set (mk := λ '(lag_name, members),
               mkLag lag_name None (sorted_names members) true []).
  assert (Hin : ∀ lag, lag ∈ mk <$> py_sorted (λ a b, String.leb a.1 b.1) lm
                ↔ ∃ n s, (n, s) ∈ lm
                         ∧ lag = mkLag n None (sorted_names s) true []).
  { intros lag. rewrite list_elem_of_fmap. split.
    - intros ([n s] & -> & H). exists n, s. split; [|done].
      by rewrite (py_sorted_perm _ lm) in H.
    - intros (n & s & H & ->). exists (n, s). split; [done|].
      by rewrite (py_sorted_perm _ lm). }
  assert (Hnames : l_name <$> (mk <$> py_sorted (λ a b, String.leb a.1 b.1) lm)
                   = py_sorted String.leb lm.*1).
  { rewrite <- list_fmap_compose, <- py_sorted_fst.
    apply list_fmap_ext. by intros k [n s] _. }
  assert (Hset : ∀ L m, (∃ lag, lag ∈ mk <$> py_sorted (λ a b, String.leb a.1 b.1) lm
                                ∧ l_name lag = L ∧ m ∈ l_members lag)
                        ↔ lag_has lm L m).
  { intros L m. unfold lag_has. split.
    - intros (lag & (n & s & H & ->)%Hin & <- & Hm). simpl in *.
      exists s. split; [done|]. by apply elem_of_sorted_names.
    - intros (s & H & Hm). exists (mkLag L None (sorted_names s) true []).
      split_and!; [apply Hin; eauto|done|by apply elem_of_sorted_names]. }
  assert (Hseen : ∀ p, p ∈ ports ↔ p ∈ ports_up.*1 ∨ ∃ L, lag_has lm L p).
  { intros p. unfold ports. rewrite elem_of_sorted_names, elem_of_union.
    rewrite collect_descriptions_dom, elem_of_list_to_set, elem_of_union_list.
    apply or_iff_compat_l. unfold lag_has. split.
    - intros (X & ([n s] & -> & H)%list_elem_of_fmap & HX). eauto.
    - intros (L & s & H & Hs). exists s. split; [|done].
      apply list_elem_of_fmap. by exists (L, s). }
  split_and!.
  - apply Forall_forall. intros lag (n & s & H & ->)%Hin. simpl.
    apply sorted_names_nonempty_set.
    rewrite Forall_forall in Hne. by apply (Hne (n, s)).
  - rewrite Hnames. by rewrite (py_sorted_perm _ lm.*1).
  - intros L m. by rewrite Hset, Hhas.
  - rewrite fmap_app, Hnames. f_equal.
    + rewrite <- list_fmap_compose. by rewrite list_fmap_id.
    + transitivity ports.
      * clear -Hports. induction Hports as [|p i ps more (H & _) _ IH]; [done|].
        by rewrite fmap_cons, H, IH.
      * unfold ports. f_equal. rewrite collect_descriptions_dom. f_equal.
        apply set_eq. intros p. rewrite elem_of_union_list, elem_of_list_to_set.
        rewrite list_elem_of_fmap. split.
        -- intros (X & ([n s] & -> & H)%list_elem_of_fmap & HX).
           destruct (proj1 (Hhas n p)) as (lag_id & Hid & _).
           { exists s. done. }
           by exists (p, lag_id).
        -- intros ([p' lag_id] & -> & H).
           destruct (proj2 (Hhas ("LAG " +:+ lag_id) p')) as (s & Hs & Hps);
             [eauto|].
           exists s. split; [|done]. apply list_elem_of_fmap. by exists ("LAG " +:+ lag_id, s).
  - intros i L [Hi|Hi]%elem_of_app Hlag.
    + apply list_elem_of_fmap in Hi as (n & -> & _). done.
    + apply Hset.
      apply list_elem_of_lookup in Hi as [k Hk].
      destruct (Forall2_lookup_r _ _ _ _ _ Hports Hk) as (p & _ & Hn & Hl & _).
      rewrite Hl in Hlag. apply find_lag_for_port_has in Hlag. by rewrite Hn.
  - intros lag m Hlag Hm.
    assert (Hlm : lag_has lm (l_name lag) m) by (apply Hset; eauto).
    assert (Hmp : m ∈ ports) by (apply Hseen; eauto).
    apply list_elem_of_lookup in Hmp as [k Hk].
    destruct (Forall2_lookup_l _ _ _ _ _ Hports Hk) as (i & Hi & Hn & Hl & _).
    destruct (_find_lag_for_port m lm) as [L'|] eqn:Hf.
    + apply find_lag_for_port_has in Hf.
      apply Hset in Hf as (lag' & Hlag' & <- & Hm').
      exists i, lag'. split_and!; try done.
      apply elem_of_app. right. by eapply list_elem_of_lookup_2.
    + exfalso. by eapply find_lag_for_port_None.
Qed.

(** The harvest of the links succeeds when every pattern of the interface
    rules compiles. *)
Lemma first_matcher_total (matches : list matcher) (name : string) :
  Forall (λ m, ∀ pat name, mt_pattern m = Some pat →
                           ∃ found, re_search pat name = Ok found) matches →
  ∃ r, first_matcher re_search matches name = Ok r.
Proof.
  induction 1 as [|m matches Hm _ [r IH]]; simpl; [eauto|].
  destruct (mt_pattern m) as [pat|] eqn:Hp; simpl; [|eauto].
  destruct (str_truthy pat && ostr_truthy (mt_type m)); [|eauto].
  destruct (Hm pat name eq_refl) as [b ->]. simpl.
  destruct b; eauto.
Qed.

Lemma interface_type_total (name : string) (is_lag : bool) :
  patterns_compile re_search interface_rules →
  ∃ t, interface_type re_search interface_rules name is_lag = Ok t.
Proof.
  intros Htot. unfold interface_type. destruct is_lag; [eauto|].
  destruct (first_matcher_total (ir_matches interface_rules) name Htot) as [r ->].
  simpl. destruct r; eauto.
Qed.

Lemma port_interfaces_total (desc_map : gmap string (option string))
    (ports : list string) (lm : lag_members_t) :
  patterns_compile re_search interface_rules →
  ∃ r, port_interfaces re_search interface_rules desc_map lm ports = Ok r.
Proof.
  intros Htot. revert lm. induction ports as [|port ports IH]; intros lm; simpl;
    [eauto|].
  destruct (interface_type_total port false Htot) as [t ->]. simpl.
  match goal with |- context [port_interfaces _ _ _ ?l _] =>
    destruct (IH l) as [[more lm'] ->] end.
  simpl. eauto.
Qed.

Lemma harvest_links_total (ports_up regex_lag : list (string * string)) :
  patterns_compile re_search interface_rules →
  ∃ r, harvest_links re_search interface_rules ports_up regex_lag = Ok r.
Proof.
  intros Htot. unfold harvest_links. rewrite lag_interfaces_eq.
  cbn [mbind result_bind].
  match goal with |- context [port_interfaces _ _ ?d ?l ?p] =>
    destruct (port_interfaces_total d p l Htot) as [[a b] ->] end.
  simpl. eauto.
Qed.

End HarvestLinks.

(** ** Module bays of the harvester *)

Lemma str_app_cons (c : ascii) (s t : string) :
  String c s +:+ t = String c (s +:+ t).
Proof. reflexivity. Qed.

Lemma str_app_nil_r (s : string) : s +:+ "" = s.
Proof. induction s as [|c s IH]; [done|]. by rewrite str_app_cons, IH. Qed.

Lemma str_app_assoc (a b c : string) : (a +:+ b) +:+ c = a +:+ (b +:+ c).
Proof. induction a as [|x a IH]; [done|]. by rewrite !str_app_cons, IH. Qed.

Lemma split_from_app_space (cur : option string) (a : string) (sp : ascii)
    (b : string) :
  isspace sp = true →
  split_from cur (a +:+ String sp b) = split_from cur a ++ split_from None b.
Proof.
  intros Hsp. revert cur. induction a as [|c a IH]; intros cur.
  - change ("" +:+ String sp b) with (String sp b).
    cbn [split_from]. rewrite Hsp. by destruct cur.
  - change (String c a +:+ String sp b) with (String c (a +:+ String sp b)).
    cbn [split_from]. destruct (isspace c).
    + destruct cur; by rewrite IH.
    + by rewrite IH.
Qed.

Lemma split_from_word (cur : option string) (w : string) :
  str_forallb (λ c, negb (isspace c)) w = true →
  is_Some cur ∨ w ≠ "" →
  split_from cur w = [default "" cur +:+ w].
Proof.
  revert cur. induction w as [|c w IH]; intros cur Hw Hne.
  - destruct Hne as [[t ->]|]; [|done]. simpl. by rewrite str_app_nil_r.
  - cbn [str_forallb] in Hw. apply andb_true_iff in Hw as [Hc Hw].
    cbn [split_from]. apply negb_true_iff in Hc. rewrite Hc.
    rewrite IH; [|done|by left]. simpl. by rewrite str_app_assoc.
Qed.

Lemma split_from_spaces (cur : option string) (s : string) :
  str_forallb isspace s = true →
  split_from cur s = match cur with Some t => [t] | None => [] end.
Proof.
  revert cur. induction s as [|c s IH]; intros cur Hs; [done|].
  cbn [str_forallb] in Hs. apply andb_true_iff in Hs as [Hc Hs].
  cbn [split_from]. rewrite Hc. destruct cur; by rewrite IH.
Qed.

(** The words of [split] are not empty and hold no white space. *)
Lemma split_from_words (cur : option string) (s : string) :
  (∀ t, cur = Some t →
        t ≠ "" ∧ str_forallb (λ c, negb (isspace c)) t = true) →
  Forall (λ w, w ≠ "" ∧ str_forallb (λ c, negb (isspace c)) w = true)
         (split_from cur s).
Proof.
  revert cur. induction s as [|c s IH]; intros cur Hcur.
  - destruct cur as [t|]; simpl; [|constructor].
    constructor; [by apply Hcur|constructor].
  - cbn [split_from]. destruct (isspace c) eqn:Hc.
    + destruct cur as [t|].
      * constructor; [by apply Hcur|]. by apply IH.
      * by apply IH.
    + apply IH. intros t [= <-]. split.
      * by destruct (default "" cur).
      * assert (E : ∀ a b, str_forallb (λ c, negb (isspace c)) (a +:+ b)
                           = str_forallb (λ c, negb (isspace c)) a
                             && str_forallb (λ c, negb (isspace c)) b).
        { intros a b. induction a as [|x a IHa]; simpl; [done|].
          by rewrite IHa, andb_assoc. }
        rewrite E. cbn [str_forallb]. rewrite Hc. simpl.
        destruct cur as [t|]; simpl; [|done].
        destruct (Hcur t eq_refl) as [_ ->]. done.
Qed.

Lemma bay_position_spec :
  (∀ front sp word,
     isspace sp = true → word ≠ "" →
     str_forallb (λ c, negb (isspace c)) word = true →
     _bay_position (front +:+ String sp word) = Ok (Some word))
  ∧ (∀ word,
       word ≠ "" → str_forallb (λ c, negb (isspace c)) word = true →
       _bay_position word = Ok (Some word))
  ∧ (∀ name,
       name ≠ "" → str_forallb isspace name = true →
       _bay_position name = Raise "IndexError: list index out of range")
  ∧ (∀ name position,
       _bay_position name = Ok position →
       (name = "" ∧ position = None)
       ∨ ∃ word, position = Some word ∧ word ≠ ""
                 ∧ str_forallb (λ c, negb (isspace c)) word = true).
Proof.
  assert (Htruthy : ∀ s, s ≠ "" → negb (str_truthy s) = false).
  { intros s Hs. unfold str_truthy. rewrite negb_involutive.
    by apply String.eqb_neq. }
  split_and!.
  - intros front sp word Hsp Hne Hw. unfold _bay_position, py_split.
    rewrite Htruthy by (by destruct front).
    rewrite split_from_app_space, (split_from_word None word) by auto.
    by rewrite last_snoc.
  - intros word Hne Hw. unfold _bay_position, py_split.
    rewrite Htruthy, (split_from_word None word) by auto. done.
  - intros name Hne Hs. unfold _bay_position, py_split.
    by rewrite Htruthy, split_from_spaces.
  - intros name position. unfold _bay_position, py_split.
    destruct (String.eqb_spec name "") as [->|Hne].
    + simpl. intros [= <-]. by left.
    + rewrite Htruthy by done.
      pose proof (split_from_words None name) as Hall.
      destruct (last (split_from None name)) as [w|] eqn:Hl; [|done].
      intros [= <-]. right. exists w. split; [done|].
      rewrite Forall_forall in Hall. apply Hall; [done|].
      apply last_Some in Hl as [l' ->]. apply elem_of_app. right. left.
Qed.

Lemma bays_of_names_ok (names : list string) (bays : list NormalizedModuleBay) :
  bays_of_names names = Ok bays →
  mb_name <$> bays = names
  ∧ Forall (λ b, mb_label b = Some (mb_name b)
                 ∧ _bay_position (mb_name b) = Ok (mb_position b)) bays.
Proof.
  revert bays. induction names as [|n names IH]; simpl; intros bays.
  - intros [= <-]. split; [done|constructor].
  - destruct (_bay_position n) as [position|msg] eqn:Hp; simpl; [|done].
    destruct (bays_of_names names) as [more|msg]; simpl; [|done].
    intros [= <-]. destruct (IH more eq_refl) as [E Hall].
    split; [by rewrite fmap_cons, E|]. constructor; [|done]. done.
Qed.

(** ** The inventory of the harvester *)

Lemma sorted_names_NoDup (s : gset string) : NoDup (sorted_names s).
Proof.
  unfold sorted_names. rewrite (py_sorted_perm String.leb (elements s)).
  apply NoDup_elements.
Qed.

Section HarvestInventory.

Variable format_named : string → list (string * option string) → result string.
Variable format_positional : string → list (option string) → result string.
Variable upper : string → string.
Variable re_search : string → string → result bool.

Lemma mda_modules_of_eq (x : Extracted) :
  mda_modules_of x
  = (λ '(bay_name, model), (bay_name, Some model))
      <$> ((λ '(slot, descriptor), mda_module slot descriptor)
             <$> x_mda_matches x).
Proof.
  unfold mda_modules_of. rewrite <- list_fmap_compose.
  apply list_fmap_ext. intros k [slot descriptor] _. simpl.
  by destruct (mda_module slot descriptor).
Qed.

Lemma harvest_inventory_ok (rules : RulesEngine)
    (interface_rules : InterfaceRules) (x : Extracted)
    (inventory : NormalizedInventory) :
  harvest_inventory format_named format_positional upper re_search
    rules interface_rules x = Ok inventory →
  (∃ site role manufacturer device_type,
     site_slug format_named format_positional upper rules (x_host_name x)
     = Ok site
     ∧ role_slug format_named format_positional upper rules (x_host_name x)
       = Ok role
     ∧ manufacturer_slug format_named format_positional upper rules
         (x_host_name x) = Ok manufacturer
     ∧ device_type_slug format_named format_positional upper rules
         (x_device_type_raw x) = Ok device_type
     ∧ device inventory
       = mkDevice (x_host_name x) site role manufacturer device_type "active"
           (head (x_serial_numbers x)) None [] [])
  ∧ mb_name <$> module_bays inventory
    = sorted_names (list_to_set (module_pairs_of x).*1
                    ∪ list_to_set (card_modules_of x).*1
                    ∪ list_to_set (mda_modules_of x).*1)
  ∧ StronglySorted (λ a b, String.leb a b = true)
      (mb_name <$> module_bays inventory)
  ∧ NoDup (mb_name <$> module_bays inventory)
  ∧ Forall (λ b, mb_label b = Some (mb_name b)
                 ∧ _bay_position (mb_name b) = Ok (mb_position b))
      (module_bays inventory)
  ∧ modules inventory
    = harvest_modules (module_pairs_of x) (card_modules_of x) (mda_modules_of x)
  ∧ Forall (λ m, m_bay_name m ∈ mb_name <$> module_bays inventory
                 ∧ m_bay_name m ≠ "" ∧ m_module_type_model m ≠ "")
      (modules inventory)
  ∧ harvest_links re_search interface_rules (x_ports_up x) (x_regex_lag x)
    = Ok (interfaces inventory, lags inventory).
Proof.
  unfold harvest_inventory. cbv zeta.
  destruct (site_slug _ _ _ rules _) as [site|?]; [|done].
  destruct (role_slug _ _ _ rules _) as [role|?]; [|done].
  destruct (manufacturer_slug _ _ _ rules _) as [manufacturer|?]; [|done].
  destruct (device_type_slug _ _ _ rules _) as [device_type|?]; [|done].
  cbn [mbind result_bind].
  rewrite <- (mda_modules_of_eq x).
  fold (module_pairs_of x). fold (card_modules_of x).
  assert (Hmda : ((λ '(slot, descriptor), mda_module slot descriptor)
                    <$> x_mda_matches x).*1 = (mda_modules_of x).*1).
  { rewrite mda_modules_of_eq, <- !list_fmap_compose.
    apply list_fmap_ext. by intros k [slot descriptor] _. }
  rewrite Hmda.
  set (names := list_to_set (module_pairs_of x).*1
                ∪ list_to_set (card_modules_of x).*1
                ∪ list_to_set (mda_modules_of x).*1 : gset string).
  destruct (bays_of_names (sorted_names names)) as [bays|?] eqn:Hb; [|done].
  apply bays_of_names_ok in Hb as [Hnames Hbays].
  cbn [mbind result_bind].
  destruct (harvest_links _ _ _ _) as [[ifaces lag_list]|?] eqn:Hl; [|done].
  cbn [mbind result_bind]. intros [= <-]. cbn.
  split_and!; try done.
  - by exists site, role, manufacturer, device_type.
  - rewrite Hnames. apply sorted_names_sorted.
  - rewrite Hnames. apply sorted_names_NoDup.
  - rewrite Hnames. apply Forall_forall. intros m Hm.
    unfold harvest_modules in Hm.
    apply list_elem_of_fmap in Hm as ([key m'] & -> & Hm).
    destruct (harvest_entries_ok (module_pairs_of x) (card_modules_of x)
                (mda_modules_of x)) as (_ & Hin & _).
    destruct (Hin key m' Hm) as (-> & H1 & H2 & Hseen). simpl.
    split_and!; try done.
    apply elem_of_sorted_names. unfold names.
    rewrite !elem_of_union, !elem_of_list_to_set.
    rewrite !elem_of_app in Hseen. destruct Hseen as [H|[H|H]].
    + left. left. apply list_elem_of_fmap. by exists (key.1, Some key.2).
    + left. right. apply list_elem_of_fmap. by exists (key.1, Some key.2).
    + right. apply list_elem_of_fmap. by exists (key.1, Some key.2).
Qed.

End HarvestInventory.

(** ** Interface types *)

Section InterfaceTypeProperties.

Variable re_search : string → string → result bool.

Lemma first_matcher_skip (before rest : list matcher) (name : string) :
  Forall (matcher_skipped re_search name) before →
  first_matcher re_search (before ++ rest) name
  = first_matcher re_search rest name.
Proof.
  induction 1 as [|m before [Hm|Hm] _ IH]; simpl; [done| |].
  - by rewrite Hm.
  - destruct (ostr_truthy (mt_pattern m) && ostr_truthy (mt_type m)); [|done].
    by rewrite Hm.
Qed.

Lemma interface_type_spec (self : InterfaceRules) (name : string) :
  interface_type re_search self name true
  = Ok (default "lag" (ir_lag_default self))
  ∧ (∀ before m after pat t,
       ir_matches self = before ++ m :: after →
       Forall (matcher_skipped re_search name) before →
       mt_pattern m = Some pat → pat ≠ "" →
       mt_type m = Some t → t ≠ "" →
       re_search pat name = Ok true →
       interface_type re_search self name false = Ok t)
  ∧ (Forall (matcher_skipped re_search name) (ir_matches self) →
     interface_type re_search self name false
     = Ok (default "other" (ir_physical_default self))).
Proof.
  split_and!; [done| |].
  - intros before m after pat t E Hskip Hp Hpne Ht Htne Hs.
    unfold interface_type. rewrite E, first_matcher_skip by done.
    simpl. rewrite Hp, Ht. simpl.
    assert (Htr : ∀ s, s ≠ "" → str_truthy s = true).
    { intros s Hsne. unfold str_truthy. apply negb_true_iff.
      by apply String.eqb_neq. }
    rewrite !Htr by done. simpl. by rewrite Hs.
  - intros Hskip. unfold interface_type.
    rewrite <- (app_nil_r (ir_matches self)), first_matcher_skip by done.
    done.
Qed.

End InterfaceTypeProperties.

(** ** Lookups of the apply orchestrator *)

Lemma filter_head {A : Type} (P : A → Prop) `{∀ x, Decision (P x)}
    (l : list A) (x : A) (rest : list A) :
  filter P l = x :: rest →
  ∃ before after, l = before ++ x :: after ∧ P x ∧ Forall (λ y, ¬ P y) before.
Proof.
  induction l as [|y l IH]; [done|].
  rewrite filter_cons. destruct (decide (P y)) as [Hy|Hy].
  - intros [= -> _]. exists [], l. split_and!; [done|done|constructor].
  - intros (before & after & -> & Hx & Hall)%IH.
    exists (y :: before), after. split_and!; [done|done|by constructor].
Qed.

Lemma filter_nil_not {A : Type} (P : A → Prop) `{∀ x, Decision (P x)}
    (l : list A) :
  filter P l = [] ↔ Forall (λ y, ¬ P y) l.
Proof.
  induction l as [|y l IH]; [split; [constructor|done]|].
  rewrite filter_cons. destruct (decide (P y)) as [Hy|Hy].
  - split; [done|]. by intros [? _]%Forall_cons.
  - rewrite IH. split; [by constructor|by intros [_ ?]%Forall_cons].
Qed.

Lemma module_type_candidates (module_types : list NbModuleType)
    (model : string) (manufacturer : option Z) :
  match manufacturer with
  | Some manufacturer_id =>
      filter (λ c, mty_manufacturer c = Some manufacturer_id)
        (filter (λ c, mty_model c = model) module_types)
  | None => filter (λ c, mty_model c = model) module_types
  end
  = filter (module_type_matches model manufacturer) module_types.
Proof.
  unfold module_type_matches. destruct manufacturer as [id|].
  - rewrite list_filter_filter. apply list_filter_iff. intros c. tauto.
  - apply list_filter_iff. intros c. tauto.
Qed.

Lemma find_module_type_spec (module_types : list NbModuleType)
    (manufacturer : option Z) :
  (∀ model, ostr_truthy model = false →
     _find_module_type module_types model manufacturer
     = Raise "Module type model is required")
  ∧ (∀ model r,
       _find_module_type module_types (Some model) manufacturer = Ok r ↔
       model ≠ ""
       ∧ ∃ before after,
           module_types = before ++ r :: after
           ∧ module_type_matches model manufacturer r
           ∧ Forall (λ c, ¬ module_type_matches model manufacturer c) before)
  ∧ (∀ model,
       model ≠ "" →
       Forall (λ c, ¬ module_type_matches model manufacturer c) module_types →
       _find_module_type module_types (Some model) manufacturer
       = Raise ("Module type with model '" +:+ model +:+
                "' not found in NetBox")).
Proof.
  assert (Htr : ∀ s, s ≠ "" ↔ str_truthy s = true).
  { intros s. unfold str_truthy. rewrite negb_true_iff. symmetry.
    apply String.eqb_neq. }
  split_and!.
  - intros model Hm. unfold _find_module_type. by rewrite Hm.
  - intros model r. unfold _find_module_type. cbn [ostr_truthy default].
    destruct (str_truthy model) eqn:Hm; cbn [negb].
    + rewrite module_type_candidates.
      destruct (filter _ module_types) as [|x rest] eqn:E.
      * split; [done|]. intros (_ & before & after & -> & Hr & _).
        apply filter_nil_not in E. apply Forall_app in E as [_ E].
        apply Forall_cons in E as [E _]. done.
      * split.
        -- intros [= ->]. split; [by apply Htr|].
           apply filter_head in E as (before & after & -> & Hr & Hall).
           by exists before, after.
        -- intros (_ & before & after & -> & Hr & Hall). f_equal.
           rewrite filter_app in E.
           rewrite (proj2 (filter_nil_not _ before) Hall), filter_cons in E.
           simpl in E. rewrite decide_True in E by done.
           by injection E as ->.
    + split; [done|]. intros [Hne _]. apply Htr in Hne. congruence.
  - intros model Hne Hall. unfold _find_module_type. cbn [ostr_truthy default].
    rewrite (proj1 (Htr model) Hne). cbn [negb].
    rewrite module_type_candidates.
    by rewrite (proj2 (filter_nil_not _ module_types) Hall).
Qed.

Lemma get_one_filter_Some {A : Type} (P : A → Prop) `{∀ x, Decision (P x)}
    (l : list A) (r : A) :
  get_one (filter P l) = Ok (Some r) → r ∈ l ∧ P r.
Proof.
  destruct (filter P l) as [|x [|y rest]] eqn:E; simpl; try done.
  intros [= ->].
  assert (Hr : r ∈ filter P l) by (rewrite E; left).
  apply list_elem_of_filter in Hr as [? ?]. done.
Qed.

Lemma get_one_filter_None {A : Type} (P : A → Prop) `{∀ x, Decision (P x)}
    (l : list A) :
  Forall (λ y, ¬ P y) l → get_one (filter P l) = Ok None.
Proof. intros Hall. by rewrite (proj2 (filter_nil_not P l) Hall). Qed.

Lemma resolve_device_dependencies_spec (nb : Catalog) (dev : NormalizedDevice) :
  (∀ deps,
     _resolve_device_dependencies nb dev = Ok deps →
     (dep_site deps ∈ nb_sites nb
      ∧ sl_slug (dep_site deps) = d_site_slug dev)
     ∧ (dep_role deps ∈ nb_device_roles nb
        ∧ sl_slug (dep_role deps) = d_role_slug dev)
     ∧ (dep_device_type deps ∈ nb_device_types nb
        ∧ dt_slug (dep_device_type deps) = d_device_type_slug dev)
     ∧ (d_manufacturer_slug dev = "" → dep_manufacturer deps = None)
     ∧ (d_manufacturer_slug dev ≠ "" →
        (∃ m, dep_manufacturer deps = Some m ∧ m ∈ nb_manufacturers nb
              ∧ sl_slug m = d_manufacturer_slug dev)
        ∧ ∀ slug, dt_manufacturer (dep_device_type deps) = Some slug →
                  slug = d_manufacturer_slug dev))
  ∧ (Forall (λ r, sl_slug r ≠ d_site_slug dev) (nb_sites nb) →
     _resolve_device_dependencies nb dev
     = Raise ("Site with slug '" +:+ d_site_slug dev +:+
              "' not found in NetBox")).
Proof.
  split.
  - intros deps. unfold _resolve_device_dependencies.
    destruct (get_one (filter _ (nb_sites nb))) as [[site|]|?] eqn:Hs;
      cbn [mbind result_bind]; try done.
    apply get_one_filter_Some in Hs as [Hs1 Hs2].
    destruct (get_one (filter _ (nb_device_roles nb))) as [[role|]|?] eqn:Hr;
      cbn [mbind result_bind]; try done.
    apply get_one_filter_Some in Hr as [Hr1 Hr2].
    destruct (get_one (filter _ (nb_device_types nb))) as [[dt|]|?] eqn:Hd;
      cbn [mbind result_bind]; try done.
    apply get_one_filter_Some in Hd as [Hd1 Hd2].
    unfold str_truthy.
    destruct (String.eqb_spec (d_manufacturer_slug dev) "") as [Hm|Hm];
      cbn [negb].
    + intros [= <-]. simpl. split_and!; try done.
    + destruct (get_one (filter _ (nb_manufacturers nb))) as [[m|]|?] eqn:Hman;
        cbn [mbind result_bind]; try done.
      apply get_one_filter_Some in Hman as [Hman1 Hman2].
      destruct (dt_manufacturer dt) as [slug|] eqn:Hdm.
      * destruct (String.eqb_spec slug (d_manufacturer_slug dev)) as [->|Hne];
          cbn [negb]; [|done].
        intros [= <-]. simpl. split_and!; try done.
        intros _. split; [by exists m|]. rewrite Hdm. by intros ? [= <-].
      * intros [= <-]. simpl. split_and!; try done.
        intros _. split; [by exists m|]. by rewrite Hdm.
  - intros Hall. unfold _resolve_device_dependencies.
    rewrite (get_one_filter_None (λ r, sl_slug r = d_site_slug dev)
               (nb_sites nb)); [reflexivity|].
    eapply Forall_impl; [exact Hall|]. intros r Hr. exact Hr.
Qed.

(** ** Payloads of the apply orchestrator *)

Lemma put_if_in_lookup (data : gmap string pyval) (key : string) (value : pyval)
    (payload : gmap string pyval) (k : string) :
  put_if_in data key value payload !! k =
  if decide (k = key)
  then match data !! key with Some _ => Some value | None => payload !! k end
  else payload !! k.
Proof.
  unfold put_if_in. case_bool_decide as Hin.
  - destruct Hin as [v Hv]. rewrite Hv. case_decide as Hk.
    + subst. apply lookup_insert_eq.
    + by rewrite lookup_insert_ne.
  - apply eq_None_not_Some in Hin. rewrite Hin. by case_decide.
Qed.

Ltac payload_at :=
  rewrite ?put_if_in_lookup, ?lookup_empty;
  repeat first [rewrite decide_True by done | rewrite decide_False by done].

Lemma build_device_payload_spec (data : gmap string pyval)
    (dependencies : Dependencies) :
  let payload := _build_device_payload data dependencies in
  (∀ k, is_Some (payload !! k) ↔
        is_Some (data !! k)
        ∧ k ∈ ["name"; "status"; "site"; "role"; "device_type"; "serial";
               "asset_tag"; "tags"; "custom_fields"])
  ∧ payload !! "manufacturer" = None
  ∧ (∀ k, k ∈ ["name"; "status"; "serial"; "asset_tag"; "tags";
               "custom_fields"] → payload !! k = data !! k)
  ∧ (is_Some (data !! "site") →
     payload !! "site" = Some (VInt (sl_id (dep_site dependencies))))
  ∧ (is_Some (data !! "role") →
     payload !! "role" = Some (VInt (sl_id (dep_role dependencies))))
  ∧ (is_Some (data !! "device_type") →
     payload !! "device_type"
     = Some (VInt (dt_id (dep_device_type dependencies)))).
Proof.
  assert (Hget : ∀ k v, data !! k = Some v → dict_get data k = v).
  { intros k v H. unfold dict_get. by rewrite H. }
  cbv zeta. unfold _build_device_payload. cbv zeta. split_and!.
  - intros k.
    destruct (decide (k ∈ ["name"; "status"; "site"; "role"; "device_type";
                           "serial"; "asset_tag"; "tags"; "custom_fields"]))
      as [Hin|Hnin].
    + assert (Hk := Hin).
      repeat (apply elem_of_cons in Hk as [->|Hk]);
        try (by apply elem_of_nil in Hk);
        payload_at; (destruct (data !! _) as [v|] eqn:Hv;
                     [split; [by intros _; split; [eauto|]|eauto]
                     |payload_at; split; [by intros [? ?]|by intros [[? ?] _]]]).
    + rewrite !put_if_in_lookup, lookup_empty.
      repeat (rewrite decide_False
                by (intros ->; apply Hnin; repeat first [by left|right])).
      split; [by intros [? ?]|by intros [_ ?]].
  - payload_at. done.
  - intros k Hk.
    repeat (apply elem_of_cons in Hk as [->|Hk]);
      try (by apply elem_of_nil in Hk);
      payload_at; (destruct (data !! _) as [v|] eqn:Hv;
                   [by rewrite (Hget _ _ Hv)|by payload_at]).
  - intros [v Hv]. payload_at. by rewrite Hv.
  - intros [v Hv]. payload_at. by rewrite Hv.
  - intros [v Hv]. payload_at. by rewrite Hv.
Qed.

Lemma apply_device_spec (nb : NetBox) (proposal : Proposal)
    (dependencies : Dependencies) (w : api_write) :
  _apply_device nb proposal dependencies = Ok w →
  match w with
  | Create payload =>
      p_action proposal = create
      ∧ payload = _build_device_payload (p_desired proposal) dependencies
  | Update id payload =>
      p_action proposal = update
      ∧ (∃ record, devices_get nb (p_identifier proposal) = Ok (Some record)
                   ∧ dev_id record = id)
      ∧ payload ≠ ∅
      ∧ payload !! "manufacturer" = None
      ∧ ∃ diff, p_diff proposal = Some diff
                ∧ ∀ k, is_Some (payload !! k) → is_Some (diff !! k)
  | NoWrite =>
      p_action proposal ≠ create
      ∧ ∃ record, devices_get nb (p_identifier proposal) = Ok (Some record)
  end.
Proof.
  unfold _apply_device.
  destruct (devices_get nb (p_identifier proposal)) as [existing|msg];
    cbn [mbind result_bind]; [|done].
  case_decide as Hc; [by intros [= <-]|].
  destruct existing as [record|]; [|done].
  case_decide as Hu; [|intros [= <-]; eauto].
  unfold dict_truthy. case_bool_decide as He; cbn [negb]; intros [= <-]; [eauto|].
  destruct (build_device_payload_spec (default ∅ (p_diff proposal)) dependencies)
    as (Hkeys & Hman & _).
  split_and!; [done|eauto|done|done|].
  destruct (p_diff proposal) as [diff|] eqn:Hd.
  - exists diff. split; [done|]. intros k Hk. by apply Hkeys in Hk as [? _].
  - exfalso. apply He. apply map_eq. intros k. rewrite lookup_empty.
    apply eq_None_not_Some. intros Hk. apply Hkeys in Hk as [Hk _].
    simpl in Hk. rewrite lookup_empty in Hk. by destruct Hk.
Qed.

Lemma bay_desired_keys (bay : NormalizedModuleBay) (state : option DeviceState)
    (k : string) (v : pyval) :
  p_desired (_module_bay_proposal bay state) !! k = Some v → bay_key k = true.
Proof.
  unfold _module_bay_proposal. cbv zeta.
  destruct (_action_and_diff _ _ _) as [a d]. cbn [p_desired].
  intros H%elem_of_list_to_map_2.
  repeat (apply elem_of_cons in H as [[= -> _]|H]; [done|]).
  by apply elem_of_nil in H.
Qed.

Lemma apply_module_bay_engine (nb : NetBox) (device_id : Z)
    (device_name : string) (bay : NormalizedModuleBay)
    (state : option DeviceState) (existing : option NbModuleBay) :
  module_bays_get nb device_id (mb_name bay) = Ok existing →
  _apply_module_bay nb device_id device_name (_module_bay_proposal bay state) =
  match p_action (_module_bay_proposal bay state), existing with
  | create, _ =>
      Ok (Create (non_null_fields (p_desired (_module_bay_proposal bay state))
                  ∪ {[ "device" := VInt device_id ]}))
  | update, Some record =>
      Ok (Update (bay_id record)
            (default ∅ (p_diff (_module_bay_proposal bay state))))
  | update, None =>
      Raise ("Module bay '" +:+ mb_name bay +:+ "' not found for device "
             +:+ device_name)
  | noop, _ => Ok NoWrite
  end.
Proof.
  intros Hget.
  pose proof (module_bay_proposal_wf bay state) as (Hnoop & Hdiff & Hcreate).
  pose proof (bay_desired_keys bay state) as Hkeys.
  assert (Hid : p_identifier (_module_bay_proposal bay state) = mb_name bay).
  { unfold _module_bay_proposal. cbv zeta. apply action_and_diff_identifier. }
  unfold _apply_module_bay. rewrite Hid, Hget. cbn [mbind result_bind].
  set (p := _module_bay_proposal bay state) in *.
  destruct (p_action p) eqn:Ha.
  - rewrite decide_True by done. do 3 f_equal.
    apply map_eq. intros k. apply option_eq. intros v.
    unfold non_null_fields. rewrite !map_lookup_filter_Some. simpl.
    split; [tauto|]. intros [Hk Hv]. split_and!; [done| |done]. by eapply Hkeys.
  - rewrite decide_False by done. destruct existing as [record|].
    + rewrite decide_True by done.
      destruct (p_diff p) as [diff|] eqn:Hd;
        [|discriminate (proj2 Hnoop eq_refl)].
      destruct (Hdiff diff eq_refl) as [Hne Hsub]. simpl.
      assert (E : filter (λ kv : string * pyval, bay_key kv.1 = true) diff = diff).
      { apply map_filter_id. intros k v Hk. simpl. eapply Hkeys.
        eapply lookup_weaken; eauto. }
      rewrite E. unfold dict_truthy. by rewrite bool_decide_eq_false_2.
    + by rewrite decide_False.
  - rewrite decide_False by done. destruct existing as [record|].
    + by rewrite decide_False.
    + by rewrite decide_True.
Qed.

(** ** The counts of the summary *)

Lemma action_name_inj (a b : action) : action_name a = action_name b → a = b.
Proof. by destruct a, b. Qed.

Lemma count_actions_fold (proposals : list Proposal) (counts : gmap string nat)
    (a : action) :
  default 0 (foldl (λ counts proposal,
               <[action_name (p_action proposal) :=
                   default 0 (counts !! action_name (p_action proposal)) + 1]>
                 counts) counts proposals !! action_name a)
  = default 0 (counts !! action_name a)
    + length (filter (λ p, p_action p = a) proposals).
Proof.
  revert counts. induction proposals as [|p ps IH]; intros counts.
  - simpl. lia.
  - cbn [foldl]. rewrite IH, filter_cons.
    destruct (decide (p_action p = a)) as [<-|Hne].
    + rewrite lookup_insert_eq. simpl. lia.
    + rewrite lookup_insert_ne; [done|]. intros E. by apply action_name_inj in E.
Qed.

Lemma count_actions_fold_keys (proposals : list Proposal)
    (counts : gmap string nat) (k : string) :
  (∀ a, k ≠ action_name a) →
  foldl (λ counts proposal,
           <[action_name (p_action proposal) :=
               default 0 (counts !! action_name (p_action proposal)) + 1]>
             counts) counts proposals !! k
  = counts !! k.
Proof.
  intros Hk. revert counts. induction proposals as [|p ps IH]; intros counts;
    [done|].
  cbn [foldl]. rewrite IH. by rewrite lookup_insert_ne.
Qed.

Lemma count_actions_spec (proposals : list Proposal) :
  (∀ a, default 0 (_count_actions proposals !! action_name a)
        = length (filter (λ p, p_action p = a) proposals))
  ∧ (∀ k n, _count_actions proposals !! k = Some n →
            n ≠ 0 ∧ ∃ a, k = action_name a)
  ∧ default 0 (_count_actions proposals !! "create")
    + default 0 (_count_actions proposals !! "update")
    + default 0 (_count_actions proposals !! "noop")
    = length proposals.
Proof.
  assert (Hcount : ∀ a, default 0 (_count_actions proposals !! action_name a)
                        = length (filter (λ p, p_action p = a) proposals)).
  { intros a. unfold _count_actions. cbv zeta.
    pose proof (count_actions_fold proposals
                  (<["noop" := 0]> (<["update" := 0]> (<["create" := 0]> ∅))) a)
      as Hf.
    assert (H0 : default 0 ((<["noop" := 0]> (<["update" := 0]>
                   (<["create" := 0]> (∅ : gmap string nat)))) !! action_name a)
                 = 0) by by destruct a.
    rewrite H0 in Hf. simpl in Hf. rewrite <- Hf.
    destruct (foldl _ _ proposals !! action_name a) as [n|] eqn:E.
    - destruct (decide (n = 0)) as [->|Hn].
      + match goal with |- default 0 (?m !! ?k) = _ =>
          assert (H : m !! k = None) end.
        { apply map_lookup_filter_None. right. intros n' Hn'.
          rewrite E in Hn'. injection Hn' as <-. simpl. lia. }
        by rewrite H.
      + match goal with |- default 0 (?m !! ?k) = _ =>
          assert (H : m !! k = Some n) end.
        { apply map_lookup_filter_Some. split; [exact E|exact Hn]. }
        by rewrite H.
    - match goal with |- default 0 (?m !! ?k) = _ =>
        assert (H : m !! k = None) end.
      { apply map_lookup_filter_None. by left. }
      by rewrite H. }
  split_and!.
  - exact Hcount.
  - intros k n. unfold _count_actions. cbv zeta.
    intros [Hk Hn]%map_lookup_filter_Some. simpl in Hn. split; [done|].
    destruct (decide (k = "create")) as [->|H1]; [by exists create|].
    destruct (decide (k = "update")) as [->|H2]; [by exists update|].
    destruct (decide (k = "noop")) as [->|H3]; [by exists noop|].
    rewrite count_actions_fold_keys in Hk by (by intros []).
    by rewrite !lookup_insert_ne, lookup_empty in Hk.
  - change "create" with (action_name create).
    change "update" with (action_name update).
    change "noop" with (action_name noop).
    rewrite !Hcount. clear Hcount. induction proposals as [|p ps IH]; [done|].
    rewrite !filter_cons. simpl. rewrite <- IH.
    destruct (p_action p); simpl; lia.
Qed.

(** * Properties of the plan, the apply pass and the harvester *)

(** X6. Every proposal of a plan is well formed: its action is
    [noop] exactly when it carries no diff, a diff it carries is not
    empty and lies within its desired fields, and the diff of a [create]
    is the desired fields that are not null. *)
Theorem plan_proposals_well_formed :
  ∀ (nb : NetBox) (inventory : NormalizedInventory) (batch : ProposalBatch),
    build nb inventory = Ok batch → Forall proposal_wf (actions batch).
Proof. exact build_proposals_wf. Qed.

(** X7. When the remote system has no device of the name of the
    inventory, the plan is built and every proposal in it, the LAGs
    included, is a [create] without current fields whose diff is its
    desired fields that are not null. *)
Theorem plan_without_device_creates_all :
  ∀ (nb : NetBox) (inventory : NormalizedInventory),
    devices_get nb (d_name (device inventory)) = Ok None →
    ∃ batch, build nb inventory = Ok batch
             ∧ Forall planned_create (actions batch).
Proof. exact build_without_device. Qed.


(** X9. Whatever the LAG pass does, and also when it fails half way,
    it changes nothing but LAG references of interfaces: devices, module
    bays, modules and all else of every interface are what they were, the
    updates issued before remain the head of the log, and, identifiers
    being unique, the interfaces of other devices are untouched. *)
Theorem lag_pass_changes_lag_references_only :
  ∀ (device_id : Z) (proposals : list Proposal) (w : world),
    lag_pass_frame device_id w
      (_apply_lag_membership w device_id proposals).1.
Proof. exact apply_lag_membership_frame. Qed.

(** X10. Applying one LAG proposal moves interfaces between LAGs:
    afterwards the LAG of the proposal has exactly its desired members,
    and every other LAG of the device has lost exactly the interfaces the
    proposal asked for. *)
Theorem lag_proposal_takes_members_from_other_lags :
  ∀ (w : world) (device_id : Z) (proposal : Proposal),
    p_action proposal ≠ noop →
    interfaces_wf (remote w) →
    has_interface (remote w) device_id (p_identifier proposal) →
    (∀ m, m ∈ desired_members_of proposal →
          has_interface (remote w) device_id m) →
    ∃ w',
      apply_lag_proposal w device_id proposal = (w', Ok ())
      ∧ ∀ name n,
          has_interface (remote w) device_id name →
          n ∈ remote_lag_members (remote w') device_id name ↔
          if decide (name = p_identifier proposal)
          then n ∈ desired_members_of proposal
          else n ∈ remote_lag_members (remote w) device_id name
               ∧ n ∉ desired_members_of proposal.
Proof. exact apply_lag_proposal_named. Qed.

(** X11. The LAG pass over several LAGs converges when no interface
    is desired by two of them: with distinct LAG names, pairwise disjoint
    desired member sets, the LAG interfaces and the members present, and
    the proposals left as [noop] settled already, the pass succeeds,
    every LAG then has exactly its desired members, and a second pass
    over the same proposals writes nothing. *)
Theorem lag_pass_settles_disjoint_lags :
  ∀ (device_id : Z) (proposals : list Proposal) (w : world),
    interfaces_wf (remote w) →
    NoDup (p_identifier <$> proposals) →
    disjoint_members proposals →
    Forall (lag_ready (remote w) device_id) proposals →
    ∃ w',
      _apply_lag_membership w device_id proposals = (w', Ok ())
      ∧ Forall (lag_settled (remote w') device_id) proposals
      ∧ _apply_lag_membership w' device_id proposals = (w', Ok ()).
Proof.
  intros d ps w Hwf Hnd Hdis Hready.
  destruct (lag_pass_settles d ps w Hwf Hnd Hdis Hready) as (w' & E & Hall & _).
  exists w'. split_and!; [done|done|].
  pose proof (apply_lag_membership_frame d ps w) as (Hsame & _ & _).
  rewrite E in Hsame. simpl in Hsame.
  apply lag_pass_silent; [by eapply same_but_lag_wf|].
  rewrite Forall_forall in Hall, Hready |- *. intros p Hp.
  split; [|by apply Hall].
  apply (same_but_lag_has_interface _ _ _ _ Hsame). by apply Hready.
Qed.

(** X12. The resolved inventory is the inventory with two fields of
    the device rewritten and everything else kept: the device name is the
    name itself when it ends with the name suffix (as every name does
    with the empty suffix) and the name followed by the suffix otherwise;
    the device type slug likewise with the type suffix of the rules.
    Hence both end with their suffix, applying the suffixes is
    idempotent, and planning the resolved inventory gives the plan of the
    original one. *)
Theorem apply_suffixes_is_idempotent :
  ∀ (nb : NetBox) (suffix : string) (type_rules : DeviceTypeSuffix)
    (inventory : NormalizedInventory),
    let resolved := _apply_suffixes suffix type_rules inventory in
    let dev := device inventory in
    let type_suffix := device_type_suffix_value type_rules in
    resolved =
      mkInventory
        (mkDevice
           (if ends_with (d_name dev) suffix then d_name dev
            else d_name dev +:+ suffix)
           (d_site_slug dev) (d_role_slug dev) (d_manufacturer_slug dev)
           (if ends_with (d_device_type_slug dev) type_suffix
            then d_device_type_slug dev
            else d_device_type_slug dev +:+ type_suffix)
           (d_status dev) (d_serial dev) (d_asset_tag dev)
           (d_custom_fields dev) (d_tags dev))
        (module_bays inventory) (modules inventory) (interfaces inventory)
        (lags inventory)
    ∧ _apply_suffixes suffix type_rules resolved = resolved
    ∧ ends_with (d_name (device resolved)) suffix = true
    ∧ ends_with (d_device_type_slug (device resolved)) type_suffix = true
    ∧ plan nb suffix type_rules resolved = plan nb suffix type_rules inventory
    ∧ plan nb suffix type_rules inventory
      = (batch ← build nb resolved; Ok (batch, resolved)).
Proof.
  intros nb suffix type_rules inventory resolved dev type_suffix.
  assert (Hidem : _apply_suffixes suffix type_rules resolved = resolved)
    by apply apply_suffixes_idempotent.
  assert (Hif : ∀ name s,
             (if str_truthy s && negb (ends_with name s)
              then name +:+ s else name)
             = (if ends_with name s then name else name +:+ s)).
  { intros name s. unfold str_truthy.
    destruct (String.eqb_spec s "") as [->|Hs]; simpl.
    - by rewrite ends_with_empty.
    - by destruct (ends_with name s). }
  split_and!.
  - unfold resolved. rewrite apply_suffixes_device. cbv zeta.
    by rewrite !Hif.
  - exact Hidem.
  - unfold resolved. rewrite apply_suffixes_device. cbn.
    apply suffixed_ends_with.
  - unfold resolved. rewrite apply_suffixes_device. cbn.
    apply suffixed_ends_with.
  - unfold plan. by rewrite Hidem.
  - reflexivity.
Qed.

(** X13. The type of an interface: a LAG gets the LAG default of the
    rules, ["lag"] when none is configured, whatever the matchers say;
    for a port the first matcher wins that has a pattern and a type and
    whose pattern is found in the name, matchers that lack either being
    passed over; and when every matcher is passed over the port gets the
    physical default, ["other"] when none is configured. *)
Theorem interface_type_first_matcher_wins :
  ∀ (re_search : string → string → result bool) (self : InterfaceRules)
    (name : string),
    interface_type re_search self name true
    = Ok (default "lag" (ir_lag_default self))
    ∧ (∀ before m after pat t,
         ir_matches self = before ++ m :: after →
         Forall (matcher_skipped re_search name) before →
         mt_pattern m = Some pat → pat ≠ "" →
         mt_type m = Some t → t ≠ "" →
         re_search pat name = Ok true →
         interface_type re_search self name false = Ok t)
    ∧ (Forall (matcher_skipped re_search name) (ir_matches self) →
       interface_type re_search self name false
       = Ok (default "other" (ir_physical_default self))).
Proof. exact interface_type_spec. Qed.

(** X14. [_find_lag_for_port] answers with the first LAG, in the
    order in which the LAGs were met, whose member set holds the port,
    and with [None] exactly when no LAG holds it. *)
Theorem find_lag_for_port_first_holder :
  ∀ (port : string) (lag_members : lag_members_t),
    (∀ L, _find_lag_for_port port lag_members = Some L ↔
          ∃ before members after,
            lag_members = before ++ (L, members) :: after
            ∧ port ∈ members
            ∧ Forall (λ e, port ∉ e.2) before)
    ∧ (_find_lag_for_port port lag_members = None ↔
       ∀ L, ¬ lag_has lag_members L port).
Proof.
  intros port lm. split.
  - intros L. apply find_lag_for_port_Some.
  - apply find_lag_for_port_None.
Qed.

(** X15. The interfaces and LAGs the harvester builds are consistent:
    no LAG is without members and no two LAGs share a name; a port is a
    member of a LAG exactly when the device reported the port under the
    number of that LAG; the interfaces are the LAG interfaces, in the
    order of the LAGs, followed by the ports in sorted order; an interface
    that names a LAG is a member of that LAG; and every member of a LAG
    has an interface, which names a LAG that holds it. *)
Theorem harvested_links_are_consistent :
  ∀ (re_search : string → string → result bool)
    (interface_rules : InterfaceRules)
    (ports_up regex_lag : list (string * string))
    (ifaces : list NormalizedInterface) (lag_list : list NormalizedLag),
    harvest_links re_search interface_rules ports_up regex_lag
    = Ok (ifaces, lag_list) →
    Forall (λ lag, l_members lag ≠ []) lag_list
    ∧ NoDup (l_name <$> lag_list)
    ∧ (∀ L m, (∃ lag, lag ∈ lag_list ∧ l_name lag = L ∧ m ∈ l_members lag)
              ↔ ∃ lag_id, (m, lag_id) ∈ regex_lag ∧ L = "LAG " +:+ lag_id)
    ∧ i_name <$> ifaces =
        (l_name <$> lag_list)
        ++ sorted_names (list_to_set ports_up.*1 ∪ list_to_set regex_lag.*1)
    ∧ (∀ i L, i ∈ ifaces → i_lag i = Some L →
         ∃ lag, lag ∈ lag_list ∧ l_name lag = L ∧ i_name i ∈ l_members lag)
    ∧ (∀ lag m, lag ∈ lag_list → m ∈ l_members lag →
         ∃ i lag', i ∈ ifaces ∧ i_name i = m ∧ i_lag i = Some (l_name lag')
                   ∧ lag' ∈ lag_list ∧ m ∈ l_members lag').
Proof. exact harvest_links_ok. Qed.

(** X16. The harvest of interfaces and LAGs returns a result whenever
    the regular expression search raises on no pattern of the interface
    rules; on other patterns it may raise. *)
Theorem harvest_links_returns :
  ∀ (re_search : string → string → result bool)
    (interface_rules : InterfaceRules)
    (ports_up regex_lag : list (string * string)),
    patterns_compile re_search interface_rules →
    ∃ r, harvest_links re_search interface_rules ports_up regex_lag = Ok r.
Proof. exact harvest_links_total. Qed.

(** X17. The position of a module bay is the last word of its name:
    of a name that ends with white space and a word it is that word, of a
    single word the word itself; a name made of white space only raises
    an index error; and any position returned for a name that is not
    empty is a word, not empty and free of white space. *)
Theorem bay_position_is_last_word :
  (∀ front sp word,
     isspace sp = true → word ≠ "" →
     str_forallb (λ c, negb (isspace c)) word = true →
     _bay_position (front +:+ String sp word) = Ok (Some word))
  ∧ (∀ word,
       word ≠ "" → str_forallb (λ c, negb (isspace c)) word = true →
       _bay_position word = Ok (Some word))
  ∧ (∀ name,
       name ≠ "" → str_forallb isspace name = true →
       _bay_position name = Raise "IndexError: list index out of range")
  ∧ (∀ name position,
       _bay_position name = Ok position →
       (name = "" ∧ position = None)
       ∨ ∃ word, position = Some word ∧ word ≠ ""
                 ∧ str_forallb (λ c, negb (isspace c)) word = true).
Proof. exact bay_position_spec. Qed.

(** X18. A harvested inventory is put together as follows. The device
    is the host name with the four slugs of the classifier (site, role
    and manufacturer of the host name, device type of the reported type),
    the status ["active"], the first serial number if there is one, and
    nothing else. The module bays are the bay names of the three sources
    of modules, sorted and without repetition, each labelled with its
    name and positioned by [_bay_position]. The modules are those that
    the loops over the three sources collect; every one sits in one of
    the module bays and has a bay name and a model that are not empty.
    The interfaces and LAGs are those of the harvest of the links. *)
Theorem harvested_inventory_is_linked :
  ∀ (format_named : string → list (string * option string) → result string)
    (format_positional : string → list (option string) → result string)
    (upper : string → string)
    (re_search : string → string → result bool)
    (rules : RulesEngine) (interface_rules : InterfaceRules) (x : Extracted)
    (inventory : NormalizedInventory),
    harvest_inventory format_named format_positional upper re_search
      rules interface_rules x = Ok inventory →
    (∃ site role manufacturer device_type,
       site_slug format_named format_positional upper rules (x_host_name x)
       = Ok site
       ∧ role_slug format_named format_positional upper rules (x_host_name x)
         = Ok role
       ∧ manufacturer_slug format_named format_positional upper rules
           (x_host_name x) = Ok manufacturer
       ∧ device_type_slug format_named format_positional upper rules
           (x_device_type_raw x) = Ok device_type
       ∧ device inventory
         = mkDevice (x_host_name x) site role manufacturer device_type "active"
             (head (x_serial_numbers x)) None [] [])
    ∧ mb_name <$> module_bays inventory
      = sorted_names (list_to_set (module_pairs_of x).*1
                      ∪ list_to_set (card_modules_of x).*1
                      ∪ list_to_set (mda_modules_of x).*1)
    ∧ StronglySorted (λ a b, String.leb a b = true)
        (mb_name <$> module_bays inventory)
    ∧ NoDup (mb_name <$> module_bays inventory)
    ∧ Forall (λ b, mb_label b = Some (mb_name b)
                   ∧ _bay_position (mb_name b) = Ok (mb_position b))
        (module_bays inventory)
    ∧ modules inventory
      = harvest_modules (module_pairs_of x) (card_modules_of x)
          (mda_modules_of x)
    ∧ Forall (λ m, m_bay_name m ∈ mb_name <$> module_bays inventory
                   ∧ m_bay_name m ≠ "" ∧ m_module_type_model m ≠ "")
        (modules inventory)
    ∧ harvest_links re_search interface_rules (x_ports_up x) (x_regex_lag x)
      = Ok (interfaces inventory, lags inventory).
Proof. exact harvest_inventory_ok. Qed.

(** X19. The lookup of a module type: without a model it raises; with
    one it returns the first module type of the remote system that has
    the model and, when a manufacturer was resolved, that manufacturer,
    further matches being no error; and it raises when there is none. *)
Theorem find_module_type_first_candidate :
  ∀ (module_types : list NbModuleType) (manufacturer : option Z),
    (∀ model, ostr_truthy model = false →
       _find_module_type module_types model manufacturer
       = Raise "Module type model is required")
    ∧ (∀ model r,
         _find_module_type module_types (Some model) manufacturer = Ok r ↔
         model ≠ ""
         ∧ ∃ before after,
             module_types = before ++ r :: after
             ∧ module_type_matches model manufacturer r
             ∧ Forall (λ c, ¬ module_type_matches model manufacturer c) before)
    ∧ (∀ model,
         model ≠ "" →
         Forall (λ c, ¬ module_type_matches model manufacturer c) module_types →
         _find_module_type module_types (Some model) manufacturer
         = Raise ("Module type with model '" +:+ model +:+
                  "' not found in NetBox")).
Proof. exact find_module_type_spec. Qed.

(** X20. The dependencies resolved for a device are records of the
    remote system with the slugs of the device: site, role and device
    type; with a manufacturer slug the manufacturer record of that slug,
    which is also the manufacturer of the device type when that has one;
    without a manufacturer slug no manufacturer. A site that the remote
    system does not have is an error that names the slug. *)
Theorem resolved_dependencies_match_device :
  ∀ (nb : Catalog) (dev : NormalizedDevice),
    (∀ deps,
       _resolve_device_dependencies nb dev = Ok deps →
       (dep_site deps ∈ nb_sites nb
        ∧ sl_slug (dep_site deps) = d_site_slug dev)
       ∧ (dep_role deps ∈ nb_device_roles nb
          ∧ sl_slug (dep_role deps) = d_role_slug dev)
       ∧ (dep_device_type deps ∈ nb_device_types nb
          ∧ dt_slug (dep_device_type deps) = d_device_type_slug dev)
       ∧ (d_manufacturer_slug dev = "" → dep_manufacturer deps = None)
       ∧ (d_manufacturer_slug dev ≠ "" →
          (∃ m, dep_manufacturer deps = Some m ∧ m ∈ nb_manufacturers nb
                ∧ sl_slug m = d_manufacturer_slug dev)
          ∧ ∀ slug, dt_manufacturer (dep_device_type deps) = Some slug →
                    slug = d_manufacturer_slug dev))
    ∧ (Forall (λ r, sl_slug r ≠ d_site_slug dev) (nb_sites nb) →
       _resolve_device_dependencies nb dev
       = Raise ("Site with slug '" +:+ d_site_slug dev +:+
                "' not found in NetBox")).
Proof. exact resolve_device_dependencies_spec. Qed.

(** X21. The payload of a device holds the fields of the data among
    name, status, site, role, device type, serial, asset tag, tags and
    custom fields, and nothing else: never the manufacturer. Site, role
    and device type are sent as the identifiers of the resolved records,
    the other fields as they are. *)
Theorem device_payload_fields :
  ∀ (data : gmap string pyval) (dependencies : Dependencies),
    let payload := _build_device_payload data dependencies in
    (∀ k, is_Some (payload !! k) ↔
          is_Some (data !! k)
          ∧ k ∈ ["name"; "status"; "site"; "role"; "device_type"; "serial";
                 "asset_tag"; "tags"; "custom_fields"])
    ∧ payload !! "manufacturer" = None
    ∧ (∀ k, k ∈ ["name"; "status"; "serial"; "asset_tag"; "tags";
                 "custom_fields"] → payload !! k = data !! k)
    ∧ (is_Some (data !! "site") →
       payload !! "site" = Some (VInt (sl_id (dep_site dependencies))))
    ∧ (is_Some (data !! "role") →
       payload !! "role" = Some (VInt (sl_id (dep_role dependencies))))
    ∧ (is_Some (data !! "device_type") →
       payload !! "device_type"
       = Some (VInt (dt_id (dep_device_type dependencies)))).
Proof. exact build_device_payload_spec. Qed.

(** X22. What applying a device proposal sends: a create only for a
    [create] proposal, with the payload of the desired fields; an update
    only for an [update] proposal of a device that exists, with a payload
    that is not empty, holds no manufacturer and only fields of the diff;
    and nothing for a proposal that is not a [create] whose device
    exists, so that a [noop] writes nothing. *)
Theorem apply_device_sends :
  ∀ (nb : NetBox) (proposal : Proposal) (dependencies : Dependencies)
    (w : api_write),
    _apply_device nb proposal dependencies = Ok w →
    match w with
    | Create payload =>
        p_action proposal = create
        ∧ payload = _build_device_payload (p_desired proposal) dependencies
    | Update id payload =>
        p_action proposal = update
        ∧ (∃ record, devices_get nb (p_identifier proposal) = Ok (Some record)
                     ∧ dev_id record = id)
        ∧ payload ≠ ∅
        ∧ payload !! "manufacturer" = None
        ∧ ∃ diff, p_diff proposal = Some diff
                  ∧ ∀ k, is_Some (payload !! k) → is_Some (diff !! k)
    | NoWrite =>
        p_action proposal ≠ create
        ∧ ∃ record, devices_get nb (p_identifier proposal) = Ok (Some record)
    end.
Proof. exact apply_device_spec. Qed.

(** X23. Applying a module bay proposal of the engine sends what the
    engine planned: for a [create], the desired fields that are not null
    together with the device; for an [update] of a bay that exists, the
    diff as it is; for an [update] of a bay that does not exist, an
    error; and for a [noop] nothing. *)
Theorem apply_module_bay_sends_the_diff :
  ∀ (nb : NetBox) (device_id : Z) (device_name : string)
    (bay : NormalizedModuleBay) (state : option DeviceState)
    (existing : option NbModuleBay),
    module_bays_get nb device_id (mb_name bay) = Ok existing →
    _apply_module_bay nb device_id device_name (_module_bay_proposal bay state) =
    match p_action (_module_bay_proposal bay state), existing with
    | create, _ =>
        Ok (Create (non_null_fields (p_desired (_module_bay_proposal bay state))
                    ∪ {[ "device" := VInt device_id ]}))
    | update, Some record =>
        Ok (Update (bay_id record)
              (default ∅ (p_diff (_module_bay_proposal bay state))))
    | update, None =>
        Raise ("Module bay '" +:+ mb_name bay +:+ "' not found for device "
               +:+ device_name)
    | noop, _ => Ok NoWrite
    end.
Proof. exact apply_module_bay_engine. Qed.

(** X24. The counts of the summary: for each action the number of
    proposals with that action, an action that does not occur being left
    out; no other key; and the counts add up to the number of
    proposals. *)
Theorem count_actions_counts :
  ∀ (proposals : list Proposal),
    (∀ a, default 0 (_count_actions proposals !! action_name a)
          = length (filter (λ p, p_action p = a) proposals))
    ∧ (∀ k n, _count_actions proposals !! k = Some n →
              n ≠ 0 ∧ ∃ a, k = action_name a)
    ∧ default 0 (_count_actions proposals !! "create")
      + default 0 (_count_actions proposals !! "update")
      + default 0 (_count_actions proposals !! "noop")
      = length proposals.
Proof. exact count_actions_spec. Qed.

(** ** Instances *)

Lemma has_interface_check (nb : NetBox) (d : Z) (n : string) :
  existsb (λ i, Z.eqb (if_device i) d && String.eqb (if_name i) n)
          (nb_interfaces nb) = true →
  has_interface nb d n.
Proof.
  intros (i & Hi & [H1%Z.eqb_eq H2%String.eqb_eq]%andb_true_iff)%existsb_exists.
  exists i. split; [by apply list_elem_of_In|done].
Qed.

Lemma members_check (nb : NetBox) (d : Z) (l : list string) :
  forallb (λ n, existsb (λ i, Z.eqb (if_device i) d && String.eqb (if_name i) n)
                        (nb_interfaces nb)) l = true →
  ∀ m, m ∈ l → has_interface nb d m.
Proof.
  intros H m Hm. apply has_interface_check.
  rewrite forallb_forall in H. apply H. by apply list_elem_of_In.
Qed.

Lemma not_elem_check (l l' : list string) :
  forallb (λ n, negb (existsb (String.eqb n) l')) l = true →
  ∀ n, n ∈ l → n ∉ l'.
Proof.
  intros H n Hn Hn'. rewrite forallb_forall in H.
  apply list_elem_of_In in Hn. apply H in Hn. apply negb_true_iff in Hn.
  assert (existsb (String.eqb n) l' = true); [|congruence].
  apply existsb_exists. exists n. split; [by apply list_elem_of_In|].
  apply String.eqb_refl.
Qed.

Lemma plan_proposals_well_formed_instance :
  ∃ batch, build sync_remote sync_inventory = Ok batch
           ∧ Forall proposal_wf (actions batch).
Proof.
  eexists. split; [vm_compute; reflexivity|].
  apply (plan_proposals_well_formed sync_remote sync_inventory).
  vm_compute. reflexivity.
Defined.

Lemma plan_without_device_instance :
  ∃ batch, build (mkNetBox [] [] [] []) sync_inventory = Ok batch
           ∧ Forall planned_create (actions batch).
Proof.
  apply (plan_without_device_creates_all (mkNetBox [] [] [] []) sync_inventory).
  reflexivity.
Defined.


Lemma two_lag_remote_wf : interfaces_wf two_lag_remote.
Proof. split; apply (bool_decide_unpack _); vm_compute; exact I. Qed.

Lemma lag_proposal_takes_members_instance :
  ∃ w',
    apply_lag_proposal (mkWorld two_lag_remote []) 7
      (lag_update "LAG 1" ["p2"; "p3"]) = (w', Ok ())
    ∧ ∀ name n,
        has_interface two_lag_remote 7 name →
        n ∈ remote_lag_members (remote w') 7 name ↔
        if decide (name = "LAG 1")
        then n ∈ ["p2"; "p3"]
        else n ∈ remote_lag_members two_lag_remote 7 name
             ∧ n ∉ ["p2"; "p3"].
Proof.
  apply (lag_proposal_takes_members_from_other_lags
           (mkWorld two_lag_remote []) 7 (lag_update "LAG 1" ["p2"; "p3"])).
  - discriminate.
  - exact two_lag_remote_wf.
  - apply has_interface_check. reflexivity.
  - apply members_check. reflexivity.
Defined.

Lemma lag_pass_settles_instance :
  ∃ w',
    _apply_lag_membership (mkWorld two_lag_remote []) 7
      [lag_update "LAG 1" ["p1"; "p3"]; lag_update "LAG 2" ["p2"; "p4"]]
    = (w', Ok ())
    ∧ Forall (lag_settled (remote w') 7)
        [lag_update "LAG 1" ["p1"; "p3"]; lag_update "LAG 2" ["p2"; "p4"]]
    ∧ _apply_lag_membership w' 7
        [lag_update "LAG 1" ["p1"; "p3"]; lag_update "LAG 2" ["p2"; "p4"]]
      = (w', Ok ()).
Proof.
  apply (lag_pass_settles_disjoint_lags 7
           [lag_update "LAG 1" ["p1"; "p3"]; lag_update "LAG 2" ["p2"; "p4"]]
           (mkWorld two_lag_remote [])).
  - exact two_lag_remote_wf.
  - apply (bool_decide_unpack _). vm_compute. exact I.
  - simpl. split_and!; [|constructor|done].
    repeat constructor. apply not_elem_check. reflexivity.
  - repeat constructor; try discriminate.
    + apply has_interface_check. reflexivity.
    + apply members_check. reflexivity.
    + apply has_interface_check. reflexivity.
    + apply members_check. reflexivity.
Defined.

Lemma harvested_links_instance :
  ∃ ifaces lag_list,
    harvest_links search_nothing (mkInterfaceRules None None [])
      (x_ports_up example_extracted) (x_regex_lag example_extracted)
    = Ok (ifaces, lag_list)
    ∧ i_name <$> ifaces = ["LAG 1"; "1/1/1"; "1/1/2"]
    ∧ Forall (λ lag, l_members lag ≠ []) lag_list
    ∧ ∀ i L, i ∈ ifaces → i_lag i = Some L →
        ∃ lag, lag ∈ lag_list ∧ l_name lag = L ∧ i_name i ∈ l_members lag.
Proof.
  eexists _, _. split; [vm_compute; reflexivity|].
  split; [vm_compute; reflexivity|].
  destruct (harvested_links_are_consistent search_nothing
              (mkInterfaceRules None None [])
              (x_ports_up example_extracted) (x_regex_lag example_extracted)
              _ _ ltac:(vm_compute; reflexivity))
    as (H1 & _ & _ & _ & H5 & _).
  split; [exact H1|exact H5].
Defined.

Lemma harvest_links_returns_instance :
  search_prefix "(" "1/1/1"
  = Raise "re.error: missing ), unterminated subpattern at position 0"
  ∧ ∃ r, harvest_links search_prefix port_rules
           (x_ports_up example_extracted) (x_regex_lag example_extracted)
         = Ok r.
Proof.
  split; [reflexivity|].
  apply (harvest_links_returns search_prefix port_rules).
  repeat constructor. intros pat name [= <-]. eexists. reflexivity.
Defined.

Lemma harvested_inventory_instance :
  ∃ inventory,
    harvest_inventory format_plain format_plain ascii_upper search_nothing
      example_rules (mkInterfaceRules None None []) example_extracted
    = Ok inventory
    ∧ device inventory
      = mkDevice "SIM-SROS-01" "sim" "access-switch" "nokia" "7750-sr-12"
          "active" (Some "NS1234") None [] []
    ∧ mb_name <$> module_bays inventory = ["Card A"; "MDA 1"]
    ∧ Forall (λ m, m_bay_name m ∈ mb_name <$> module_bays inventory
                   ∧ m_bay_name m ≠ "" ∧ m_module_type_model m ≠ "")
        (modules inventory).
Proof.
  eexists. split; [vm_compute; reflexivity|].
  split; [vm_compute; reflexivity|].
  split; [vm_compute; reflexivity|].
  destruct (harvested_inventory_is_linked format_plain format_plain ascii_upper
              search_nothing example_rules (mkInterfaceRules None None [])
              example_extracted _ ltac:(vm_compute; reflexivity))
    as (_ & _ & _ & _ & _ & _ & H & _).
  exact H.
Defined.

Lemma apply_device_sends_instance :
  _apply_device sync_remote example_device_update example_dependencies
  = Ok (Update 7 ({[ "serial" := VStr "NS1" ]} : gmap string pyval))
  ∧ p_action example_device_update = update
  ∧ ({[ "serial" := VStr "NS1" ]} : gmap string pyval) !! "manufacturer" = None.
Proof.
  assert (E : _apply_device sync_remote example_device_update
                example_dependencies
              = Ok (Update 7 ({[ "serial" := VStr "NS1" ]} : gmap string pyval)))
    by (vm_compute; reflexivity).
  split; [exact E|].
  destruct (apply_device_sends sync_remote example_device_update
              example_dependencies _ E) as (H1 & _ & _ & H2 & _).
  split; [exact H1|exact H2].
Defined.

Lemma apply_module_bay_sends_instance :
  _apply_module_bay sync_remote 7 "SIM-SROS-01"
    (_module_bay_proposal (mkBay "Card A" (Some "Card A") (Some "B")) sync_state)
  = Ok (Update 20 ({[ "position" := VStr "B" ]} : gmap string pyval)).
Proof.
  rewrite (apply_module_bay_sends_the_diff sync_remote 7 "SIM-SROS-01"
             (mkBay "Card A" (Some "Card A") (Some "B")) sync_state
             (Some (mkNbBay 20 7 "Card A"
                      [("label", VStr "Card A"); ("position", VStr "A")]))).
  - vm_compute. reflexivity.
  - vm_compute. reflexivity.
Defined.
